(** * dhammer: the orchestrator ([hammer]) and the statistics registry ([stats])

    A shallow embedding of [hammer/hammer.go] and of the registry part of
    package [stats].  Goroutine-local code is written in a state-and-panic
    monad over the orchestrator's world; the goroutines started by [Run] are
    interleaved by an explicit schedule.  The collaborators whose code lives in
    other packages (socketeer, handler, generator, the statistics drivers, the
    HTTP server) are parameters: records of methods acting on an abstract
    private state and reaching the orchestrator only through the three
    callbacks it hands them. *)

From Stdlib Require Import Ascii.
From stdpp Require Import base option list strings pretty gmap.

(** ** Go values shared by both packages *)

(** A Go [error] is identified with its [Error()] text; a nil error is [None]. *)
Definition error : Type := string.

Definition errors_New (s : string) : error := s.

(** The three senders the orchestrator hands out as [func(string) bool] /
    [func(error) bool] values: [h.addLog], [h.addStats], [h.addError]. *)
Inductive Sender := AddLog | AddStats | AddError.

Global Instance Sender_eq_dec : EqDecision Sender.
Proof. solve_decision. Defined.

(** What a collaborator's method does: it ends with a value, or it invokes
    one of the callbacks and goes on with the boolean that callback returned. *)
Inductive Act (A : Type) : Type :=
| Done (a : A)
| Emit (via : Sender) (msg : string) (k : bool → Act A).
Arguments Done {A} a.
Arguments Emit {A} via msg k.

(** Every way a method can end satisfies [P]. *)
Fixpoint ends {A} (P : A → Prop) (t : Act A) : Prop :=
  match t with
  | Done a => P a
  | Emit _ _ k => ∀ b, ends P (k b)
  end.

(** ** Buffered channels *)

Record chan (A : Type) := Chan { buf : list A; cap : nat; closed : bool }.
Arguments Chan {A} buf cap closed.
Arguments buf {A} c.
Arguments cap {A} c.
Arguments closed {A} c.

(** [make(chan A, n)] *)
Definition make_chan {A} (n : nat) : chan A := Chan [] n false.

(** Outcome of a goroutine-local computation. [Stuck]: the schedule ran out
    while the computation was blocked. *)
Inductive Res (A : Type) : Type :=
| Ok (a : A)
| Panic (msg : string)
| Stuck.
Arguments Ok {A} a.
Arguments Panic {A} msg.
Arguments Stuck {A}.

(** [select { case c <- x: return true; default: } return false].
    The send case is ready when the buffer has room; a send on a closed
    channel panics, in a [select] too. *)
Definition select_send {A} (c : chan A) (x : A) : Res (bool * chan A) :=
  if closed c then Panic "send on closed channel"
  else if decide (length (buf c) < cap c)
       then Ok (true, Chan (buf c ++ [x]) (cap c) false)
       else Ok (false, c).

(** [close(c)] *)
Definition close_chan {A} (c : chan A) : Res (chan A) :=
  if closed c then Panic "close of closed channel"
  else Ok (Chan (buf c) (cap c) true).

(** One iteration of [for x = range c]: the next value, the end of the
    range (closed and drained), or nothing yet. *)
Inductive Recv (A : Type) : Type :=
| Received (x : A) (c : chan A)
| RangeEnd
| NotReady.
Arguments Received {A} x c.
Arguments RangeEnd {A}.
Arguments NotReady {A}.

Definition range_next {A} (c : chan A) : Recv A :=
  match buf c with
  | x :: rest => Received x (Chan rest (cap c) (closed c))
  | [] => if closed c then RangeEnd else NotReady
  end.

(** ** Package config (only its use is in the source) *)
Module config.

(** Modelled from the spec: the configuration snapshot, opaque to the core
    beyond the "hammer type" discriminator read through [HammerType()]. *)
Record HammerConfig := { HammerType : string }.

(** Modelled from the spec: the transport's options; the orchestrator only
    passes them on, so no field is declared. *)
Record SocketeerOptions := { }.

End config.

(** ** Package stats *)
Module stats.
Section Registry.

(** The collaborators' private state (sockets, queues, counter tables). *)
Context {Env : Type}.

Definition StatValue : Type := Z.

(** [type Stats interface]; a method takes the private state and yields
    its result with the new state. [Run] is polled: it yields [true]
    once it has returned. *)
Record Stats := {
  AddStat : StatValue → Env → Act (bool * Env);
  Init : Env → Act (option error * Env);
  Run : Env → Act (bool * Env);
  String : Env → Act (string * Env);
  Stop : Env → Act (option error * Env);
  DeInit : Env → Act (option error * Env);
}.

Record StatsInitParams := {
  options : config.HammerConfig;
  logFunc : Sender;
  errFunc : Sender;
}.

(** The value type of [statters]; a factory may hand back a nil interface. *)
Definition Statter : Type := StatsInitParams → option Stats.

(** [func AddStatter(s, f) error], with the package-level map passed in
    and out. *)
Definition AddStatter (s : string) (f : Statter) (statters : gmap string Statter)
  : option error * gmap string Statter :=
  match statters !! s with
  | Some _ => (Some (errors_New ("Stats type already exists: " +:+ s)), statters)
  | None => (None, <[s := f]> statters)
  end.

(** [func New(o, logFunc, errFunc) (Stats, error)] *)
Definition New (o : config.HammerConfig) (logFunc errFunc : Sender)
    (statters : gmap string Statter) : option Stats * option error :=
  let sip := {| options := o; logFunc := logFunc; errFunc := errFunc |} in
  match statters !! config.HammerType o with
  | None => (None, Some (errors_New ("Statters - Hammer type not found: "
                                      +:+ config.HammerType o)))
  | Some sf => (sf sip, None)
  end.

End Registry.
Arguments Stats : clear implicits.
Arguments StatsInitParams : clear implicits.
Arguments Statter : clear implicits.
End stats.

(** ** The packages the orchestrator imports

    Their code is not part of this development; only the method sets the
    orchestrator calls are declared.  A method that blocks until its loop is
    stopped ([Run], [RunListener], [RunWriter], [WaitStop]) is polled: one
    poll is one scheduling quantum and tells whether the call has returned. *)

Module socketeer.
Section Interface.
Context {Env : Type}.

Record RawSocketeer := {
  Init : Env → Act (option error * Env);
  SetReceiver : (string → Env → Act (unit * Env)) → Env → Act (unit * Env);
  RunListener : Env → Act (bool * Env);
  RunWriter : Env → Act (bool * Env);
  StopListener : Env → Act (option error * Env);
  StopWriter : Env → Act (option error * Env);
  DeInit : Env → Act (option error * Env);
}.
End Interface.
Arguments RawSocketeer : clear implicits.
End socketeer.

Module handler.
Section Interface.
Context {Env : Type}.

Record Handler := {
  Init : Env → Act (option error * Env);
  ReceiveMessage : string → Env → Act (unit * Env);
  Run : Env → Act (bool * Env);
  Stop : Env → Act (option error * Env);
  DeInit : Env → Act (option error * Env);
}.
End Interface.
Arguments Handler : clear implicits.
End handler.

(** [interface{}] values produced by [encoding/json]. *)
#[warnings="-register-all"]
Inductive JSON :=
| JNull
| JBool (b : bool)
| JNumber (digits : string)
| JString (s : string)
| JArray (items : list JSON)
| JObject (fields : list (string * JSON)).

(** [map[string]interface{}]; a nil map is the empty one. *)
Abbreviation Details := (gmap string JSON).

Module generator.
Section Interface.
Context {Env : Type}.

Record Generator := {
  Init : Env → Act (option error * Env);
  Run : Env → Act (bool * Env);
  Update : Details → Env → Act (option error * Env);
  Stop : Env → Act (option error * Env);
  DeInit : Env → Act (option error * Env);
}.
End Interface.
Arguments Generator : clear implicits.
End generator.

(** The two closures [initApiServer] registers on the router. *)
Inductive ApiHandle := statsHandle | updateHandle.

Module httpway.
Section Interface.
Context {Env : Type}.

(** [httpway.Server]: the three calls the orchestrator makes, and the two
    fields of the embedded [http.Server] it assigns. [Handler] lists the
    routes as (method, path, handle). *)
Record Server := {
  Start : Env → Act (option error * Env);
  WaitStop : Z → Env → Act (option (option error) * Env);
  Stop : Env → Act (option error * Env);
  Handler : list (string * string * ApiHandle);
  Addr : string;
}.
End Interface.
Arguments Server : clear implicits.
End httpway.

(** ** net/http and fmt, as far as the two handlers use them *)
Module http.

(** What a handler has produced so far. [status] is unset until the
    header is written. Response headers are not modelled. *)
Record ResponseWriter := { status : option Z; body : string }.

Definition fresh : ResponseWriter := {| status := None; body := "" |}.

(** A write after the header was written keeps the first status. *)
Definition WriteHeader (code : Z) (w : ResponseWriter) : ResponseWriter :=
  match status w with
  | Some _ => w
  | None => {| status := Some code; body := body w |}
  end.

(** [w.Write(data)]: writes the header with 200 first when it is unset. *)
Definition Write (data : string) (w : ResponseWriter) : ResponseWriter :=
  let w := WriteHeader 200 w in
  {| status := status w; body := body w +:+ data |}.

(** [http.Error(w, error, code)]: the code, then the text and a newline. *)
Definition Error (w : ResponseWriter) (err : string) (code : Z) : ResponseWriter :=
  Write (err +:+ String (Ascii.ascii_of_nat 10) "") (WriteHeader code w).

(** What [ioutil.ReadAll(request.Body)] returns for the request. *)
Record Request := { Body : string; ReadErr : option error }.

End http.

Module fmt.
Section Printf.

(** How [fmt] renders one directive when no operand was passed: given the
    format after a percent sign, the text written and the format left. *)
Variable directive : string → string * string.

(** [Sprintf(format)] with no operands: text outside directives is copied,
    [%%] is a percent sign, a percent sign ending the format is
    [%!(NOVERB)]; every other directive is left to [directive]. *)
Fixpoint render (fuel : nat) (format : string) : string :=
  match fuel with
  | O => ""
  | S fuel =>
      match format with
      | EmptyString => ""
      | String "%"%char EmptyString => "%!(NOVERB)"
      | String "%"%char (String "%"%char rest) => String "%"%char (render fuel rest)
      | String "%"%char rest =>
          let '(out, rest') := directive rest in out +:+ render fuel rest'
      | String c rest => String c (render fuel rest)
      end
  end.

Definition Sprintf (format : string) : string :=
  render (String.length format) format.

(** [fmt.Fprintf(w, format)] *)
Definition Fprintf (w : http.ResponseWriter) (format : string) : http.ResponseWriter :=
  http.Write (Sprintf format) w.

End Printf.
End fmt.

(** ** Package hammer *)
Module hammer.

Inductive Channel := logChannel_ | statsChannel_ | errorChannel_.

(** The eight goroutines of [Run], in the order it starts them. *)
Inductive Goroutine :=
| ErrorReader | StatsRun | WriterRun | HandlerRun | ListenerRun
| LogReader | StatsReader | GeneratorRun.

Global Instance Goroutine_eq_dec : EqDecision Goroutine.
Proof. solve_decision. Defined.

(** A schedule entry: the goroutine that gets the next quantum, or the
    goroutine that called [Run]. *)
Inductive Thread := Main | Go (g : Goroutine).

Section Orchestrator.

Context {Env : Type}.

Record Hammer := {
  options : config.HammerConfig;
  socketeerOptions : config.SocketeerOptions;
  logChannel : chan string;
  statsChannel : chan string;
  errorChannel : chan error;
  handler : option (handler.Handler Env);
  generator : option (generator.Generator Env);
  stats : option (stats.Stats Env);
  socketeer : option (socketeer.RawSocketeer Env);
  apiServer : option (httpway.Server Env);
}.

(** The collaborator calls the orchestrator makes, as they appear in its
    history. *)
Inductive Call :=
| stats_New | stats_Init | stats_Run | stats_String | stats_Stop | stats_DeInit
| socketeer_NewRawSocketeer | socketeer_Init
| socketeer_SetReceiver (receiver : string → Env → Act (unit * Env))
| socketeer_RunListener | socketeer_RunWriter
| socketeer_StopListener | socketeer_StopWriter | socketeer_DeInit
| handler_New | handler_Init | handler_Run | handler_Stop | handler_DeInit
| generator_New | generator_Init | generator_Run | generator_Update (details : Details)
| generator_Stop | generator_DeInit
| httpway_NewServer | apiServer_Start | apiServer_WaitStop | apiServer_Stop.

(** What the orchestrator itself did: a collaborator call that returned
    [err]; its own [h.addError(e)] and what that send returned; [close]. *)
Inductive Event :=
| Called (c : Call) (err : option error)
| Forwarded (e : error) (sent : bool)
| Closed (c : Channel).

(** [func New(s, o) *Hammer] *)
Definition New (s : config.SocketeerOptions) (o : config.HammerConfig) : Hammer :=
  {| socketeerOptions := s;
     options := o;
     logChannel := make_chan 1000;
     statsChannel := make_chan 1000;
     errorChannel := make_chan 1000;
     handler := None; generator := None; stats := None; socketeer := None;
     apiServer := None |}.

(** Everything a call on [h] can read or change: [h] itself, the
    collaborators' private state, the [stats] package's [statters] map, the
    process log, the history, and the state of [Run]'s goroutines. *)
Record World := {
  this : Hammer;
  env : Env;
  statters : gmap string (stats.Statter Env);
  logFlags : Z;
  stdlog : list string;
  trace : list Event;
  wg : Z;
  live : list Goroutine;
  sched : list Thread;
}.

Definition with_this (f : Hammer → Hammer) (w : World) : World :=
  {| this := f (this w); env := env w; statters := statters w;
     logFlags := logFlags w; stdlog := stdlog w; trace := trace w;
     wg := wg w; live := live w; sched := sched w |}.
Definition with_env (e : Env) (w : World) : World :=
  {| this := this w; env := e; statters := statters w;
     logFlags := logFlags w; stdlog := stdlog w; trace := trace w;
     wg := wg w; live := live w; sched := sched w |}.
Definition with_logFlags (n : Z) (w : World) : World :=
  {| this := this w; env := env w; statters := statters w;
     logFlags := n; stdlog := stdlog w; trace := trace w;
     wg := wg w; live := live w; sched := sched w |}.
Definition with_stdlog (l : list string) (w : World) : World :=
  {| this := this w; env := env w; statters := statters w;
     logFlags := logFlags w; stdlog := l; trace := trace w;
     wg := wg w; live := live w; sched := sched w |}.
Definition with_trace (t : list Event) (w : World) : World :=
  {| this := this w; env := env w; statters := statters w;
     logFlags := logFlags w; stdlog := stdlog w; trace := t;
     wg := wg w; live := live w; sched := sched w |}.
Definition with_wg (n : Z) (w : World) : World :=
  {| this := this w; env := env w; statters := statters w;
     logFlags := logFlags w; stdlog := stdlog w; trace := trace w;
     wg := n; live := live w; sched := sched w |}.
Definition with_live (l : list Goroutine) (w : World) : World :=
  {| this := this w; env := env w; statters := statters w;
     logFlags := logFlags w; stdlog := stdlog w; trace := trace w;
     wg := wg w; live := l; sched := sched w |}.
Definition with_sched (l : list Thread) (w : World) : World :=
  {| this := this w; env := env w; statters := statters w;
     logFlags := logFlags w; stdlog := stdlog w; trace := trace w;
     wg := wg w; live := live w; sched := l |}.

Definition set_logChannel (c : chan string) (h : Hammer) : Hammer :=
  {| options := options h; socketeerOptions := socketeerOptions h;
     logChannel := c; statsChannel := statsChannel h;
     errorChannel := errorChannel h; handler := handler h;
     generator := generator h; stats := stats h; socketeer := socketeer h;
     apiServer := apiServer h |}.
Definition set_statsChannel (c : chan string) (h : Hammer) : Hammer :=
  {| options := options h; socketeerOptions := socketeerOptions h;
     logChannel := logChannel h; statsChannel := c;
     errorChannel := errorChannel h; handler := handler h;
     generator := generator h; stats := stats h; socketeer := socketeer h;
     apiServer := apiServer h |}.
Definition set_errorChannel (c : chan error) (h : Hammer) : Hammer :=
  {| options := options h; socketeerOptions := socketeerOptions h;
     logChannel := logChannel h; statsChannel := statsChannel h;
     errorChannel := c; handler := handler h;
     generator := generator h; stats := stats h; socketeer := socketeer h;
     apiServer := apiServer h |}.
Definition set_handler (x : option (handler.Handler Env)) (h : Hammer) : Hammer :=
  {| options := options h; socketeerOptions := socketeerOptions h;
     logChannel := logChannel h; statsChannel := statsChannel h;
     errorChannel := errorChannel h; handler := x;
     generator := generator h; stats := stats h; socketeer := socketeer h;
     apiServer := apiServer h |}.
Definition set_generator (x : option (generator.Generator Env)) (h : Hammer) : Hammer :=
  {| options := options h; socketeerOptions := socketeerOptions h;
     logChannel := logChannel h; statsChannel := statsChannel h;
     errorChannel := errorChannel h; handler := handler h;
     generator := x; stats := stats h; socketeer := socketeer h;
     apiServer := apiServer h |}.
Definition set_stats (x : option (stats.Stats Env)) (h : Hammer) : Hammer :=
  {| options := options h; socketeerOptions := socketeerOptions h;
     logChannel := logChannel h; statsChannel := statsChannel h;
     errorChannel := errorChannel h; handler := handler h;
     generator := generator h; stats := x; socketeer := socketeer h;
     apiServer := apiServer h |}.
Definition set_socketeer (x : option (socketeer.RawSocketeer Env)) (h : Hammer) : Hammer :=
  {| options := options h; socketeerOptions := socketeerOptions h;
     logChannel := logChannel h; statsChannel := statsChannel h;
     errorChannel := errorChannel h; handler := handler h;
     generator := generator h; stats := stats h; socketeer := x;
     apiServer := apiServer h |}.
Definition set_apiServer (x : option (httpway.Server Env)) (h : Hammer) : Hammer :=
  {| options := options h; socketeerOptions := socketeerOptions h;
     logChannel := logChannel h; statsChannel := statsChannel h;
     errorChannel := errorChannel h; handler := handler h;
     generator := generator h; stats := stats h; socketeer := socketeer h;
     apiServer := x |}.

(** The world in which [main] calls [Init] on a new orchestrator. *)
Definition boot (s : config.SocketeerOptions) (o : config.HammerConfig)
    (e : Env) (reg : gmap string (stats.Statter Env)) : World :=
  {| this := New s o; env := e; statters := reg; logFlags := 3;
     stdlog := []; trace := []; wg := 0; live := []; sched := [] |}.

(** *** The monad of goroutine-local code *)

Definition M (A : Type) : Type := World → Res A * World.

Definition ret {A} (a : A) : M A := λ w, (Ok a, w).

Definition bind {A B} (m : M A) (f : A → M B) : M B :=
  λ w, match m w with
       | (Ok a, w') => f a w'
       | (Panic msg, w') => (Panic msg, w')
       | (Stuck, w') => (Stuck, w')
       end.

Global Instance M_ret : MRet M := @ret.
Global Instance M_bind : MBind M := λ A B f m, bind m f.

Definition panic {A} (msg : string) : M A := λ w, (Panic msg, w).
Definition stuck {A} : M A := λ w, (Stuck, w).
Definition gets {A} (f : World → A) : M A := λ w, (Ok (f w), w).
Definition modify (f : World → World) : M unit := λ w, (Ok (), f w).

Definition record_event (ev : Event) : M unit :=
  modify (λ w, with_trace (trace w ++ [ev]) w).

(** [log.Print(s)] *)
Definition log_Print (s : string) : M unit :=
  modify (λ w, with_stdlog (stdlog w ++ [s]) w).

Definition log_LstdFlags : Z := 3.
Definition log_LUTC : Z := 32.

(** A method call through a nil interface or pointer. *)
Definition deref {A} (p : option A) : M A :=
  match p with
  | Some a => mret a
  | None => panic "invalid memory address or nil pointer dereference"
  end.

(** *** The fan-in senders *)

Definition addError (e : error) : M bool :=
  c ← gets (λ w, errorChannel (this w));
  match select_send c e with
  | Ok (true, c') => modify (with_this (set_errorChannel c'));; mret true
  | Ok (false, _) => mret false
  | Panic msg => panic msg
  | Stuck => stuck
  end.

Definition addLog (s : string) : M bool :=
  c ← gets (λ w, logChannel (this w));
  match select_send c s with
  | Ok (true, c') => modify (with_this (set_logChannel c'));; mret true
  | Ok (false, _) => mret false
  | Panic msg => panic msg
  | Stuck => stuck
  end.

Definition addStats (s : string) : M bool :=
  c ← gets (λ w, statsChannel (this w));
  match select_send c s with
  | Ok (true, c') => modify (with_this (set_statsChannel c'));; mret true
  | Ok (false, _) => mret false
  | Panic msg => panic msg
  | Stuck => stuck
  end.

(** *** Calling into the collaborators *)

Definition send (via : Sender) (msg : string) : M bool :=
  match via with
  | AddLog => addLog msg
  | AddStats => addStats msg
  | AddError => addError msg
  end.

(** Runs a collaborator's method: each callback it invokes is the
    orchestrator's sender of that name. *)
Fixpoint perform {A} (t : Act A) : M A :=
  match t with
  | Done a => mret a
  | Emit via msg k => b ← send via msg; perform (k b)
  end.

Definition call {R} (m : Env → Act (R * Env)) : M R :=
  e ← gets env;
  '(r, e') ← perform (m e);
  modify (with_env e');;
  mret r.

(** A call whose only result is an error, entered in the history. *)
Definition invoke (c : Call) (m : Env → Act (option error * Env)) : M (option error) :=
  err ← call m;
  record_event (Called c err);;
  mret err.

(** [if err != nil { h.addError(err) }] *)
Definition report (err : option error) : M unit :=
  match err with
  | Some e => sent ← addError e; record_event (Forwarded e sent)
  | None => mret ()
  end.

(** *** What the other packages export *)

(** [socketeer.NewRawSocketeer(options, logFunc, errFunc)] *)
Variable NewRawSocketeer :
  config.SocketeerOptions → Sender → Sender →
  Env → Act (socketeer.RawSocketeer Env * Env).

(** [handler.New(socketeer, options, logFunc, errFunc, statFunc)] *)
Variable NewHandler :
  option (socketeer.RawSocketeer Env) → config.HammerConfig → Sender → Sender →
  (stats.StatValue → Env → Act (bool * Env)) →
  Env → Act ((option (handler.Handler Env) * option error) * Env).

(** [generator.New(socketeer, options, logFunc, errFunc, statFunc)] *)
Variable NewGenerator :
  option (socketeer.RawSocketeer Env) → config.HammerConfig → Sender → Sender →
  (stats.StatValue → Env → Act (bool * Env)) →
  Env → Act ((option (generator.Generator Env) * option error) * Env).

(** [httpway.NewServer(nil)] *)
Variable NewServer : Env → Act (httpway.Server Env * Env).

(** [json.Unmarshal(body, &details)]: the mapping, or the error. *)
Variable Unmarshal : string → Details + error.

(** [fmt]'s rendering of a directive without operand. *)
Variable directive : string → string * string.

(** *** API server *)

Definition seconds (n : Z) : Z := (n * 1000000000)%Z.

Definition initApiServer (apiAddr : string) (apiPort : Z) : M unit :=
  let r := [("GET", "/stats", statsHandle); ("PUT", "/update", updateHandle)] in
  srv ← call NewServer;
  record_event (Called httpway_NewServer None);;
  modify (with_this (set_apiServer (Some
    {| httpway.Start := httpway.Start srv;
       httpway.WaitStop := httpway.WaitStop srv;
       httpway.Stop := httpway.Stop srv;
       httpway.Handler := r;
       httpway.Addr := apiAddr +:+ ":" +:+ pretty apiPort |}))).

Definition stopApiServer : M (option error) :=
  srv ← gets (λ w, apiServer (this w));
  srv ← deref srv;
  err ← invoke apiServer_Stop (httpway.Stop srv);
  if err is Some e then mret (Some e) else
  mret None.

(** *** Lifecycle *)

Definition Init (apiAddr : string) (apiPort : Z) : M (option error) :=
  modify (with_logFlags (Z.lor log_LstdFlags log_LUTC));;
  h ← gets this;
  reg ← gets statters;
  let '(s, err) := stats.New (options h) AddStats AddError reg in
  modify (with_this (set_stats s));;
  record_event (Called stats_New err);;
  if err is Some e then mret (Some e) else
  s ← deref s;
  err ← invoke stats_Init (stats.Init s);
  if err is Some e then mret (Some e) else
  sk ← call (NewRawSocketeer (socketeerOptions h) AddLog AddError);
  modify (with_this (set_socketeer (Some sk)));;
  record_event (Called socketeer_NewRawSocketeer None);;
  err ← invoke socketeer_Init (socketeer.Init sk);
  if err is Some e then mret (Some e) else
  '(hd, err) ← call (NewHandler (Some sk) (options h) AddLog AddError (stats.AddStat s));
  modify (with_this (set_handler hd));;
  record_event (Called handler_New err);;
  if err is Some e then mret (Some e) else
  hd ← deref hd;
  err ← invoke handler_Init (handler.Init hd);
  if err is Some e then mret (Some e) else
  call (socketeer.SetReceiver sk (handler.ReceiveMessage hd));;
  record_event (Called (socketeer_SetReceiver (handler.ReceiveMessage hd)) None);;
  '(g, err) ← call (NewGenerator (Some sk) (options h) AddLog AddError (stats.AddStat s));
  modify (with_this (set_generator g));;
  record_event (Called generator_New err);;
  if err is Some e then mret (Some e) else
  g ← deref g;
  err ← invoke generator_Init (generator.Init g);
  if err is Some e then mret (Some e) else
  initApiServer apiAddr apiPort;;
  mret None.

Definition deInit : M unit :=
  sk ← gets (λ w, socketeer (this w));
  sk ← deref sk;
  err ← invoke socketeer_DeInit (socketeer.DeInit sk);
  report err;;
  hd ← gets (λ w, handler (this w));
  hd ← deref hd;
  err ← invoke handler_DeInit (handler.DeInit hd);
  report err;;
  g ← gets (λ w, generator (this w));
  g ← deref g;
  err ← invoke generator_DeInit (generator.DeInit g);
  report err;;
  s ← gets (λ w, stats (this w));
  s ← deref s;
  err ← invoke stats_DeInit (stats.DeInit s);
  report err.

(** [close(h.errorChannel)] and its two siblings *)
Definition close (ch : Channel) : M unit :=
  h ← gets this;
  match ch with
  | errorChannel_ =>
      match close_chan (errorChannel h) with
      | Ok c => modify (with_this (set_errorChannel c))
      | Panic msg => panic msg
      | Stuck => stuck
      end
  | logChannel_ =>
      match close_chan (logChannel h) with
      | Ok c => modify (with_this (set_logChannel c))
      | Panic msg => panic msg
      | Stuck => stuck
      end
  | statsChannel_ =>
      match close_chan (statsChannel h) with
      | Ok c => modify (with_this (set_statsChannel c))
      | Panic msg => panic msg
      | Stuck => stuck
      end
  end;;
  record_event (Closed ch).

(** [func (h *Hammer) Stop()] *)
Definition Stop : M unit :=
  g ← gets (λ w, generator (this w));
  g ← deref g;
  err ← invoke generator_Stop (generator.Stop g);
  if err is Some e then panic e else mret ().

(** [func (h *Hammer) stop()] *)
Definition stop : M unit :=
  err ← stopApiServer;
  report err;;
  sk ← gets (λ w, socketeer (this w));
  sk ← deref sk;
  err ← invoke socketeer_StopListener (socketeer.StopListener sk);
  report err;;
  hd ← gets (λ w, handler (this w));
  hd ← deref hd;
  err ← invoke handler_Stop (handler.Stop hd);
  report err;;
  sk ← gets (λ w, socketeer (this w));
  sk ← deref sk;
  err ← invoke socketeer_StopWriter (socketeer.StopWriter sk);
  report err;;
  s ← gets (λ w, stats (this w));
  s ← deref s;
  err ← invoke stats_Stop (stats.Stop s);
  report err;;
  deInit;;
  close errorChannel_;;
  close logChannel_;;
  close statsChannel_.

(** *** The two API handlers *)

Definition dquote : string := String (Ascii.ascii_of_nat 34) "".

(** The Go literal of [updateHandler]'s success body. *)
Definition status_ok : string :=
  "{" +:+ dquote +:+ "status" +:+ dquote +:+ ": " +:+ dquote +:+ "ok" +:+ dquote +:+ "}".

Definition statsHandler (response : http.ResponseWriter) (request : http.Request)
  : M http.ResponseWriter :=
  s ← gets (λ w, stats (this w));
  s ← deref s;
  text ← call (stats.String s);
  record_event (Called stats_String None);;
  mret (fmt.Fprintf directive response text).

Definition updateHandler (response : http.ResponseWriter) (request : http.Request)
  : M http.ResponseWriter :=
  if http.ReadErr request is Some err then
    addError err;;
    mret (http.Error response err 400)
  else
  match Unmarshal (http.Body request) with
  | inr err =>
      addError err;;
      mret (http.Error response err 400)
  | inl details =>
      g ← gets (λ w, generator (this w));
      g ← deref g;
      err ← invoke (generator_Update details) (generator.Update g details);
      if err is Some err then
        addError err;;
        mret (http.Error response err 500)
      else
      mret (fmt.Fprintf directive response status_ok)
  end.

(** The router of [initApiServer]: the handle registered for a method
    and path. *)
Definition serve (h : ApiHandle) : http.ResponseWriter → http.Request → M http.ResponseWriter :=
  match h with
  | statsHandle => statsHandler
  | updateHandle => updateHandler
  end.

(** *** The goroutines of [Run] *)

Definition wg_Add (n : Z) : M unit :=
  c ← gets wg;
  if decide (c + n < 0)%Z then panic "sync: negative WaitGroup counter"
  else modify (with_wg (c + n)%Z).

Definition wg_Done : M unit := wg_Add (-1).

(** The goroutine's function has returned. *)
Definition exit (g : Goroutine) : M unit :=
  modify (λ w, with_live (filter (λ g', g' ≠ g) (live w)) w).

(** One quantum of a goroutine's body: a reader takes one message off its
    channel, or ends when the range does; a runner polls its loop and,
    once that has returned, does what follows the call. *)
Definition quantum (g : Goroutine) : M unit :=
  match g with
  | ErrorReader =>
      c ← gets (λ w, errorChannel (this w));
      match range_next c with
      | Received err c' =>
          modify (with_this (set_errorChannel c'));;
          log_Print ("ERROR: " +:+ err)
      | RangeEnd =>
          wg_Done;;
          log_Print "INFO: Stopped error channel reader.";;
          exit ErrorReader
      | NotReady => mret ()
      end
  | StatsRun =>
      s ← gets (λ w, stats (this w));
      s ← deref s;
      returned ← call (stats.Run s);
      if returned : bool then
        record_event (Called stats_Run None);;
        wg_Done;;
        log_Print "INFO: Stopped stats.";;
        exit StatsRun
      else mret ()
  | WriterRun =>
      sk ← gets (λ w, socketeer (this w));
      sk ← deref sk;
      returned ← call (socketeer.RunWriter sk);
      if returned : bool then
        record_event (Called socketeer_RunWriter None);;
        wg_Done;;
        log_Print "INFO: Stopped writer.";;
        exit WriterRun
      else mret ()
  | HandlerRun =>
      hd ← gets (λ w, handler (this w));
      hd ← deref hd;
      returned ← call (handler.Run hd);
      if returned : bool then
        record_event (Called handler_Run None);;
        wg_Done;;
        log_Print "INFO: Stopped handler.";;
        exit HandlerRun
      else mret ()
  | ListenerRun =>
      sk ← gets (λ w, socketeer (this w));
      sk ← deref sk;
      returned ← call (socketeer.RunListener sk);
      if returned : bool then
        record_event (Called socketeer_RunListener None);;
        wg_Done;;
        log_Print "INFO: Stopped listener.";;
        exit ListenerRun
      else mret ()
  | LogReader =>
      c ← gets (λ w, logChannel (this w));
      match range_next c with
      | Received msg c' =>
          modify (with_this (set_logChannel c'));;
          log_Print ("INFO: " +:+ msg)
      | RangeEnd =>
          wg_Done;;
          log_Print "INFO: Stopped log channel reader.";;
          exit LogReader
      | NotReady => mret ()
      end
  | StatsReader =>
      c ← gets (λ w, statsChannel (this w));
      match range_next c with
      | Received msg c' =>
          modify (with_this (set_statsChannel c'));;
          log_Print msg
      | RangeEnd =>
          wg_Done;;
          log_Print "INFO: Stopped stats channel reader.";;
          exit StatsReader
      | NotReady => mret ()
      end
  | GeneratorRun =>
      g ← gets (λ w, generator (this w));
      g ← deref g;
      returned ← call (generator.Run g);
      if returned : bool then
        record_event (Called generator_Run None);;
        log_Print "INFO: Stopped generator.";;
        log_Print "INFO: Going to stop everything else...";;
        stop;;
        wg_Done;;
        exit GeneratorRun
      else mret ()
  end.

(** A scheduled goroutine runs one quantum if it was started and has
    not returned. *)
Definition step (g : Goroutine) : M unit :=
  l ← gets live;
  if decide (g ∈ l) then quantum g else mret ().

(** The goroutines scheduled before the next turn of [Main] run. *)
Fixpoint run_until_main (l : list Thread) : M unit :=
  match l with
  | [] => modify (with_sched [])
  | Main :: l' => modify (with_sched l')
  | Go g :: l' => modify (with_sched l');; step g;; run_until_main l'
  end.

Definition yield : M unit :=
  l ← gets sched;
  run_until_main l.

(** [go func() { ... }()] *)
Definition go (g : Goroutine) : M unit :=
  modify (λ w, with_live (live w ++ [g]) w);;
  yield.

(** A blocking call of [Main]: the others run until the call can return. *)
Fixpoint await_for {A} (fuel : nat) (poll : M (option A)) : M A :=
  r ← poll;
  match r with
  | Some a => mret a
  | None =>
      match fuel with
      | O => stuck
      | S fuel => yield;; await_for fuel poll
      end
  end.

Definition await {A} (poll : M (option A)) : M A :=
  l ← gets sched;
  await_for (length l) poll.

(** [wg.Wait()] *)
Definition wg_Wait : M unit :=
  await (c ← gets wg; mret (if decide (c = 0%Z) then Some () else None)).

Definition startApiServer : M unit :=
  srv ← gets (λ w, apiServer (this w));
  srv ← deref srv;
  err ← invoke apiServer_Start (httpway.Start srv);
  report err;;
  srv ← gets (λ w, apiServer (this w));
  srv ← deref srv;
  err ← await (call (httpway.WaitStop srv (seconds 2)));
  record_event (Called apiServer_WaitStop err);;
  report err.

(** [func (h *Hammer) Run() error] *)
Definition Run : M (option error) :=
  modify (with_wg 0);;
  log_Print "INFO: Starting error channel reader.";;
  wg_Add 1;;
  go ErrorReader;;
  log_Print "INFO: Starting stats.";;
  wg_Add 1;;
  go StatsRun;;
  log_Print "INFO: Starting writer.";;
  wg_Add 1;;
  go WriterRun;;
  log_Print "INFO: Starting handler.";;
  wg_Add 1;;
  go HandlerRun;;
  log_Print "INFO: Starting listener.";;
  wg_Add 1;;
  go ListenerRun;;
  log_Print "INFO: Starting log channel reader.";;
  wg_Add 1;;
  go LogReader;;
  log_Print "INFO: Starting stats channel reader.";;
  wg_Add 1;;
  go StatsReader;;
  log_Print "INFO: Starting generator.";;
  wg_Add 1;;
  go GeneratorRun;;
  log_Print "INFO: Starting API server.";;
  startApiServer;;
  log_Print "INFO: Stopped API server.";;
  wg_Wait;;
  mret None.

End Orchestrator.
Arguments Hammer : clear implicits.
Arguments World : clear implicits.
Arguments Call : clear implicits.
Arguments Event : clear implicits.
Arguments M : clear implicits.

End hammer.

(** ** Test doubles

    Scripted collaborators, in the manner of the fakes of the end-to-end
    scenarios: a method fails when its name is listed in [failing], a loop
    returns once its [Stop] was called, the generator also when its workload
    is used up. *)
Module fake.

Record State := {
  failing : list string;
  stopped : list string;
  workload : nat;
  updates : list Details;
  rendered : string;
}.

Definition outcome (name : string) (st : State) : option error :=
  if decide (name ∈ failing st) then Some (name +:+ " failed") else None.

Definition stop_loop (name : string) (st : State) : State :=
  {| failing := failing st; stopped := name :: stopped st;
     workload := workload st; updates := updates st; rendered := rendered st |}.

Definition fails (name : string) : State → Act (option error * State) :=
  λ st, Done (outcome name st, st).

Definition stops (loop name : string) : State → Act (option error * State) :=
  λ st, Emit AddLog (loop +:+ " stopping")
          (λ _, Done (outcome name st, stop_loop loop st)).

Definition runs (loop : string) : State → Act (bool * State) :=
  λ st, Done (bool_decide (loop ∈ stopped st), st).

Definition Statistics : stats.Stats State :=
  {| stats.AddStat := λ _ st, Done (true, st);
     stats.Init := fails "stats.Init";
     stats.Run := runs "stats";
     stats.String := λ st, Done (rendered st, st);
     stats.Stop := λ st, Emit AddStats "final tick"
                           (λ _, Done (outcome "stats.Stop" st, stop_loop "stats" st));
     stats.DeInit := fails "stats.DeInit" |}.

Definition Transport : socketeer.RawSocketeer State :=
  {| socketeer.Init := fails "socketeer.Init";
     socketeer.SetReceiver := λ _ st, Done ((), st);
     socketeer.RunListener := runs "listener";
     socketeer.RunWriter := runs "writer";
     socketeer.StopListener := stops "listener" "socketeer.StopListener";
     socketeer.StopWriter := stops "writer" "socketeer.StopWriter";
     socketeer.DeInit := fails "socketeer.DeInit" |}.

Definition Responder : handler.Handler State :=
  {| handler.Init := fails "handler.Init";
     handler.ReceiveMessage := λ _ st, Done ((), st);
     handler.Run := runs "handler";
     handler.Stop := stops "handler" "handler.Stop";
     handler.DeInit := fails "handler.DeInit" |}.

Definition Source : generator.Generator State :=
  {| generator.Init := fails "generator.Init";
     generator.Run := λ st,
       match workload st with
       | O => Done (true, st)
       | S n =>
           if decide ("generator" ∈ stopped st) then Done (true, st)
           else Done (false, {| failing := failing st; stopped := stopped st;
                                 workload := n; updates := updates st;
                                 rendered := rendered st |})
       end;
     generator.Update := λ d st,
       Done (outcome "generator.Update" st,
             {| failing := failing st; stopped := stopped st;
                workload := workload st; updates := updates st ++ [d];
                rendered := rendered st |});
     generator.Stop := λ st,
       match outcome "generator.Stop" st with
       | Some e => Emit AddError "generator would not stop" (λ _, Done (Some e, st))
       | None => Done (None, stop_loop "generator" st)
       end;
     generator.DeInit := fails "generator.DeInit" |}.

Definition Api : httpway.Server State :=
  {| httpway.Start := fails "apiServer.Start";
     httpway.WaitStop := λ _ st,
       Done (if decide ("api" ∈ stopped st)
             then Some (outcome "apiServer.WaitStop" st) else None, st);
     httpway.Stop := λ st, Done (outcome "apiServer.Stop" st, stop_loop "api" st);
     httpway.Handler := [];
     httpway.Addr := "" |}.

Definition NewRawSocketeer (o : config.SocketeerOptions) (logFunc errFunc : Sender)
  : State → Act (socketeer.RawSocketeer State * State) :=
  λ st, Done (Transport, st).

Definition NewHandler (sk : option (socketeer.RawSocketeer State))
    (o : config.HammerConfig) (logFunc errFunc : Sender)
    (statFunc : stats.StatValue → State → Act (bool * State))
  : State → Act ((option (handler.Handler State) * option error) * State) :=
  λ st, match outcome "handler.New" st with
        | Some e => Done ((None, Some e), st)
        | None => Done ((Some Responder, None), st)
        end.

Definition NewGenerator (sk : option (socketeer.RawSocketeer State))
    (o : config.HammerConfig) (logFunc errFunc : Sender)
    (statFunc : stats.StatValue → State → Act (bool * State))
  : State → Act ((option (generator.Generator State) * option error) * State) :=
  λ st, match outcome "generator.New" st with
        | Some e => Done ((None, Some e), st)
        | None => Done ((Some Source, None), st)
        end.

Definition NewServer : State → Act (httpway.Server State * State) :=
  λ st, Done (Api, st).

(** A parser that knows two bodies. *)
Definition Unmarshal (body : string) : Details + error :=
  if decide (body = "{}") then inl ∅
  else if decide (body = "{rate: 100}") then inl {[ "rate" := JNumber "100" ]}
  else inr "invalid character".

Definition directive (rest : string) : string * string :=
  match rest with
  | EmptyString => ("", "")
  | String c rest' => ("%!" +:+ String c "(MISSING)", rest')
  end.

Definition script (failures : list string) (n : nat) (text : string) : State :=
  {| failing := failures; stopped := []; workload := n; updates := [];
     rendered := text |}.

Definition registry : gmap string (stats.Statter State) :=
  (stats.AddStatter "dhcpv4" (λ _, Some Statistics) ∅).2.

Definition cfg : config.HammerConfig := {| config.HammerType := "dhcpv4" |}.
Definition opts : config.SocketeerOptions := config.Build_SocketeerOptions.

(** A new orchestrator over the doubles, before [Init]. *)
Definition fresh (failures : list string) (n : nat) (text : string)
  : hammer.World State :=
  hammer.boot opts cfg (script failures n text) registry.

Definition Init := hammer.Init NewRawSocketeer NewHandler NewGenerator NewServer.
Definition stop : hammer.M State unit := hammer.stop.
Definition Run := hammer.Run (Env := State).

(** The world [Init] leaves behind (the world it started in, had it
    panicked). *)
Definition ready (failures : list string) (n : nat) (text : string)
  : hammer.World State :=
  (Init "127.0.0.1" 8080 (fresh failures n text)).2.

(** The same doubles with loops that have nothing to do: they return as
    soon as they are polled. *)
Definition at_once : State → Act (bool * State) := λ st, Done (true, st).

Definition idle (h : hammer.Hammer State) : hammer.Hammer State :=
  hammer.set_stats (Some
    {| stats.AddStat := stats.AddStat Statistics; stats.Init := stats.Init Statistics;
       stats.Run := at_once; stats.String := stats.String Statistics;
       stats.Stop := stats.Stop Statistics; stats.DeInit := stats.DeInit Statistics |})
  (hammer.set_socketeer (Some
    {| socketeer.Init := socketeer.Init Transport;
       socketeer.SetReceiver := socketeer.SetReceiver Transport;
       socketeer.RunListener := at_once; socketeer.RunWriter := at_once;
       socketeer.StopListener := socketeer.StopListener Transport;
       socketeer.StopWriter := socketeer.StopWriter Transport;
       socketeer.DeInit := socketeer.DeInit Transport |})
  (hammer.set_handler (Some
    {| handler.Init := handler.Init Responder;
       handler.ReceiveMessage := handler.ReceiveMessage Responder;
       handler.Run := at_once; handler.Stop := handler.Stop Responder;
       handler.DeInit := handler.DeInit Responder |})
  (hammer.set_generator (Some
    {| generator.Init := generator.Init Source; generator.Run := at_once;
       generator.Update := generator.Update Source;
       generator.Stop := generator.Stop Source;
       generator.DeInit := generator.DeInit Source |})
  (hammer.set_apiServer (Some
    {| httpway.Start := httpway.Start Api;
       httpway.WaitStop := λ _ st, Done (Some (outcome "apiServer.WaitStop" st), st);
       httpway.Stop := httpway.Stop Api;
       httpway.Handler := []; httpway.Addr := "" |}) h)))).

End fake.

(** ** Vocabulary of the statements *)
Module spec.
Import hammer.
Section Vocabulary.

Context {Env : Type}.
Implicit Types (w : World Env) (evs : list (Event Env)).

(** The channel is the same one, open or closed as before, and holds what
    it held, possibly followed by more, within its capacity if it was. *)
Definition grown {A} (c c' : chan A) : Prop :=
  closed c' = closed c ∧ cap c' = cap c ∧ buf c `prefix_of` buf c' ∧
  (length (buf c) ≤ cap c → length (buf c') ≤ cap c').

(** No channel holds more than its capacity. *)
Definition bounded w : Prop :=
  length (buf (logChannel (this w))) ≤ cap (logChannel (this w)) ∧
  length (buf (statsChannel (this w))) ≤ cap (statsChannel (this w)) ∧
  length (buf (errorChannel (this w))) ≤ cap (errorChannel (this w)).

Definition channels_open w : Prop :=
  closed (logChannel (this w)) = false ∧
  closed (statsChannel (this w)) = false ∧
  closed (errorChannel (this w)) = false.

(** The channel behind a sender. *)
Definition fanin (via : Sender) (h : Hammer Env) : chan string :=
  match via with
  | AddLog => logChannel h
  | AddStats => statsChannel h
  | AddError => errorChannel h
  end.

Definition set_fanin (via : Sender) (c : chan string) : Hammer Env → Hammer Env :=
  match via with
  | AddLog => set_logChannel c
  | AddStats => set_statsChannel c
  | AddError => set_errorChannel c
  end.

(** The sender of that name, as the source declares it. *)
Definition sender (via : Sender) : string → M Env bool :=
  match via with
  | AddLog => addLog
  | AddStats => addStats
  | AddError => addError
  end.

(** [Init] has stored all four subsystems and the API server. *)
Definition wired w : Prop :=
  is_Some (stats (this w)) ∧ is_Some (socketeer (this w)) ∧
  is_Some (handler (this w)) ∧ is_Some (generator (this w)) ∧
  is_Some (apiServer (this w)).

(** [w'] is [w] after goroutine-local code that called collaborators and
    sent on the channels: the history has grown by [evs], the channels
    have grown, and nothing else of the orchestrator has changed. *)
Record frame w w' evs : Prop := {
  frame_trace : trace w' = trace w ++ evs;
  frame_log : grown (logChannel (this w)) (logChannel (this w'));
  frame_stats : grown (statsChannel (this w)) (statsChannel (this w'));
  frame_error : grown (errorChannel (this w)) (errorChannel (this w'));
  frame_options : options (this w') = options (this w);
  frame_socketeerOptions : socketeerOptions (this w') = socketeerOptions (this w);
  frame_handler : handler (this w') = handler (this w);
  frame_generator : generator (this w') = generator (this w);
  frame_stats_handle : stats (this w') = stats (this w);
  frame_socketeer : socketeer (this w') = socketeer (this w);
  frame_apiServer : apiServer (this w') = apiServer (this w);
  frame_statters : statters w' = statters w;
  frame_logFlags : logFlags w' = logFlags w;
  frame_wg : wg w' = wg w;
  frame_live : live w' = live w;
  frame_sched : sched w' = sched w;
}.

(** The weaker relation that [Init] keeps, which stores what it constructs:
    the history has grown by [evs] and the channels have grown. *)
Record after w w' evs : Prop := {
  after_trace : trace w' = trace w ++ evs;
  after_log : grown (logChannel (this w)) (logChannel (this w'));
  after_stats : grown (statsChannel (this w)) (statsChannel (this w'));
  after_error : grown (errorChannel (this w)) (errorChannel (this w'));
  after_wg : wg w' = wg w;
  after_live : live w' = live w;
  after_sched : sched w' = sched w;
}.

(** The handles are the same and the channels have grown. *)
Record kept w w' : Prop := {
  kept_log : grown (logChannel (this w)) (logChannel (this w'));
  kept_stats : grown (statsChannel (this w)) (statsChannel (this w'));
  kept_error : grown (errorChannel (this w)) (errorChannel (this w'));
  kept_handler : handler (this w') = handler (this w);
  kept_generator : generator (this w') = generator (this w);
  kept_stats_handle : stats (this w') = stats (this w);
  kept_socketeer : socketeer (this w') = socketeer (this w);
  kept_apiServer : apiServer (this w') = apiServer (this w);
}.

(** A polled call that returns at the first poll, with a result in [P],
    whatever the private state. *)
Definition returns_at_once {R} (P : R → Prop) (m : Env → Act (R * Env)) : Prop :=
  ∀ e, ends (λ r, P r.1) (m e).

(** The orchestrator is initialized and none of its loops lingers: the five
    [Run] loops return when polled, and so does [WaitStop]. *)
Definition prompt w : Prop :=
  match stats (this w), socketeer (this w), handler (this w),
        generator (this w), apiServer (this w) with
  | Some s, Some sk, Some hd, Some g, Some srv =>
      returns_at_once (λ r, r = true) (stats.Run s) ∧
      returns_at_once (λ r, r = true) (socketeer.RunWriter sk) ∧
      returns_at_once (λ r, r = true) (handler.Run hd) ∧
      returns_at_once (λ r, r = true) (socketeer.RunListener sk) ∧
      returns_at_once (λ r, r = true) (generator.Run g) ∧
      returns_at_once is_Some (httpway.WaitStop srv (seconds 2))
  | _, _, _, _, _ => False
  end.

(** A schedule under which [Run] ends: [Main] starts the eight goroutines
    and the API server without being preempted; while it waits, the four
    loops end, then the generator, whose goroutine makes the cascade; then
    each reader gets as many quanta as its channel can hold messages, and
    one to see the channel closed. *)
Definition orderly_schedule w : list Thread :=
  repeat Main 8 ++
  [Go StatsRun; Go WriterRun; Go HandlerRun; Go ListenerRun; Go GeneratorRun] ++
  repeat (Go ErrorReader) (S (cap (errorChannel (this w)))) ++
  repeat (Go LogReader) (S (cap (logChannel (this w)))) ++
  repeat (Go StatsReader) (S (cap (statsChannel (this w)))) ++
  [Main].

(** The history of a run of best-effort steps: every step of [cs] was
    called, in order; a step that failed is followed at once by the
    orchestrator's [addError] of that error, which the error channel took
    ([sent]: it is in [B], the channel's later content) unless it was at
    capacity [n]; a step that succeeded is followed by nothing. *)
Inductive best_effort (B : list error) (n : nat)
  : list (Call Env) → list (Event Env) → Prop :=
| best_effort_nil : best_effort B n [] []
| best_effort_ok c cs evs :
    best_effort B n cs evs →
    best_effort B n (c :: cs) (Called c None :: evs)
| best_effort_failed c cs e sent evs :
    (if sent : bool then e ∈ B else n ≤ length B) →
    best_effort B n cs evs →
    best_effort B n (c :: cs) (Called c (Some e) :: Forwarded e sent :: evs).

(** [w'] is [w] with the three channels closed, in the order error, log,
    stats, and nothing else changed. *)
Record shut w w' : Prop := {
  shut_trace :
    trace w' = trace w ++ [Closed errorChannel_; Closed logChannel_; Closed statsChannel_];
  shut_log :
    logChannel (this w') = Chan (buf (logChannel (this w))) (cap (logChannel (this w))) true;
  shut_stats :
    statsChannel (this w')
    = Chan (buf (statsChannel (this w))) (cap (statsChannel (this w))) true;
  shut_error :
    errorChannel (this w')
    = Chan (buf (errorChannel (this w))) (cap (errorChannel (this w))) true;
  shut_handler : handler (this w') = handler (this w);
  shut_generator : generator (this w') = generator (this w);
  shut_stats_handle : stats (this w') = stats (this w);
  shut_socketeer : socketeer (this w') = socketeer (this w);
  shut_apiServer : apiServer (this w') = apiServer (this w);
  shut_env : env w' = env w;
  shut_stdlog : stdlog w' = stdlog w;
  shut_wg : wg w' = wg w;
  shut_live : live w' = live w;
  shut_sched : sched w' = sched w;
}.

(** Steps 1 to 6 of the cascade, as [stop] and [deInit] make them. *)
Definition teardown_steps : list (Call Env) :=
  [apiServer_Stop; socketeer_StopListener; handler_Stop; socketeer_StopWriter;
   stats_Stop;
   socketeer_DeInit; handler_DeInit; generator_DeInit; stats_DeInit].

(** The history of a startup: the steps of [cs] were called in order and
    succeeded, up to the end ([None]) or up to the first failure, whose
    error is the result and after which nothing was called. *)
Inductive fail_fast : list (Call Env) → list (Event Env) → option error → Prop :=
| fail_fast_done : fail_fast [] [] None
| fail_fast_next c cs evs r :
    fail_fast cs evs r →
    fail_fast (c :: cs) (Called c None :: evs) r
| fail_fast_failed c cs e :
    fail_fast (c :: cs) [Called c (Some e)] (Some e).

(** The construction and [Init] steps, as [Init] makes them. *)
Definition startup_steps (receiver : string → Env → Act (unit * Env))
  : list (Call Env) :=
  [stats_New; stats_Init;
   socketeer_NewRawSocketeer; socketeer_Init;
   handler_New; handler_Init;
   socketeer_SetReceiver receiver;
   generator_New; generator_Init;
   httpway_NewServer].

(** The receiver [Init] binds: [h.handler.ReceiveMessage]. *)
Definition bound_receiver w : string → Env → Act (unit * Env) :=
  match handler (this w) with
  | Some hd => handler.ReceiveMessage hd
  | None => λ _ e, Done ((), e)
  end.

(** The constructors that return an interface value, which can be nil. *)
Definition constructs (c : Call Env) : bool :=
  match c with
  | stats_New | handler_New | generator_New => true
  | _ => false
  end.

(** What [Init] leaves, started in [w]: the history has grown by a
    fail-fast run of the startup steps, whose result [Init] returns; a
    subsystem whose [Init] succeeded is stored in [h]; when all succeeded
    everything is stored.  [Init] panics only when a constructor returned
    neither an object nor an error: all steps up to that constructor
    succeeded and none was made after it.  It never blocks. *)
Definition Init_post w (res : Res (option error)) w' : Prop :=
  ∃ evs,
    after w w' evs ∧
    (Called stats_Init None ∈ evs → is_Some (stats (this w'))) ∧
    (Called socketeer_Init None ∈ evs → is_Some (socketeer (this w'))) ∧
    (Called handler_Init None ∈ evs → is_Some (handler (this w'))) ∧
    match res with
    | Ok r =>
        fail_fast (startup_steps (bound_receiver w')) evs r ∧
        (r = None → wired w')
    | Panic _ =>
        ∃ cs c cs',
          startup_steps (bound_receiver w') = cs ++ c :: cs' ∧
          evs = (λ c, Called c None) <$> (cs ++ [c]) ∧
          constructs c = true
    | Stuck => False
    end.

(** The calls that stop or release something. *)
Definition tears_down (c : Call Env) : bool :=
  match c with
  | stats_Stop | stats_DeInit
  | socketeer_StopListener | socketeer_StopWriter | socketeer_DeInit
  | handler_Stop | handler_DeInit
  | generator_Stop | generator_DeInit
  | apiServer_Stop => true
  | _ => false
  end.

(** The calls that start a loop. *)
Definition starts_loop (c : Call Env) : bool :=
  match c with
  | stats_Run | socketeer_RunListener | socketeer_RunWriter | handler_Run
  | generator_Run | apiServer_Start | apiServer_WaitStop => true
  | _ => false
  end.

(** The cascades begun in a history: the calls of [apiServer.Stop], the
    first step of [stop]. *)
Fixpoint cascades evs : nat :=
  match evs with
  | [] => 0
  | Called apiServer_Stop _ :: evs => S (cascades evs)
  | _ :: evs => cascades evs
  end.

(** Nothing was begun and nothing ended that bears on the cascade: as many
    cascades in the history, and the generator's goroutine running or not as
    before. *)
Definition same_phase w w' : Prop :=
  cascades (trace w') = cascades (trace w) ∧
  (GeneratorRun ∈ live w' ↔ GeneratorRun ∈ live w).

(** Code that, however it ends, leaves the phase as it was. *)
Definition stutters {A} (m : M Env A) : Prop := ∀ w, same_phase w (m w).2.

(** Code that begins at most one cascade, and one if it returns. *)
Definition begins_cascade {A} (m : M Env A) : Prop :=
  ∀ w,
    (GeneratorRun ∈ live (m w).2 ↔ GeneratorRun ∈ live w) ∧
    cascades (trace (m w).2) ≤ S (cascades (trace w)) ∧
    ((∃ a, (m w).1 = Ok a) → cascades (trace (m w).2) = S (cascades (trace w))).

(** From a world in [P], the code returns in a world in [Q], or ends
    otherwise (panic, or blocked for good) in a world in [R]. *)
Definition triple {A} (P : World Env → Prop) (m : M Env A)
    (Q R : World Env → Prop) : Prop :=
  ∀ w, P w → match (m w).1 with Ok _ => Q (m w).2 | _ => R (m w).2 end.

(** No cascade yet, and the generator's goroutine not started. *)
Definition unstarted w : Prop :=
  cascades (trace w) = 0 ∧ GeneratorRun ∉ live w.

(** No cascade yet, or one, made by the generator's goroutine, which has
    exited. *)
Definition once w : Prop :=
  cascades (trace w) = 0 ∨ (cascades (trace w) = 1 ∧ GeneratorRun ∉ live w).

Definition at_most_once w : Prop := cascades (trace w) ≤ 1.

(** The characters of a string. *)
Fixpoint chars (s : string) : list ascii :=
  match s with
  | EmptyString => []
  | String c s => c :: chars s
  end.

(** The channels closed in a history, in the order of closing. *)
Fixpoint closes evs : list Channel :=
  match evs with
  | [] => []
  | Closed c :: evs => c :: closes evs
  | _ :: evs => closes evs
  end.

(** The collaborator calls of a history, in order. *)
Fixpoint calls evs : list (Call Env) :=
  match evs with
  | [] => []
  | Called c _ :: evs => c :: calls evs
  | _ :: evs => calls evs
  end.

(** *** Vocabulary of the further properties *)

(** Sends through one sender, one after the other, with what each
    returned. *)
Fixpoint send_all (via : Sender) (msgs : list string) : M Env (list bool) :=
  match msgs with
  | [] => mret []
  | msg :: msgs =>
      sent ← sender via msg;
      rest ← send_all via msgs;
      mret (sent :: rest)
  end.

(** The goroutine of [Run] that reads the channel behind a sender, the
    line it logs for a message, and the line it logs when the range ends. *)
Definition reader (via : Sender) : Goroutine :=
  match via with
  | AddLog => LogReader
  | AddStats => StatsReader
  | AddError => ErrorReader
  end.

Definition logged (via : Sender) (msg : string) : string :=
  match via with
  | AddLog => "INFO: " +:+ msg
  | AddStats => msg
  | AddError => "ERROR: " +:+ msg
  end.

Definition reader_stopped (via : Sender) : string :=
  match via with
  | AddLog => "INFO: Stopped log channel reader."
  | AddStats => "INFO: Stopped stats channel reader."
  | AddError => "INFO: Stopped error channel reader."
  end.

(** What [n] quanta of a reader leave, the first [n] messages read. *)
Definition read_from (via : Sender) (n : nat) w : World Env :=
  let c := fanin via (this w) in
  with_stdlog (stdlog w ++ (logged via <$> take n (buf c)))
    (with_this (set_fanin via (Chan (drop n (buf c)) (cap c) (closed c))) w).

(** Closed, and everything it held has been received. *)
Definition drained {A} (c : chan A) : Prop := closed c = true ∧ buf c = [].

(** A closed channel is still closed, and a drained one still drained. *)
Definition settled {A} (c c' : chan A) : Prop :=
  (closed c = true → closed c' = true) ∧ (drained c → drained c').

(** The loop whose return a call in the history stands for. *)
Definition loops (g : Goroutine) (c : Call Env) : bool :=
  match c with
  | stats_Run => bool_decide (g = StatsRun)
  | socketeer_RunWriter => bool_decide (g = WriterRun)
  | handler_Run => bool_decide (g = HandlerRun)
  | socketeer_RunListener => bool_decide (g = ListenerRun)
  | generator_Run => bool_decide (g = GeneratorRun)
  | _ => false
  end.

(** How often the loop of goroutine [g] has returned in a history. *)
Fixpoint loop_returns (g : Goroutine) evs : nat :=
  match evs with
  | [] => 0
  | Called c _ :: evs => (if loops g c then 1 else 0) + loop_returns g evs
  | _ :: evs => loop_returns g evs
  end.

(** The goroutines that run a loop of a subsystem; the other three read a
    channel. *)
Definition is_loop (g : Goroutine) : bool :=
  match g with
  | StatsRun | WriterRun | HandlerRun | ListenerRun | GeneratorRun => true
  | _ => false
  end.

(** [w'] is [w] after code that began [n] cascades, closed the channels
    [cl], in that order, and saw the loop of [r] return, if any; that
    started and ended no goroutine and left the wait group alone. *)
Record calm_by (n : nat) (cl : list Channel) (r : option Goroutine) w w' : Prop := {
  calm_cascades : cascades (trace w') = cascades (trace w) + n;
  calm_closes : closes (trace w') = closes (trace w) ++ cl;
  calm_returned :
    ∀ g, loop_returns g (trace w')
         = loop_returns g (trace w) + (if decide (r = Some g) then 1 else 0);
  calm_wg : wg w' = wg w;
  calm_live : live w' = live w;
  calm_log : settled (logChannel (this w)) (logChannel (this w'));
  calm_stats : settled (statsChannel (this w)) (statsChannel (this w'));
  calm_error : settled (errorChannel (this w)) (errorChannel (this w'));
}.

Definition calm w w' : Prop := calm_by 0 [] None w w'.

(** Code that, however it ends, begins no cascade, closes no channel and
    touches neither the goroutines nor the wait group. *)
Definition calms {A} (m : M Env A) : Prop := ∀ w, calm w (m w).2.

(** What the body of goroutine [g] does to the history before it calls
    [wg.Done]: the generator's makes the cascade, a loop's records the
    return of the loop, a reader's nothing. *)
Definition by_body (g : Goroutine) w0 w : Prop :=
  calm_by (if decide (g = GeneratorRun) then 1 else 0)
    (if decide (g = GeneratorRun)
     then [errorChannel_; logChannel_; statsChannel_] else [])
    (if is_loop g then Some g else None) w0 w.

(** What the end of a goroutine tells: a reader ends only on a channel
    that is closed and drained. *)
Definition ended_reader (g : Goroutine) w : Prop :=
  match g with
  | ErrorReader => drained (errorChannel (this w))
  | LogReader => drained (logChannel (this w))
  | StatsReader => drained (statsChannel (this w))
  | _ => True
  end.

(** The state of a [Run] that has started the goroutines [G], in a history
    that had [n] cascades, the closes [cl] and the loop returns [rs] when it
    began: the wait group counts the goroutines that have not returned; a
    reader that has returned left its channel closed and drained; the cascade
    was made, once, exactly when the generator's goroutine has returned; a
    loop has returned, once, exactly when its goroutine has. *)
Record running (G : list Goroutine) (n : nat) (cl : list Channel)
    (rs : Goroutine → nat) w : Prop := {
  running_wg : wg w = Z.of_nat (length (live w));
  running_NoDup : NoDup (live w);
  running_started : ∀ g, g ∈ live w → g ∈ G;
  running_ended : ∀ g, g ∈ G → g ∉ live w → ended_reader g w;
  running_cascade :
    if decide (GeneratorRun ∈ G ∧ GeneratorRun ∉ live w)
    then cascades (trace w) = S n ∧
         closes (trace w) = cl ++ [errorChannel_; logChannel_; statsChannel_]
    else cascades (trace w) = n ∧ closes (trace w) = cl;
  running_returned :
    ∀ g, loop_returns g (trace w)
         = rs g + (if decide (is_loop g = true ∧ g ∈ G ∧ g ∉ live w) then 1 else 0);
}.

(** Goroutine-local code that never waits: it returns or panics. *)
Definition never_blocks {A} (m : M Env A) : Prop := ∀ w, (m w).1 ≠ Stuck.

End Vocabulary.
End spec.

(** * Properties *)

Import hammer spec.

(** ** The statistics registry *)
Section RegistryFacts.

Context {Env : Type}.
Implicit Types (reg : gmap string (stats.Statter Env)) (f : stats.Statter Env).

Lemma AddStatter_taken s f reg :
  is_Some (reg !! s) →
  stats.AddStatter s f reg = (Some ("Stats type already exists: " +:+ s), reg).
Proof. intros [g Hg]. unfold stats.AddStatter. by rewrite Hg. Qed.

Lemma AddStatter_fresh s f reg :
  reg !! s = None → stats.AddStatter s f reg = (None, <[s := f]> reg).
Proof. intros Hs. unfold stats.AddStatter. by rewrite Hs. Qed.

Lemma New_registered o logFunc errFunc reg f :
  reg !! config.HammerType o = Some f →
  stats.New o logFunc errFunc reg =
    (f {| stats.options := o; stats.logFunc := logFunc; stats.errFunc := errFunc |},
     None).
Proof. intros Hf. unfold stats.New, stats.Statter in *. by rewrite Hf. Qed.

(** C7. Registering under a name that already has a factory returns the
    duplicate-type error and leaves the registry as it was; registering
    under a fresh name returns no error and stores the factory; and after
    a first registration a second one under the same name changes nothing:
    lookups, and so [stats.New], still get the first factory. *)
Theorem AddStatter_registers s f reg :
  (is_Some (reg !! s) →
     stats.AddStatter s f reg
     = (Some (errors_New ("Stats type already exists: " +:+ s)), reg)) ∧
  (reg !! s = None →
     stats.AddStatter s f reg = (None, <[s := f]> reg) ∧
     (stats.AddStatter s f reg).2 !! s = Some f ∧
     ∀ f' o logFunc errFunc,
       let reg1 := (stats.AddStatter s f reg).2 in
       stats.AddStatter s f' reg1
       = (Some (errors_New ("Stats type already exists: " +:+ s)), reg1) ∧
       (config.HammerType o = s →
          stats.New o logFunc errFunc (stats.AddStatter s f' reg1).2
          = (f {| stats.options := o; stats.logFunc := logFunc;
                  stats.errFunc := errFunc |}, None))).
Proof.
  split; [apply AddStatter_taken|].
  intros Hs. rewrite (AddStatter_fresh _ _ _ Hs). cbn [snd].
  assert (Hin : (<[s := f]> reg) !! s = Some f) by apply lookup_insert_eq.
  split_and!; [done..|].
  intros f' o logFunc errFunc. cbv zeta.
  rewrite AddStatter_taken by (by rewrite Hin). cbn [snd].
  split; [done|]. intros <-. by apply New_registered.
Qed.

End RegistryFacts.

Lemma AddStatter_registers_witness :
  stats.AddStatter "dhcpv4" (λ _, Some fake.Statistics) fake.registry
  = (Some "Stats type already exists: dhcpv4", fake.registry) ∧
  stats.AddStatter "dhcpv6" (λ _, None) fake.registry
  = (None, <["dhcpv6" := λ _, None]> fake.registry).
Proof.
  split.
  - refine (proj1 (AddStatter_registers "dhcpv4" _ fake.registry) _).
    eexists. vm_compute. reflexivity.
  - refine (proj1 (proj2 (AddStatter_registers "dhcpv6" _ fake.registry) _)).
    vm_compute. reflexivity.
Defined.

(** ** The monad *)
Section MonadFacts.

Context {Env : Type}.
Implicit Types (w : World Env).

Lemma bind_ok {A B} (m : M Env A) (f : A → M Env B) w a w1 :
  m w = (Ok a, w1) → (m ≫= f) w = f a w1.
Proof. intros Hm. unfold mbind, M_bind, bind. by rewrite Hm. Qed.

Lemma bind_panic {A B} (m : M Env A) (f : A → M Env B) w msg w1 :
  m w = (Panic msg, w1) → (m ≫= f) w = (Panic msg, w1).
Proof. intros Hm. unfold mbind, M_bind, bind. by rewrite Hm. Qed.

Lemma bind_stuck {A B} (m : M Env A) (f : A → M Env B) w w1 :
  m w = (Stuck, w1) → (m ≫= f) w = (Stuck, w1).
Proof. intros Hm. unfold mbind, M_bind, bind. by rewrite Hm. Qed.

Lemma bind_inv {A B} (m : M Env A) (f : A → M Env B) w b w' :
  (m ≫= f) w = (Ok b, w') → ∃ a w1, m w = (Ok a, w1) ∧ f a w1 = (Ok b, w').
Proof.
  unfold mbind, M_bind, bind. destruct (m w) as [[a|msg|] w1]; [eauto|done..].
Qed.

Lemma gets_bind {A B} (f : World Env → A) (k : A → M Env B) w :
  (gets f ≫= k) w = k (f w) w.
Proof. reflexivity. Qed.

Lemma modify_bind {B} (f : World Env → World Env) (k : unit → M Env B) w :
  (modify f ≫= k) w = k () (f w).
Proof. reflexivity. Qed.

Lemma ret_bind {A B} (a : A) (k : A → M Env B) w : (mret a ≫= k) w = k a w.
Proof. reflexivity. Qed.

Lemma bind_assoc {A B C} (m : M Env A) (f : A → M Env B) (k : B → M Env C) w :
  ((m ≫= f) ≫= k) w = (m ≫= λ x, f x ≫= k) w.
Proof.
  unfold mbind, M_bind, bind. by destruct (m w) as [[a|msg|] w1].
Qed.

Lemma ret_inv {A} (a b : A) w w' :
  (mret a : M Env A) w = (Ok b, w') → a = b ∧ w = w'.
Proof. unfold mret, M_ret, ret. by intros [= -> ->]. Qed.

End MonadFacts.

(** ** The fan-in senders *)
Section SenderFacts.

Context {Env : Type}.
Implicit Types (w : World Env).

Lemma send_sender via msg : send via msg = sender (Env := Env) via msg.
Proof. by destruct via. Qed.

Lemma sender_unfold via msg w :
  sender via msg w =
    match select_send (fanin via (this w)) msg with
    | Ok (true, c') => (Ok true, with_this (set_fanin via c') w)
    | Ok (false, _) => (Ok false, w)
    | Panic m => (Panic m, w)
    | Stuck => (Stuck, w)
    end.
Proof.
  destruct via; cbn [sender fanin set_fanin];
    unfold addLog, addStats, addError, mbind, M_bind, bind, gets, error;
    cbn beta iota;
    destruct (select_send _ msg) as [[[] c']| |]; reflexivity.
Qed.

Lemma sender_closed via msg w :
  closed (fanin via (this w)) = true →
  sender via msg w = (Panic "send on closed channel", w).
Proof. intros Hc. rewrite sender_unfold. unfold select_send. by rewrite Hc. Qed.

(** A send on a channel that has not been closed. *)
Lemma sender_not_closed via msg w :
  closed (fanin via (this w)) = false →
  let c := fanin via (this w) in
  sender via msg w =
    if decide (cap c ≤ length (buf c)) then (Ok false, w)
    else (Ok true, with_this (set_fanin via (Chan (buf c ++ [msg]) (cap c) false)) w).
Proof.
  intros Hc. cbv zeta. rewrite sender_unfold. unfold select_send. rewrite Hc.
  repeat case_decide; done || lia.
Qed.

(** C5, amended. On a fan-in channel that has not been closed, the send
    ([addLog], [addStats], [addError]) returns at once: at capacity it
    returns false and changes nothing; below capacity it returns true and
    the message is the new last element of the channel, nothing else
    having changed. *)
Theorem sender_open via msg w :
  closed (fanin via (this w)) = false →
  let c := fanin via (this w) in
  sender via msg w =
    if decide (cap c ≤ length (buf c)) then (Ok false, w)
    else (Ok true, with_this (set_fanin via (Chan (buf c ++ [msg]) (cap c) false)) w).
Proof.
  intros Hc c. rewrite sender_unfold. unfold select_send. rewrite Hc. subst c.
  destruct (decide (length (buf (fanin via (this w))) < cap (fanin via (this w))));
    case_decide; done || lia.
Qed.

End SenderFacts.

Lemma sender_open_witness :
  addError "socket lost" (fake.fresh [] 0 "")
  = (Ok true,
     with_this (set_errorChannel (Chan ["socket lost"] 1000 false)) (fake.fresh [] 0 "")) ∧
  addLog "hello"
    (with_this (set_logChannel (Chan ["a"; "b"] 2 false)) (fake.fresh [] 0 ""))
  = (Ok false,
     with_this (set_logChannel (Chan ["a"; "b"] 2 false)) (fake.fresh [] 0 "")).
Proof.
  split.
  - exact (sender_open AddError "socket lost" (fake.fresh [] 0 "") eq_refl).
  - exact (sender_open AddLog "hello"
             (with_this (set_logChannel (Chan ["a"; "b"] 2 false)) (fake.fresh [] 0 ""))
             eq_refl).
Defined.

(** C5 as stated fails on a channel that was closed: the error channel
    below is empty, far from its capacity, and [addError] neither appends
    nor returns true; it panics. *)
Lemma sender_closed_panics :
  let w := with_this (set_errorChannel (Chan [] 1000 true)) (fake.fresh [] 0 "") in
  let c := errorChannel (this w) in
  length (buf c) < cap c ∧
  addError "late" w = (Panic "send on closed channel", w) ∧
  addError "late" w
  ≠ (Ok true, with_this (set_errorChannel (Chan (buf c ++ ["late"]) (cap c) (closed c))) w).
Proof.
  intros w c. split; [vm_compute; lia|].
  assert (H : addError "late" w = (Panic "send on closed channel", w))
    by exact (sender_closed AddError "late" w eq_refl).
  split; [exact H|]. rewrite H. discriminate.
Qed.

(** ** Frames *)
Section FrameFacts.

Context {Env : Type}.
Implicit Types (w : World Env) (evs : list (Event Env)).

Lemma grown_refl {A} (c : chan A) : grown c c.
Proof. by repeat split. Qed.

Lemma grown_trans {A} (c1 c2 c3 : chan A) : grown c1 c2 → grown c2 c3 → grown c1 c3.
Proof.
  intros (? & ? & ? & ?) (? & ? & ? & ?).
  split; [congruence|]. split; [congruence|]. split; [by etrans|auto].
Qed.

Lemma grown_send {A} (c : chan A) x :
  closed c = false → length (buf c) < cap c →
  grown c (Chan (buf c ++ [x]) (cap c) false).
Proof.
  intros Hc Hlen. split; [done|]. split; [done|]. split; [by apply prefix_app_r|].
  cbn. rewrite length_app. cbn. lia.
Qed.

Lemma frame_refl w : frame w w [].
Proof. split; try done; try apply grown_refl. by rewrite app_nil_r. Qed.

Lemma frame_trans w1 w2 w3 evs1 evs2 :
  frame w1 w2 evs1 → frame w2 w3 evs2 → frame w1 w3 (evs1 ++ evs2).
Proof.
  intros [] []. split; try congruence; try (by eapply grown_trans).
  rewrite app_assoc. congruence.
Qed.

Lemma frame_after w w' evs : frame w w' evs → after w w' evs.
Proof. intros []. by split. Qed.

Lemma after_refl w : after w w [].
Proof. split; try done; try apply grown_refl. by rewrite app_nil_r. Qed.

Lemma after_trans w1 w2 w3 evs1 evs2 :
  after w1 w2 evs1 → after w2 w3 evs2 → after w1 w3 (evs1 ++ evs2).
Proof.
  intros [] []. split; try congruence; try (by eapply grown_trans).
  rewrite app_assoc. congruence.
Qed.

Lemma after_open w w' evs : after w w' evs → channels_open w → channels_open w'.
Proof.
  intros [_ (Hl & _) (Hs & _) (He & _)] (? & ? & ?).
  unfold channels_open. by rewrite Hl, Hs, He.
Qed.

Lemma frame_open w w' evs : frame w w' evs → channels_open w → channels_open w'.
Proof. intros F. apply (after_open _ _ evs). by apply frame_after. Qed.

Lemma frame_wired w w' evs : frame w w' evs → wired w → wired w'.
Proof.
  intros F. unfold wired.
  by rewrite (frame_handler _ _ _ F), (frame_generator _ _ _ F),
    (frame_stats_handle _ _ _ F), (frame_socketeer _ _ _ F),
    (frame_apiServer _ _ _ F).
Qed.

Lemma channels_open_fanin w via : channels_open w → closed (fanin via (this w)) = false.
Proof. intros (? & ? & ?). by destruct via. Qed.

(** A send on open channels: nothing but that channel changes. *)
Lemma sender_frame via msg w :
  channels_open w →
  ∃ sent w', sender via msg w = (Ok sent, w') ∧ frame w w' [] ∧ env w' = env w ∧
    (if sent then grown (fanin via (this w)) (fanin via (this w')) ∧
                  msg ∈ buf (fanin via (this w'))
     else w' = w ∧
          cap (fanin via (this w)) ≤ length (buf (fanin via (this w)))).
Proof.
  intros Ho. pose proof (channels_open_fanin w via Ho) as Hc.
  rewrite (sender_not_closed via msg w Hc). cbv zeta. case_decide.
  - exists false, w. split_and!; [done|apply frame_refl|done..].
  - eexists true, _. split; [done|].
    pose proof (grown_send (fanin via (this w)) msg Hc ltac:(lia)) as Hg.
    destruct via; cbn in *;
      (split_and!; [split; try done; try apply grown_refl; by rewrite app_nil_r
                   |done|done|set_solver]).
Qed.

Lemma perform_frame {A} (t : Act A) w :
  channels_open w →
  ∃ a w', perform t w = (Ok a, w') ∧ frame w w' [] ∧ env w' = env w ∧
    ∀ P : A → Prop, ends P t → P a.
Proof.
  revert w. induction t as [a|via msg k IH]; intros w Ho.
  - exists a, w. split_and!; [done|apply frame_refl|done..].
  - destruct (sender_frame via msg w Ho) as (sent & w1 & Es & F1 & He1 & _).
    destruct (IH sent w1 (frame_open _ _ _ F1 Ho)) as (a & w2 & Ep & F2 & He2 & HP).
    exists a, w2. split_and!.
    + cbn [perform]. rewrite send_sender. by rewrite (bind_ok _ _ _ _ _ Es).
    + apply (frame_trans _ _ _ [] [] F1 F2).
    + congruence.
    + intros P HPt. apply HP, HPt.
Qed.

(** A collaborator call on open channels returns; only the private state
    and the channels change. *)
Lemma call_frame {R} (m : Env → Act (R * Env)) w :
  channels_open w →
  ∃ r w', call m w = (Ok r, w') ∧ frame w w' [] ∧
    ∀ P : R * Env → Prop, ends P (m (env w)) → P (r, env w').
Proof.
  intros Ho.
  destruct (perform_frame (m (env w)) w Ho) as ([r e'] & w1 & Ep & F & He & HP).
  exists r, (with_env e' w1). split_and!.
  - unfold call. rewrite gets_bind, (bind_ok _ _ _ _ _ Ep). cbn beta iota.
    by rewrite modify_bind.
  - destruct F. by split.
  - intros P HPt. apply (HP P HPt).
Qed.

Lemma invoke_frame c (m : Env → Act (option error * Env)) w :
  channels_open w →
  ∃ err w', invoke c m w = (Ok err, w') ∧ frame w w' [Called c err] ∧
    ∀ P : option error * Env → Prop, ends P (m (env w)) → P (err, env w').
Proof.
  intros Ho. destruct (call_frame m w Ho) as (err & w1 & Ec & F & HP).
  exists err, (with_trace (trace w1 ++ [Called c err]) w1). split_and!.
  - unfold invoke. by rewrite (bind_ok _ _ _ _ _ Ec).
  - destruct F. split; try done. cbn. by rewrite frame_trace0, app_nil_r.
  - done.
Qed.

End FrameFacts.

(** ** Best-effort steps: [deInit] and [stop] *)
Section TeardownFacts.

Context {Env : Type}.
Implicit Types (w : World Env) (evs : list (Event Env)) (B : list error).

Lemma best_effort_mono B B' n cs evs :
  B `prefix_of` B' → best_effort B n cs evs → best_effort B' n cs evs.
Proof.
  intros Hp. induction 1 as [|c cs evs _ IH|c cs e sent evs Hs _ IH];
    [constructor|by constructor|].
  constructor; [|done]. destruct sent.
  - destruct Hp as [l ->]. set_solver.
  - apply prefix_length in Hp. lia.
Qed.

Lemma best_effort_app B n cs1 cs2 evs1 evs2 :
  best_effort B n cs1 evs1 → best_effort B n cs2 evs2 →
  best_effort B n (cs1 ++ cs2) (evs1 ++ evs2).
Proof. induction 1; intros H2; cbn; [done|constructor; auto..]. Qed.

Lemma best_effort_calls B n cs evs : best_effort B n cs evs → calls evs = cs.
Proof. induction 1; cbn; congruence. Qed.

Lemma best_effort_closes B n cs evs : best_effort B n cs evs → closes evs = [].
Proof. induction 1; cbn; congruence. Qed.

(** [if err != nil { h.addError(err) }] on open channels. *)
Lemma report_frame err w :
  channels_open w →
  ∃ w' evs, report err w = (Ok (), w') ∧ frame w w' evs ∧ env w' = env w ∧
    match err with
    | None => evs = []
    | Some e =>
        ∃ sent, evs = [Forwarded e sent] ∧
          if sent : bool then e ∈ buf (errorChannel (this w'))
          else cap (errorChannel (this w)) ≤ length (buf (errorChannel (this w)))
    end.
Proof.
  intros Ho. destruct err as [e|].
  - destruct (sender_frame AddError e w Ho) as (sent & w1 & Es & F & He & Hs).
    cbn [sender] in Es.
    exists (with_trace (trace w1 ++ [Forwarded e sent]) w1), [Forwarded e sent].
    split_and!.
    + cbn [report]. by rewrite (bind_ok _ _ _ _ _ Es).
    + destruct F. split; try done. cbn. by rewrite frame_trace0, app_nil_r.
    + done.
    + exists sent. split; [done|]. destruct sent; cbn in *; [tauto|].
      by destruct Hs as [-> ?].
  - exists w, []. split_and!; [done|apply frame_refl|done..].
Qed.

(** One best-effort step: the call, then the report of its error, then
    whatever follows. *)
Lemma best_effort_step c (m : Env → Act (option error * Env)) w :
  channels_open w →
  ∃ w' evs,
    frame w w' evs ∧
    best_effort (buf (errorChannel (this w'))) (cap (errorChannel (this w))) [c] evs ∧
    (err ← invoke c m; report err) w = (Ok (), w') ∧
    ∀ R (k : M Env R), (err ← invoke c m; report err;; k) w = k w'.
Proof.
  intros Ho.
  destruct (invoke_frame c m w Ho) as (err & w1 & Ei & F1 & _).
  pose proof (frame_open _ _ _ F1 Ho) as Ho1.
  destruct (report_frame err w1 Ho1) as (w2 & evs & Er & F2 & _ & Hevs).
  exists w2, ([Called c err] ++ evs). split_and!.
  - by eapply frame_trans.
  - destruct err as [e|].
    + destruct Hevs as (sent & -> & Hs). cbn. constructor; [|constructor].
      destruct sent; [done|].
      destruct (frame_error _ _ _ F1) as (_ & Hcap & Hp1 & _).
      destruct (frame_error _ _ _ F2) as (_ & _ & Hp2 & _).
      apply prefix_length in Hp2. lia.
    + subst evs. cbn. repeat constructor.
  - by rewrite (bind_ok _ _ _ _ _ Ei).
  - intros R k. rewrite (bind_ok _ _ _ _ _ Ei). by rewrite (bind_ok _ _ _ _ _ Er).
Qed.

(** Adding a step to what was done so far. *)
Lemma best_effort_snoc w w1 w2 cs c evs1 evs2 :
  frame w w1 evs1 →
  best_effort (buf (errorChannel (this w1))) (cap (errorChannel (this w))) cs evs1 →
  frame w1 w2 evs2 →
  best_effort (buf (errorChannel (this w2))) (cap (errorChannel (this w1))) [c] evs2 →
  frame w w2 (evs1 ++ evs2) ∧
  best_effort (buf (errorChannel (this w2))) (cap (errorChannel (this w)))
    (cs ++ [c]) (evs1 ++ evs2).
Proof.
  intros F1 B1 F2 B2. split; [by eapply frame_trans|].
  destruct (frame_error _ _ _ F1) as (_ & Hcap & _).
  destruct (frame_error _ _ _ F2) as (_ & _ & Hp & _).
  apply best_effort_app; [by eapply best_effort_mono|by rewrite <- Hcap].
Qed.

Lemma stage_bind {X R} (field : World Env → option X) x c
    (meth : X → Env → Act (option error * Env)) (k : M Env R) w :
  field w = Some x →
  (o ← gets field; x ← deref o; err ← invoke c (meth x); report err;; k) w
  = (err ← invoke c (meth x); report err;; k) w.
Proof. intros H. by rewrite gets_bind, H. Qed.

Lemma stage_end {X} (field : World Env → option X) x c
    (meth : X → Env → Act (option error * Env)) w :
  field w = Some x →
  (o ← gets field; x ← deref o; err ← invoke c (meth x); report err) w
  = (err ← invoke c (meth x); report err) w.
Proof. intros H. by rewrite gets_bind, H. Qed.

Lemma stopApiServer_bind {R} (k : option error → M Env R) srv w :
  apiServer (this w) = Some srv →
  (stopApiServer ≫= k) w = (invoke apiServer_Stop (httpway.Stop srv) ≫= k) w.
Proof.
  intros H. unfold stopApiServer, mbind, M_bind, bind, gets. cbn beta iota.
  rewrite H. cbn [deref]. unfold mret, M_ret, ret.
  destruct (invoke _ _ w) as [[[e|]| |] w1]; reflexivity.
Qed.


(** Makes the best-effort step the goal is at, from the world [w1] reached
    so far, and adds it to the frame [F] and the history [B]. *)
Ltac best_effort_next Ho F B :=
  lazymatch goal with
  | |- context [(invoke ?c ?m ≫= _) ?w1] =>
      let Ho1 := fresh "Ho" in
      let w2 := fresh "w" in
      let evs2 := fresh "evs" in
      let F2 := fresh "F" in
      let B2 := fresh "B" in
      let E := fresh "E" in
      let E' := fresh "E" in
      let F' := fresh "F" in
      let B' := fresh "B" in
      pose proof (frame_open _ _ _ F Ho) as Ho1;
      destruct (best_effort_step c m w1 Ho1) as (w2 & evs2 & F2 & B2 & E' & E);
      first [rewrite E | rewrite E'];
      destruct (best_effort_snoc _ _ _ _ _ _ _ F B F2 B2) as [F' B'];
      clear F B F2 B2 E E' Ho1;
      rename F' into F; rename B' into B;
      cbn [app] in B
  end.

Lemma deInit_spec w :
  channels_open w → wired w →
  ∃ w' evs, deInit w = (Ok (), w') ∧ frame w w' evs ∧
    best_effort (buf (errorChannel (this w'))) (cap (errorChannel (this w)))
      [socketeer_DeInit; handler_DeInit; generator_DeInit; stats_DeInit] evs.
Proof.
  intros Ho ([s Hs] & [sk Hsk] & [hd Hhd] & [g Hg] & _).
  pose proof (frame_refl w) as F.
  pose proof (best_effort_nil (Env := Env) (buf (errorChannel (this w)))
                (cap (errorChannel (this w)))) as B.
  unfold deInit.
  rewrite (stage_bind (λ w, socketeer (this w)) sk) by done.
  best_effort_next Ho F B.
  rewrite (stage_bind (λ w, handler (this w)) hd)
    by (cbn beta; by rewrite (frame_handler _ _ _ F)).
  best_effort_next Ho F B.
  rewrite (stage_bind (λ w, generator (this w)) g)
    by (cbn beta; by rewrite (frame_generator _ _ _ F)).
  best_effort_next Ho F B.
  rewrite (stage_end (λ w, stats (this w)) s)
    by (cbn beta; by rewrite (frame_stats_handle _ _ _ F)).
  best_effort_next Ho F B.
  eauto.
Qed.

(** The three closes that end [stop]. *)
Lemma close_all w :
  channels_open w →
  ∃ w', (close errorChannel_;; close logChannel_;; close statsChannel_) w = (Ok (), w') ∧
    shut w w'.
Proof.
  intros (Hl & Hs & He). eexists. split.
  - unfold close, close_chan, mbind, M_bind, bind, gets, modify, record_event.
    cbn. rewrite He. cbn. rewrite Hl. cbn. rewrite Hs. cbn. reflexivity.
  - split; cbn; try done. by rewrite <- !app_assoc.
Qed.

(** [stop] on an initialized orchestrator whose channels are open: the
    nine best-effort steps, then the three closes. *)
Lemma stop_spec w :
  channels_open w → wired w →
  ∃ w1 w' evs, stop w = (Ok (), w') ∧ frame w w1 evs ∧ shut w1 w' ∧
    best_effort (buf (errorChannel (this w'))) (cap (errorChannel (this w)))
      teardown_steps evs.
Proof.
  intros Ho Hw. pose proof Hw as ([s Hs] & [sk Hsk] & [hd Hhd] & [g Hg] & [srv Hsrv]).
  pose proof (frame_refl w) as F.
  pose proof (best_effort_nil (Env := Env) (buf (errorChannel (this w)))
                (cap (errorChannel (this w)))) as B.
  unfold stop.
  rewrite (stopApiServer_bind _ srv) by done.
  best_effort_next Ho F B.
  rewrite (stage_bind (λ w, socketeer (this w)) sk)
    by (cbn beta; by rewrite (frame_socketeer _ _ _ F)).
  best_effort_next Ho F B.
  rewrite (stage_bind (λ w, handler (this w)) hd)
    by (cbn beta; by rewrite (frame_handler _ _ _ F)).
  best_effort_next Ho F B.
  rewrite (stage_bind (λ w, socketeer (this w)) sk)
    by (cbn beta; by rewrite (frame_socketeer _ _ _ F)).
  best_effort_next Ho F B.
  rewrite (stage_bind (λ w, stats (this w)) s)
    by (cbn beta; by rewrite (frame_stats_handle _ _ _ F)).
  best_effort_next Ho F B.
  edestruct (deInit_spec _ (frame_open _ _ _ F Ho) (frame_wired _ _ _ F Hw))
    as (w5 & evs5 & Ed & F5 & B5).
  rewrite (bind_ok _ _ _ _ _ Ed).
  destruct (frame_error _ _ _ F) as (_ & Hcap & _).
  destruct (frame_error _ _ _ F5) as (_ & _ & Hp & _).
  pose proof (frame_trans _ _ _ _ _ F F5) as F'.
  destruct (close_all w5 (frame_open _ _ _ F' Ho)) as (w' & Ec & Hshut).
  exists w5, w'. eexists. split_and!; [exact Ec|exact F'|exact Hshut|].
  rewrite (shut_error _ _ Hshut). cbn [buf].
  apply (best_effort_app _ _ [_; _; _; _; _] [_; _; _; _]).
  - by eapply best_effort_mono.
  - by rewrite <- Hcap.
Qed.

End TeardownFacts.

(** ** The cascade *)
Section Cascade.

Context {Env : Type}.
Implicit Types (w : World Env) (evs : list (Event Env)).

Lemma record_event_bind {R} ev (k : unit → M Env R) w :
  (record_event ev ≫= k) w = k () (with_trace (trace w ++ [ev]) w).
Proof. reflexivity. Qed.

Lemma log_Print_bind {R} s (k : unit → M Env R) w :
  (log_Print s ≫= k) w = k () (with_stdlog (stdlog w ++ [s]) w).
Proof. reflexivity. Qed.

Lemma wg_Done_ok w : (0 < wg w)%Z → wg_Done w = (Ok (), with_wg (wg w + -1)%Z w).
Proof.
  intros Hwg. unfold wg_Done, wg_Add. rewrite gets_bind.
  case_decide; [lia|done].
Qed.

(** The body of the generator's goroutine on an initialized orchestrator
    whose channels are open. *)
Lemma generator_quantum_cascade w g :
  channels_open w → wired w → generator (this w) = Some g → (0 < wg w)%Z →
  ∃ returned w0,
    call (generator.Run g) w = (Ok returned, w0) ∧
    if returned : bool then
      ∃ w' evs,
        quantum GeneratorRun w = (Ok (), w') ∧
        trace w' = trace w ++ Called generator_Run None :: evs
                     ++ [Closed errorChannel_; Closed logChannel_; Closed statsChannel_] ∧
        best_effort (buf (errorChannel (this w'))) (cap (errorChannel (this w)))
          teardown_steps evs ∧
        calls evs = teardown_steps ∧ closes evs = [] ∧
        closed (errorChannel (this w')) = true ∧
        closed (logChannel (this w')) = true ∧
        closed (statsChannel (this w')) = true ∧
        GeneratorRun ∉ live w'
    else
      quantum GeneratorRun w = (Ok (), w0) ∧ trace w0 = trace w ∧ channels_open w0.
Proof.
  intros Ho Hw Hg Hwg.
  destruct (call_frame (generator.Run g) w Ho) as (returned & w0 & Ec & F0 & _).
  exists returned, w0. split; [done|].
  unfold quantum. rewrite gets_bind, Hg. cbn [deref]. rewrite ret_bind.
  rewrite (bind_ok _ _ _ _ _ Ec).
  destruct returned.
  - rewrite record_event_bind, !log_Print_bind.
    match goal with |- context [(stop ≫= _) ?w1] => set (wa := w1) end.
    assert (Fa : frame w0 wa [Called generator_Run None])
      by (split; try done; apply grown_refl).
    pose proof (frame_trans _ _ _ _ _ F0 Fa) as F. cbn [app] in F.
    clearbody wa.
    assert (Hoa : channels_open wa).
    { eapply after_open; [|exact Ho]. destruct F. by split. }
    assert (Hwa : wired wa).
    { destruct F. unfold wired. by rewrite frame_handler0, frame_generator0,
        frame_stats_handle0, frame_socketeer0, frame_apiServer0. }
    destruct (stop_spec wa Hoa Hwa) as (w1 & w2 & evs & Es & F1 & Hshut & B).
    rewrite (bind_ok _ _ _ _ _ Es).
    assert (Hwg2 : wg w2 = wg w).
    { rewrite (shut_wg _ _ Hshut), (frame_wg _ _ _ F1). by destruct F. }
    rewrite (bind_ok _ _ _ _ _ (wg_Done_ok w2 ltac:(lia))).
    eexists _, evs. split; [reflexivity|]. cbn.
    split_and!.
    + rewrite (shut_trace _ _ Hshut), (frame_trace _ _ _ F1).
      destruct F as [-> _]. by rewrite <- !app_assoc.
    + destruct F as [_ _ _ (_ & <- & _)]. done.
    + by eapply best_effort_calls.
    + by eapply best_effort_closes.
    + by rewrite (shut_error _ _ Hshut).
    + by rewrite (shut_log _ _ Hshut).
    + by rewrite (shut_stats _ _ Hshut).
    + intros Hin. apply list_elem_of_filter in Hin. by destruct Hin.
  - split_and!; [done| |by eapply frame_open].
    rewrite (frame_trace _ _ _ F0). apply app_nil_r.
Qed.

(** C3, amended. [stop] closes the error channel, then the log channel, then
    the stat channel, one after the other; the three closes are the last
    things it does, after every [Stop] and [DeInit] of the cascade has
    returned. *)
Theorem stop_closes_last w :
  channels_open w → wired w →
  ∃ w' evs,
    stop w = (Ok (), w') ∧
    trace w' = trace w ++ evs
                 ++ [Closed errorChannel_; Closed logChannel_; Closed statsChannel_] ∧
    calls evs = teardown_steps ∧ closes evs = [] ∧
    closed (errorChannel (this w')) = true ∧
    closed (logChannel (this w')) = true ∧
    closed (statsChannel (this w')) = true.
Proof.
  intros Ho Hw.
  destruct (stop_spec w Ho Hw) as (w1 & w' & evs & Es & F & Hshut & B).
  exists w', evs. split_and!.
  - done.
  - rewrite (shut_trace _ _ Hshut), (frame_trace _ _ _ F). by rewrite <- app_assoc.
  - by eapply best_effort_calls.
  - by eapply best_effort_closes.
  - by rewrite (shut_error _ _ Hshut).
  - by rewrite (shut_log _ _ Hshut).
  - by rewrite (shut_stats _ _ Hshut).
Qed.

(** C4. The exported [Stop] calls [Generator.Stop] and nothing else: the
    history grows by that one call, no channel is closed and no handle
    changes; and it panics, with the error, exactly when that call returned
    a non-nil error. *)
Theorem Stop_only_stops_generator w g :
  channels_open w → generator (this w) = Some g →
  ∃ err w1,
    invoke generator_Stop (generator.Stop g) w = (Ok err, w1) ∧
    frame w w1 [Called generator_Stop err] ∧
    Stop w = (match err with Some e => Panic e | None => Ok () end, w1) ∧
    ((∃ msg, (Stop w).1 = Panic msg) ↔ is_Some err).
Proof.
  intros Ho Hg.
  destruct (invoke_frame generator_Stop (generator.Stop g) w Ho) as (err & w1 & Ei & F & _).
  exists err, w1.
  assert (Es : Stop w = (match err with Some e => Panic e | None => Ok () end, w1)).
  { unfold Stop. rewrite gets_bind, Hg. cbn [deref]. rewrite ret_bind.
    rewrite (bind_ok _ _ _ _ _ Ei). by destruct err. }
  split_and!; [done..|]. rewrite Es. destruct err; cbn.
  - split; [by eauto|]. by eauto.
  - split; [by intros [? ?]|]. by intros [? ?].
Qed.

End Cascade.

Lemma stop_closes_last_witness :
  let w := fake.ready ["stats.Stop"; "socketeer.DeInit"] 3 "" in
  ∃ w' evs,
    stop w = (Ok (), w') ∧
    trace w' = trace w ++ evs
                 ++ [Closed errorChannel_; Closed logChannel_; Closed statsChannel_] ∧
    calls evs = teardown_steps ∧ closes evs = [] ∧
    closed (errorChannel (this w')) = true ∧
    closed (logChannel (this w')) = true ∧
    closed (statsChannel (this w')) = true.
Proof.
  intros w. apply (stop_closes_last w).
  - by vm_compute.
  - repeat split; eexists; vm_compute; reflexivity.
Defined.

(** C3 as stated fails: in the history of [stop] the close of the error
    channel comes first, strictly before the close of the log channel, which
    comes strictly before the close of the stat channel. *)
Lemma stop_closes_error_first :
  let w := fake.ready [] 0 "" in
  let w' := (fake.stop w).2 in
  (fake.stop w).1 = Ok () ∧
  closes (trace w') = [errorChannel_; logChannel_; statsChannel_] ∧
  closes (trace w') ≠ [logChannel_; statsChannel_; errorChannel_] ∧
  trace w' !! 19 = Some (Closed errorChannel_) ∧
  trace w' !! 20 = Some (Closed logChannel_) ∧
  trace w' !! 21 = Some (Closed statsChannel_).
Proof. vm_compute. by split_and!. Qed.

Lemma Stop_only_stops_generator_witness :
  (let w := fake.ready [] 5 "" in
   ∃ err w1,
     invoke generator_Stop (generator.Stop fake.Source) w = (Ok err, w1) ∧
     frame w w1 [Called generator_Stop err] ∧
     Stop w = (match err with Some e => Panic e | None => Ok () end, w1) ∧
     ((∃ msg, (Stop w).1 = Panic msg) ↔ is_Some err)) ∧
  (let w := fake.ready ["generator.Stop"] 5 "" in
   ∃ err w1,
     invoke generator_Stop (generator.Stop fake.Source) w = (Ok err, w1) ∧
     frame w w1 [Called generator_Stop err] ∧
     Stop w = (match err with Some e => Panic e | None => Ok () end, w1) ∧
     ((∃ msg, (Stop w).1 = Panic msg) ↔ is_Some err)).
Proof.
  split; intros w; apply (Stop_only_stops_generator w fake.Source);
    (by vm_compute) || (vm_compute; reflexivity).
Defined.

(** The two outcomes of the exported [Stop] over the doubles. *)
Example Stop_returns :
  (Stop (fake.ready [] 5 "")).1 = Ok () ∧
  drop 10 (trace (Stop (fake.ready [] 5 "")).2) = [Called generator_Stop None].
Proof. by vm_compute. Qed.

Example Stop_panics :
  (Stop (fake.ready ["generator.Stop"] 5 "")).1 = Panic "generator.Stop failed" ∧
  drop 10 (trace (Stop (fake.ready ["generator.Stop"] 5 "")).2)
  = [Called generator_Stop (Some "generator.Stop failed")].
Proof. by vm_compute. Qed.

(** ** The API handlers *)
Section HandlerFacts.

Context {Env : Type}.
Variable Unmarshal : string → Details + error.
Variable directive : string → string * string.
Implicit Types (w : World Env) (evs : list (Event Env)).

(** A format without percent sign is written as it is. *)
Lemma render_plain n s :
  String.length s ≤ n → "%"%char ∉ chars s → fmt.render directive n s = s.
Proof.
  revert s. induction n as [|n IH]; intros [|c s] Hn Hs; cbn in *; try done; try lia.
  assert (Hc : c ≠ "%"%char) by set_solver.
  assert (Hrest : fmt.render directive n s = s) by (apply IH; [lia|set_solver]).
  destruct c as [[] [] [] [] [] [] [] []]; try done; by rewrite Hrest.
Qed.

Lemma Sprintf_plain s : "%"%char ∉ chars s → fmt.Sprintf directive s = s.
Proof. intros Hs. by apply render_plain. Qed.

Lemma Sprintf_status_ok : fmt.Sprintf directive status_ok = status_ok.
Proof. reflexivity. Qed.

(** What [statsHandler] does on open channels: one call of
    [Statistics.String], whose text goes to [Fprintf] as the format. *)
Lemma statsHandler_spec response request w s :
  channels_open w → stats (this w) = Some s →
  ∃ text w1,
    call (stats.String s) w = (Ok text, w1) ∧
    statsHandler directive response request w
    = (Ok (fmt.Fprintf directive response text),
       with_trace (trace w1 ++ [Called stats_String None]) w1).
Proof.
  intros Ho Hs. destruct (call_frame (stats.String s) w Ho) as (text & w1 & Ec & _).
  exists text, w1. split; [done|].
  unfold statsHandler. rewrite gets_bind, Hs. cbn [deref]. rewrite ret_bind.
  by rewrite (bind_ok _ _ _ _ _ Ec).
Qed.

(** The part of C8 that holds: the status is 200, and the body is the text
    of [Statistics.String] when that text has no percent sign. *)
Lemma statsHandler_plain request w s :
  channels_open w → stats (this w) = Some s →
  ∃ text w1 w',
    call (stats.String s) w = (Ok text, w1) ∧
    statsHandler directive http.fresh request w
    = (Ok {| http.status := Some 200%Z; http.body := fmt.Sprintf directive text |}, w') ∧
    ("%"%char ∉ chars text → fmt.Sprintf directive text = text).
Proof.
  intros Ho Hs.
  destruct (statsHandler_spec http.fresh request w s Ho Hs) as (text & w1 & Ec & Eh).
  exists text, w1. eexists. split_and!; [done|exact Eh|apply Sprintf_plain].
Qed.

(** C6. [updateHandler] on a request, the error channel open: when reading
    the body failed, or [json.Unmarshal] refused it, the status is 400, the
    body is the error text (and a newline), and the history shows no call of
    [Generator.Update]; otherwise [Generator.Update] is called once, with the
    parsed mapping, and the status is 500 with the error text when it
    returned an error, 200 with the body [{"status": "ok"}] when it did not. *)
Theorem updateHandler_responds request w g :
  channels_open w → generator (this w) = Some g →
  let newline := String (Ascii.ascii_of_nat 10) "" in
  let handled := updateHandler Unmarshal directive http.fresh request w in
  let refused (e : error) :=
    ∃ sent w1,
      addError e w = (Ok sent, w1) ∧
      handled = (Ok {| http.status := Some 400%Z; http.body := e +:+ newline |}, w1) ∧
      trace w1 = trace w in
  match http.ReadErr request with
  | Some e => refused e
  | None =>
      match Unmarshal (http.Body request) with
      | inr e => refused e
      | inl details =>
          ∃ err w1,
            invoke (generator_Update details) (generator.Update g details) w
            = (Ok err, w1) ∧
            trace w1 = trace w ++ [Called (generator_Update details) err] ∧
            match err with
            | Some e =>
                ∃ sent w2,
                  addError e w1 = (Ok sent, w2) ∧
                  handled
                  = (Ok {| http.status := Some 500%Z; http.body := e +:+ newline |}, w2) ∧
                  trace w2 = trace w1
            | None =>
                handled
                = (Ok {| http.status := Some 200%Z; http.body := status_ok |}, w1)
            end
      end
  end.
Proof.
  intros Ho Hg newline handled refused.
  assert (Hrefused : ∀ e w0,
            channels_open w0 →
            ∃ sent w1, addError e w0 = (Ok sent, w1) ∧
              (addError e;; mret (http.Error http.fresh e 400)) w0
              = (Ok {| http.status := Some 400%Z; http.body := e +:+ newline |}, w1) ∧
              trace w1 = trace w0).
  { intros e w0 Ho0.
    destruct (sender_frame AddError e w0 Ho0) as (sent & w1 & Es & F & _).
    cbn [sender] in Es. exists sent, w1. split_and!; [done| |].
    - by rewrite (bind_ok _ _ _ _ _ Es).
    - rewrite (frame_trace _ _ _ F). apply app_nil_r. }
  subst handled refused. unfold updateHandler. cbv zeta.
  destruct (http.ReadErr request) as [e|]; [by apply Hrefused|].
  destruct (Unmarshal (http.Body request)) as [details|e]; [|by apply Hrefused].
  rewrite gets_bind, Hg. cbn [deref]. rewrite ret_bind.
  destruct (invoke_frame (generator_Update details) (generator.Update g details) w Ho)
    as (err & w1 & Ei & F & _).
  exists err, w1. split_and!; [done|by rewrite (frame_trace _ _ _ F)|].
  rewrite (bind_ok _ _ _ _ _ Ei). destruct err as [e|]; [|done].
  destruct (sender_frame AddError e w1 (frame_open _ _ _ F Ho)) as (sent & w2 & Es & F2 & _).
  cbn [sender] in Es. exists sent, w2. split_and!; [done| |].
  - by rewrite (bind_ok _ _ _ _ _ Es).
  - rewrite (frame_trace _ _ _ F2). apply app_nil_r.
Qed.

End HandlerFacts.

Lemma updateHandler_responds_witness :
  let w := fake.ready ["generator.Update"] 5 "" in
  let request := {| http.Body := "{rate: 100}"; http.ReadErr := None |} in
  let details : Details := {[ "rate" := JNumber "100" ]} in
  ∃ err w1,
    invoke (generator_Update details) (generator.Update fake.Source details) w
    = (Ok err, w1) ∧
    trace w1 = trace w ++ [Called (generator_Update details) err] ∧
    match err with
    | Some e =>
        ∃ sent w2,
          addError e w1 = (Ok sent, w2) ∧
          updateHandler fake.Unmarshal fake.directive http.fresh request w
          = (Ok {| http.status := Some 500%Z;
                   http.body := e +:+ String (Ascii.ascii_of_nat 10) "" |}, w2) ∧
          trace w2 = trace w1
    | None =>
        updateHandler fake.Unmarshal fake.directive http.fresh request w
        = (Ok {| http.status := Some 200%Z; http.body := status_ok |}, w1)
    end.
Proof.
  intros w request details.
  apply (updateHandler_responds fake.Unmarshal fake.directive request w fake.Source).
  - by vm_compute.
  - vm_compute. reflexivity.
Defined.

(** The three answers of [PUT /update] over the doubles. *)
Example update_ok :
  let w := fake.ready [] 5 "" in
  let r := updateHandler fake.Unmarshal fake.directive http.fresh
             {| http.Body := "{rate: 100}"; http.ReadErr := None |} w in
  r.1 = Ok {| http.status := Some 200%Z; http.body := status_ok |} ∧
  fake.updates (env r.2) = [{[ "rate" := JNumber "100" ]}].
Proof. by vm_compute. Qed.

Example update_unparsable :
  let w := fake.ready [] 5 "" in
  let r := updateHandler fake.Unmarshal fake.directive http.fresh
             {| http.Body := "not-json"; http.ReadErr := None |} w in
  r.1 = Ok {| http.status := Some 400%Z;
              http.body := "invalid character" +:+ String (Ascii.ascii_of_nat 10) "" |} ∧
  fake.updates (env r.2) = [] ∧ trace r.2 = trace w.
Proof. by vm_compute. Qed.

Example update_refused :
  let w := fake.ready ["generator.Update"] 5 "" in
  let r := updateHandler fake.Unmarshal fake.directive http.fresh
             {| http.Body := "{}"; http.ReadErr := None |} w in
  r.1 = Ok {| http.status := Some 500%Z;
              http.body := "generator.Update failed"
                           +:+ String (Ascii.ascii_of_nat 10) "" |}.
Proof. by vm_compute. Qed.

(** C8 fails on a snapshot with a percent sign: [statsHandler] passes the
    text of [Statistics.String] to [Fprintf] as the format, so the body is
    not that text, whatever [fmt] does with other directives. *)
Theorem statsHandler_percent (directive : string → string * string) :
  let w := fake.ready [] 5 "load: 100%" in
  let request := {| http.Body := ""; http.ReadErr := None |} in
  (call (stats.String fake.Statistics) w).1 = Ok "load: 100%" ∧
  (statsHandler directive http.fresh request w).1
  = Ok {| http.status := Some 200%Z; http.body := "load: 100%!(NOVERB)" |}.
Proof. by vm_compute. Qed.

(** ** Startup *)
Section Startup.

Context {Env : Type}.
Variable NewRawSocketeer :
  config.SocketeerOptions → Sender → Sender →
  Env → Act (socketeer.RawSocketeer Env * Env).
Variable NewHandler :
  option (socketeer.RawSocketeer Env) → config.HammerConfig → Sender → Sender →
  (stats.StatValue → Env → Act (bool * Env)) →
  Env → Act ((option (handler.Handler Env) * option error) * Env).
Variable NewGenerator :
  option (socketeer.RawSocketeer Env) → config.HammerConfig → Sender → Sender →
  (stats.StatValue → Env → Act (bool * Env)) →
  Env → Act ((option (generator.Generator Env) * option error) * Env).
Variable NewServer : Env → Act (httpway.Server Env * Env).
Implicit Types (w : World Env) (evs : list (Event Env)).

Local Abbreviation Init :=
  (hammer.Init NewRawSocketeer NewHandler NewGenerator NewServer).

(** A field of [h] other than a channel is assigned, and the call that
    produced the value is entered in the history. *)
Lemma store_after (f : Hammer Env → Hammer Env) ev w0 w1 evs :
  (∀ h, logChannel (f h) = logChannel h ∧ statsChannel (f h) = statsChannel h ∧
        errorChannel (f h) = errorChannel h) →
  after w0 w1 evs →
  after w0 (with_trace (trace (with_this f w1) ++ [ev]) (with_this f w1)) (evs ++ [ev]).
Proof.
  intros Hf A. destruct (Hf (this w1)) as (Hl & Hs & He).
  apply (after_trans _ w1); [done|].
  split; cbn; try done; rewrite ?Hl, ?Hs, ?He; apply grown_refl.
Qed.


Lemma record_after ev w0 w1 evs :
  after w0 w1 evs → after w0 (with_trace (trace w1 ++ [ev]) w1) (evs ++ [ev]).
Proof.
  intros A. apply (after_trans _ w1); [done|].
  split; cbn; try done; apply grown_refl.
Qed.

(** Moves what is known of the handles across a frame. *)
Ltac carry_handles F :=
  lazymatch type of F with
  | frame ?w1 ?w2 _ =>
      repeat match goal with
        | H : stats (this w1) = _ |- _ => rewrite <- (frame_stats_handle _ _ _ F) in H
        | H : socketeer (this w1) = _ |- _ => rewrite <- (frame_socketeer _ _ _ F) in H
        | H : handler (this w1) = _ |- _ => rewrite <- (frame_handler _ _ _ F) in H
        | H : generator (this w1) = _ |- _ => rewrite <- (frame_generator _ _ _ F) in H
        | H : apiServer (this w1) = _ |- _ => rewrite <- (frame_apiServer _ _ _ F) in H
        end
  end.

(** A collaborator call in [Init], from the world reached under [A]. *)
Ltac init_call Ho A r :=
  lazymatch goal with
  | |- context [(call ?m ≫= _) ?w1] =>
      let w2 := fresh "w" in
      let E := fresh "E" in
      let F := fresh "F" in
      let A' := fresh "A" in
      destruct (call_frame m w1 (after_open _ _ _ A Ho)) as (r & w2 & E & F & _);
      rewrite (bind_ok _ _ _ _ _ E);
      pose proof (after_trans _ _ _ _ _ A (frame_after _ _ _ F)) as A';
      rewrite app_nil_r in A';
      carry_handles F;
      clear A E F; rename A' into A
  end.

Ltac init_invoke Ho A err :=
  lazymatch goal with
  | |- context [(invoke ?c ?m ≫= _) ?w1] =>
      let w2 := fresh "w" in
      let E := fresh "E" in
      let F := fresh "F" in
      let A' := fresh "A" in
      destruct (invoke_frame c m w1 (after_open _ _ _ A Ho)) as (err & w2 & E & F & _);
      rewrite (bind_ok _ _ _ _ _ E);
      pose proof (after_trans _ _ _ _ _ A (frame_after _ _ _ F)) as A';
      carry_handles F;
      clear A E F; rename A' into A
  end.

(** An assignment to a field of [h] and the entry in the history. *)
Ltac init_store A wb :=
  rewrite modify_bind, record_event_bind;
  lazymatch goal with
  | |- context [with_trace (trace (with_this ?f ?w1) ++ [?ev]) (with_this ?f ?w1)] =>
      let A' := fresh "A" in
      pose proof (store_after f ev _ w1 _ ltac:(done) A) as A';
      set (wb := with_trace (trace (with_this f w1) ++ [ev]) (with_this f w1)) in *;
      repeat match goal with
        | H : ?g (this w1) = ?v |- _ => change (g (this wb) = v) in H
        end;
      clear A; rename A' into A
  end.

(** An entry in the history alone. *)
Ltac init_record A wb :=
  rewrite record_event_bind;
  lazymatch goal with
  | |- context [with_trace (trace ?w1 ++ [?ev]) ?w1] =>
      let A' := fresh "A" in
      pose proof (record_after ev _ w1 _ A) as A';
      set (wb := with_trace (trace w1 ++ [ev]) w1) in *;
      repeat match goal with
        | H : ?g (this w1) = ?v |- _ => change (g (this wb) = v) in H
        end;
      clear A; rename A' into A
  end.

(** Closes a branch in which [Init] has ended. *)
Ltac init_done A :=
  cbn [fst snd];
  eexists; split; [exact A|];
  split_and!;
    try (intros _; eauto; done);
    try (intros Hin; cbn [app] in Hin;
         repeat (apply elem_of_cons in Hin as [Hin|Hin]; [discriminate Hin|]);
         by apply elem_of_nil in Hin).

(** [Init] has returned the error of the step just made. *)
Ltac init_failed A :=
  init_done A; unfold mret, M_ret, ret; cbn [fst snd app];
  (split; [|intros [=]]);
  unfold startup_steps, bound_receiver;
  repeat match goal with H : handler (this _) = _ |- _ => rewrite H end;
  repeat constructor.

(** [Init] has panicked on the nil object of the constructor after [cs]. *)
Ltac init_panicked A cs :=
  init_done A; unfold mbind, M_bind, bind, deref, panic; cbn [fst snd app];
  unfold startup_steps, bound_receiver;
  repeat match goal with H : handler (this _) = _ |- _ => rewrite H end;
  exists cs; eexists _, _; (split; [reflexivity|split; reflexivity]).

Lemma Init_spec apiAddr apiPort w :
  channels_open w →
  Init_post w (Init apiAddr apiPort w).1 (Init apiAddr apiPort w).2.
Proof.
  intros Ho. unfold hammer.Init.
  rewrite modify_bind, !gets_bind.
  assert (A : after w (with_logFlags (Z.lor log_LstdFlags log_LUTC) w) [])
    by (split; try done; try apply grown_refl; by rewrite app_nil_r).
  set (w0 := with_logFlags _ w) in *.
  change (options (this w0)) with (options (this w)).
  change (socketeerOptions (this w0)) with (socketeerOptions (this w)).
  change (statters w0) with (statters w).
  destruct (stats.New _ _ _ _) as [s err].
  init_store A wa. assert (Hs : stats (this wa) = s) by done. clearbody wa. clear w0.
  destruct err as [e|]; [init_failed A|].
  destruct s as [s|]; [|init_panicked A (@nil (Call Env))].
  cbn [deref]. rewrite ret_bind.
  init_invoke Ho A err. destruct err as [e|]; [init_failed A|].
  init_call Ho A sk. init_store A wb.
  assert (Hsk : socketeer (this wb) = Some sk) by done. clearbody wb.
  init_invoke Ho A err. destruct err as [e|]; [init_failed A|].
  init_call Ho A r. destruct r as [hd err]. init_store A wc.
  assert (Hhd : handler (this wc) = hd) by done. clearbody wc.
  destruct err as [e|]; [init_failed A|].
  destruct hd as [hd|];
    [|init_panicked A [stats_New; stats_Init; socketeer_NewRawSocketeer;
                       socketeer_Init (Env := Env)]].
  cbn [deref]. rewrite ret_bind.
  init_invoke Ho A err. destruct err as [e|]; [init_failed A|].
  init_call Ho A u. init_record A wd. clearbody wd.
  init_call Ho A r. destruct r as [g err]. init_store A we.
  assert (Hg : generator (this we) = g) by done. clearbody we.
  destruct err as [e|]; [init_failed A|].
  destruct g as [g|];
    [|init_panicked A [stats_New; stats_Init; socketeer_NewRawSocketeer;
                       socketeer_Init; handler_New; handler_Init;
                       socketeer_SetReceiver (handler.ReceiveMessage hd)]].
  cbn [deref]. rewrite ret_bind.
  init_invoke Ho A err. destruct err as [e|]; [init_failed A|].
  unfold initApiServer. rewrite bind_assoc.
  init_call Ho A srv. rewrite bind_assoc. init_record A wf.
  rewrite modify_bind.
  match goal with |- context [with_this ?f wf] => set (wz := with_this f wf) end.
  assert (A' : after wf wz [])
    by (split; try done; try apply grown_refl; by rewrite app_nil_r).
  pose proof (after_trans _ _ _ _ _ A A') as Az. rewrite app_nil_r in Az.
  change (stats (this wz) = Some s) in Hs.
  change (socketeer (this wz) = Some sk) in Hsk.
  change (handler (this wz) = Some hd) in Hhd.
  change (generator (this wz) = Some g) in Hg.
  assert (Hsrv : is_Some (apiServer (this wz))) by (by eexists).
  clearbody wz. clear A A'.
  init_done Az. unfold mret, M_ret, ret. cbn [fst snd app]. split.
  - unfold startup_steps, bound_receiver. rewrite Hhd. repeat constructor.
  - intros _. unfold wired. rewrite Hs, Hsk, Hhd, Hg. by eauto 10.
Qed.


Lemma fail_fast_calls cs evs r :
  fail_fast cs evs r → ∀ ev, ev ∈ evs → ∃ c err, ev = Called c err ∧ c ∈ cs.
Proof.
  induction 1 as [|c cs evs r _ IH|c cs e]; intros ev Hev.
  - by apply elem_of_nil in Hev.
  - apply elem_of_cons in Hev as [->|Hev].
    + exists c, None. split; [done|]. by left.
    + destruct (IH ev Hev) as (c' & err & -> & Hc). exists c', err. split; [done|].
      by right.
  - apply list_elem_of_singleton in Hev as ->. exists c, (Some e). split; [done|].
    by left.
Qed.

Lemma fail_fast_closes cs evs r : fail_fast cs evs r → closes evs = [].
Proof. induction 1; cbn; congruence. Qed.

Lemma fail_fast_failed_last cs evs e :
  fail_fast cs evs (Some e) → ∃ c pre, evs = pre ++ [Called c (Some e)].
Proof.
  remember (Some e) as r eqn:Hr. induction 1 as [|c cs evs r _ IH|c cs e']; [done| |].
  - destruct (IH Hr) as (c' & pre & ->). by exists c', (Called c None :: pre).
  - injection Hr as ->. by exists c, [].
Qed.

Lemma startup_steps_quiet receiver c :
  c ∈ startup_steps (Env := Env) receiver → starts_loop c = false ∧ tears_down c = false.
Proof.
  unfold startup_steps. intros Hc.
  repeat (apply elem_of_cons in Hc as [->|Hc]; [done|]). by apply elem_of_nil in Hc.
Qed.

(** The calls in the history [Init] leaves are startup steps. *)
Lemma Init_calls w res w' :
  Init_post w res w' →
  ∃ evs, trace w' = trace w ++ evs ∧ closes evs = [] ∧
    ∀ ev, ev ∈ evs → ∃ c err, ev = Called c err ∧ c ∈ startup_steps (bound_receiver w').
Proof.
  intros (evs & A & _ & _ & _ & Hres). exists evs. split; [by destruct A|].
  destruct res as [r|msg|]; [| |done].
  - destruct Hres as [Hff _]. split; [by eapply fail_fast_closes|].
    by eapply fail_fast_calls.
  - destruct Hres as (cs & c & cs' & Hsteps & -> & _). split.
    + generalize (cs ++ [c]). intros l. by induction l.
    + intros ev Hev. apply list_elem_of_fmap in Hev as (c' & -> & Hc').
      exists c', None. split; [done|]. rewrite Hsteps.
      apply elem_of_app in Hc' as [Hc'|Hc']; [set_solver|].
      apply list_elem_of_singleton in Hc' as ->. set_solver.
Qed.

(** C2. [Init] makes the construction and [Init] steps in the order
    Statistics, Transport, Handler, then binds the transport's receiver to the
    stored handler's [ReceiveMessage], then Generator, then prepares the API
    server.  Each step is made only when all before it returned no error; the
    first error ends [Init], which returns it, nothing being called after it.
    None of the calls starts a loop.  ([Init] panics only on a constructor
    that returned neither object nor error, and never blocks.) *)
Theorem Init_fails_fast apiAddr apiPort w :
  channels_open w →
  let res := (Init apiAddr apiPort w).1 in
  let w' := (Init apiAddr apiPort w).2 in
  ∃ evs,
    trace w' = trace w ++ evs ∧
    (∀ c err, Called c err ∈ evs → starts_loop c = false) ∧
    match res with
    | Ok r =>
        fail_fast (startup_steps (bound_receiver w')) evs r ∧
        (r = None → wired w')
    | Panic _ =>
        ∃ cs c cs',
          startup_steps (bound_receiver w') = cs ++ c :: cs' ∧
          evs = (λ c, Called c None) <$> (cs ++ [c]) ∧
          constructs c = true
    | Stuck => False
    end.
Proof.
  intros Ho res w'. pose proof (Init_spec apiAddr apiPort w Ho) as Hpost.
  destruct (Init_calls _ _ _ Hpost) as (evs' & Ht' & _ & Hcalls).
  destruct Hpost as (evs & A & _ & _ & _ & Hres).
  assert (evs' = evs) as ->.
  { destruct A as [Ht _]. fold w' in Ht, Ht'. rewrite Ht in Ht'.
    by apply app_inv_head in Ht'. }
  exists evs. split_and!; [by destruct A| |exact Hres].
  intros c err Hin. destruct (Hcalls _ Hin) as (c' & err' & [= <- <-] & Hc).
  by apply startup_steps_quiet in Hc as [? _].
Qed.

(** C10. When [Init] returns an error, the history it leaves ends with the
    step that failed and has no [Stop], no [DeInit] and no close in it; the
    subsystems whose [Init] had succeeded are still stored in [h], and the
    channels are still open. *)
Theorem Init_no_rollback apiAddr apiPort w e :
  channels_open w →
  (Init apiAddr apiPort w).1 = Ok (Some e) →
  let w' := (Init apiAddr apiPort w).2 in
  ∃ evs,
    trace w' = trace w ++ evs ∧
    (∃ c pre, evs = pre ++ [Called c (Some e)]) ∧
    (∀ c err, Called c err ∈ evs → tears_down c = false) ∧
    closes evs = [] ∧
    (Called stats_Init None ∈ evs → is_Some (stats (this w'))) ∧
    (Called socketeer_Init None ∈ evs → is_Some (socketeer (this w'))) ∧
    (Called handler_Init None ∈ evs → is_Some (handler (this w'))) ∧
    channels_open w'.
Proof.
  intros Ho Hres w'. pose proof (Init_spec apiAddr apiPort w Ho) as Hpost.
  destruct (Init_calls _ _ _ Hpost) as (evs' & Ht' & Hcl & Hcalls).
  destruct Hpost as (evs & A & H1 & H2 & H3 & Hr).
  assert (evs' = evs) as ->.
  { destruct A as [Ht _]. fold w' in Ht, Ht'. rewrite Ht in Ht'.
    by apply app_inv_head in Ht'. }
  rewrite Hres in Hr. destruct Hr as [Hff _].
  exists evs. split_and!; [|by eapply fail_fast_failed_last| |exact Hcl
    |exact H1|exact H2|exact H3|by eapply after_open].
  - by destruct A.
  - intros c err Hin. destruct (Hcalls _ Hin) as (c' & err' & [= <- <-] & Hc).
    by apply startup_steps_quiet in Hc as [_ ?].
Qed.

End Startup.

Lemma Init_no_rollback_witness :
  let w := fake.fresh ["handler.Init"] 5 "" in
  let w' := (fake.Init "127.0.0.1" 8080 w).2 in
  ∃ evs,
    trace w' = trace w ++ evs ∧
    (∃ c pre, evs = pre ++ [Called c (Some "handler.Init failed")]) ∧
    (∀ c err, Called c err ∈ evs → tears_down c = false) ∧
    closes evs = [] ∧
    (Called stats_Init None ∈ evs → is_Some (stats (this w'))) ∧
    (Called socketeer_Init None ∈ evs → is_Some (socketeer (this w'))) ∧
    (Called handler_Init None ∈ evs → is_Some (handler (this w'))) ∧
    channels_open w'.
Proof.
  intros w.
  apply (Init_no_rollback fake.NewRawSocketeer fake.NewHandler fake.NewGenerator
           fake.NewServer "127.0.0.1" 8080 w "handler.Init failed").
  - by vm_compute.
  - vm_compute. reflexivity.
Defined.

Lemma Init_fails_fast_witness :
  let w := fake.fresh ["generator.New"] 5 "" in
  let res := (fake.Init "0.0.0.0" 80 w).1 in
  let w' := (fake.Init "0.0.0.0" 80 w).2 in
  ∃ evs,
    trace w' = trace w ++ evs ∧
    (∀ c err, Called c err ∈ evs → starts_loop c = false) ∧
    match res with
    | Ok r =>
        fail_fast (startup_steps (bound_receiver w')) evs r ∧
        (r = None → wired w')
    | Panic _ =>
        ∃ cs c cs',
          startup_steps (bound_receiver w') = cs ++ c :: cs' ∧
          evs = (λ c, Called c None) <$> (cs ++ [c]) ∧
          constructs c = true
    | Stuck => False
    end.
Proof.
  intros w.
  apply (Init_fails_fast fake.NewRawSocketeer fake.NewHandler fake.NewGenerator
           fake.NewServer "0.0.0.0" 80 w).
  by vm_compute.
Defined.

(** [Init] over the doubles: all steps, and a failure in the middle. *)
Example Init_all_steps :
  (fake.Init "127.0.0.1" 8080 (fake.fresh [] 5 "")).1 = Ok None ∧
  calls (trace (fake.ready [] 5 ""))
  = startup_steps (handler.ReceiveMessage fake.Responder) ∧
  (httpway.Addr <$> apiServer (this (fake.ready [] 5 ""))) = Some "127.0.0.1:8080".
Proof. by vm_compute. Qed.

Example Init_stops_at_socketeer :
  (fake.Init "127.0.0.1" 8080 (fake.fresh ["socketeer.Init"] 5 "")).1
  = Ok (Some "socketeer.Init failed") ∧
  trace (fake.ready ["socketeer.Init"] 5 "")
  = [Called stats_New None; Called stats_Init None;
     Called socketeer_NewRawSocketeer None;
     Called socketeer_Init (Some "socketeer.Init failed")] ∧
  handler (this (fake.ready ["socketeer.Init"] 5 "")) = None.
Proof. by vm_compute. Qed.

(** ** [Run] *)
Section RunFacts.

Context {Env : Type}.
Implicit Types (w : World Env) (evs : list (Event Env)) (l : list Thread).

(** Whatever the schedule and the collaborators, a [Run] that returns
    returns nil. *)
Lemma Run_result w r w' : Run w = (Ok r, w') → r = None.
Proof.
  unfold Run. intros H.
  repeat (apply bind_inv in H as (? & ? & _ & H)).
  by apply ret_inv in H as [<- _].
Qed.

Lemma frame_kept w w' evs : frame w w' evs → kept w w'.
Proof. intros []. by split. Qed.

Lemma kept_refl w : kept w w.
Proof. split; try done; apply grown_refl. Qed.

Lemma kept_trans w1 w2 w3 : kept w1 w2 → kept w2 w3 → kept w1 w3.
Proof. intros [] []. split; try congruence; by eapply grown_trans. Qed.

(** Steps that leave [h] alone. *)
Lemma kept_this w w' : this w' = this w → kept w w'.
Proof. intros H. split; rewrite H; try done; apply grown_refl. Qed.

Lemma kept_open w w' : kept w w' → channels_open w → channels_open w'.
Proof.
  intros [(Hl & _) (Hs & _) (He & _)] (? & ? & ?).
  unfold channels_open. by rewrite Hl, Hs, He.
Qed.

Lemma kept_bounded w w' : kept w w' → bounded w → bounded w'.
Proof.
  intros [(_ & _ & _ & Hl) (_ & _ & _ & Hs) (_ & _ & _ & He)] (? & ? & ?).
  unfold bounded. auto.
Qed.

Lemma kept_prompt w w' : kept w w' → prompt w → prompt w'.
Proof.
  intros K. unfold prompt.
  by rewrite (kept_handler _ _ K), (kept_generator _ _ K), (kept_stats_handle _ _ K),
    (kept_socketeer _ _ K), (kept_apiServer _ _ K).
Qed.

Lemma prompt_wired w : prompt w → wired w.
Proof.
  unfold prompt, wired.
  destruct (stats (this w)), (socketeer (this w)), (handler (this w)),
    (generator (this w)), (apiServer (this w)); try done.
  all: intros _; by eauto 10.
Qed.

(** *** The scheduler *)

Lemma run_until_main_sched l l0 w :
  run_until_main l (with_sched l0 w) = run_until_main l w.
Proof. by destruct l as [|[|g] l]. Qed.

Lemma step_live g w : g ∈ live w → step g w = quantum g w.
Proof. intros Hg. unfold step. rewrite gets_bind. by case_decide. Qed.

Lemma step_exited g w : g ∉ live w → step g w = (Ok (), w).
Proof. intros Hg. unfold step. rewrite gets_bind. by case_decide. Qed.

Lemma run_until_main_go g l w w1 :
  step g (with_sched l w) = (Ok (), w1) →
  run_until_main (Go g :: l) w = run_until_main l w1.
Proof.
  intros Hs. cbn [run_until_main]. rewrite modify_bind.
  by rewrite (bind_ok _ _ _ _ _ Hs).
Qed.

(** Quanta given to a goroutine that has returned change nothing. *)
Lemma run_until_main_exited g n l w :
  g ∉ live w → run_until_main (repeat (Go g) n ++ l) w = run_until_main l w.
Proof.
  intros Hg. induction n as [|n IH]; [done|]. cbn [repeat app].
  rewrite (run_until_main_go g _ w (with_sched (repeat (Go g) n ++ l) w)).
  - by rewrite run_until_main_sched.
  - by apply step_exited.
Qed.

Lemma await_ready {A} (poll : M Env (option A)) a w w' :
  poll w = (Ok (Some a), w') → await poll w = (Ok a, w').
Proof.
  intros Hp. unfold await. rewrite gets_bind.
  destruct (length (sched w)); cbn [await_for]; by rewrite (bind_ok _ _ _ _ _ Hp).
Qed.

(** A wait that ends after the others have run once. *)
Lemma await_once {A} (poll : M Env (option A)) a w w1 w2 :
  sched w ≠ [] →
  poll w = (Ok None, w) →
  yield w = (Ok (), w1) →
  poll w1 = (Ok (Some a), w2) →
  await poll w = (Ok a, w2).
Proof.
  intros Hs Hp Hy Hp1. unfold await. rewrite gets_bind.
  destruct (sched w) as [|t l]; [done|]. cbn [length await_for].
  rewrite (bind_ok _ _ _ _ _ Hp), (bind_ok _ _ _ _ _ Hy).
  destruct (length l); cbn [await_for]; by rewrite (bind_ok _ _ _ _ _ Hp1).
Qed.


(** *** The quanta *)

Lemma wg_Done_bind {R} (k : unit → M Env R) w :
  (0 < wg w)%Z → (wg_Done ≫= k) w = k () (with_wg (wg w + -1)%Z w).
Proof. intros Hwg. by rewrite (bind_ok _ _ _ _ _ (wg_Done_ok w Hwg)). Qed.

(** A runner whose loop returns when polled: it enters the return in the
    history, calls [wg.Done], logs, and exits. *)
Lemma runner_quantum {X} (field : World Env → option X) x
    (run : X → Env → Act (bool * Env)) c msg g w :
  field w = Some x → channels_open w →
  returns_at_once (λ r, r = true) (run x) → (0 < wg w)%Z →
  ∃ w',
    (o ← gets field; x ← deref o; returned ← call (run x);
     if returned : bool then
       record_event (Called c None);; wg_Done;; log_Print msg;; exit g
     else mret ()) w = (Ok (), w') ∧
    kept w w' ∧ wg w' = (wg w - 1)%Z ∧ live w' = filter (λ g', g' ≠ g) (live w).
Proof.
  intros Hx Ho Hrun Hwg. rewrite gets_bind, Hx. cbn [deref]. rewrite ret_bind.
  destruct (call_frame (run x) w Ho) as (returned & w1 & Ec & F & HP).
  assert (returned = true) as -> by apply (HP (λ r, r.1 = true)), Hrun.
  rewrite (bind_ok _ _ _ _ _ Ec), record_event_bind.
  rewrite wg_Done_bind by (cbn; rewrite (frame_wg _ _ _ F); lia).
  rewrite log_Print_bind. eexists. split; [reflexivity|]. cbn.
  split_and!.
  - apply (kept_trans _ w1); [by eapply frame_kept|]. by apply kept_this.
  - rewrite (frame_wg _ _ _ F). lia.
  - by rewrite (frame_live _ _ _ F).
Qed.

(** The generator's goroutine, once its loop returns: after it the three
    channels are closed and hold no more than they can, and it has exited. *)
Lemma generator_quantum w :
  prompt w → channels_open w → bounded w → (0 < wg w)%Z →
  ∃ w',
    quantum GeneratorRun w = (Ok (), w') ∧
    closed (errorChannel (this w')) = true ∧
    closed (logChannel (this w')) = true ∧
    closed (statsChannel (this w')) = true ∧
    length (buf (errorChannel (this w'))) ≤ cap (errorChannel (this w)) ∧
    length (buf (logChannel (this w'))) ≤ cap (logChannel (this w)) ∧
    length (buf (statsChannel (this w'))) ≤ cap (statsChannel (this w)) ∧
    wg w' = (wg w - 1)%Z ∧
    live w' = filter (λ g', g' ≠ GeneratorRun) (live w).
Proof.
  intros Hp Ho Hb Hwg. pose proof (prompt_wired w Hp) as Hw.
  unfold prompt in Hp.
  destruct (stats (this w)) as [s|], (socketeer (this w)) as [sk|],
    (handler (this w)) as [hd|], (generator (this w)) as [g|] eqn:Hg,
    (apiServer (this w)) as [srv|]; try done.
  destruct Hp as (_ & _ & _ & _ & Hrun & _).
  unfold quantum. rewrite gets_bind, Hg. cbn [deref]. rewrite ret_bind.
  destruct (call_frame (generator.Run g) w Ho) as (returned & w0 & Ec & F0 & HP).
  assert (returned = true) as -> by apply (HP (λ r, r.1 = true)), Hrun.
  rewrite (bind_ok _ _ _ _ _ Ec), record_event_bind, !log_Print_bind.
  match goal with |- context [(stop ≫= _) ?w1] => set (wa := w1) end.
  assert (Ka : kept w wa).
  { apply (kept_trans _ w0); [by eapply frame_kept|]. by apply kept_this. }
  assert (Hwga : wg wa = wg w) by apply (frame_wg _ _ _ F0).
  assert (Hla : live wa = live w) by apply (frame_live _ _ _ F0).
  clearbody wa.
  assert (Hwa : wired wa).
  { destruct Ka. unfold wired. by rewrite kept_handler0, kept_generator0,
      kept_stats_handle0, kept_socketeer0, kept_apiServer0. }
  destruct (stop_spec wa (kept_open _ _ Ka Ho) Hwa) as (w1 & w2 & evs & Es & F1 & Hshut & _).
  rewrite (bind_ok _ _ _ _ _ Es).
  assert (Hwg2 : wg w2 = wg w).
  { by rewrite (shut_wg _ _ Hshut), (frame_wg _ _ _ F1). }
  rewrite wg_Done_bind by lia.
  eexists. split; [reflexivity|]. cbn.
  pose proof (kept_trans _ _ _ Ka (frame_kept _ _ _ F1)) as K.
  destruct (kept_bounded _ _ K Hb) as (Hbl & Hbs & Hbe).
  destruct K as [(_ & Hcl & _) (_ & Hcs & _) (_ & Hce & _) _ _ _ _ _].
  rewrite (shut_error _ _ Hshut), (shut_log _ _ Hshut), (shut_stats _ _ Hshut). cbn.
  split_and!; try done; try lia.
  by rewrite (shut_live _ _ Hshut), (frame_live _ _ _ F1), Hla.
Qed.

(** A reader on a closed channel logs what is left, one message a
    quantum, then sees the end of the range and exits: [S m] quanta are
    enough when [m] bounds what is left. *)
Lemma reader_drains g (get : Hammer Env → chan string)
    (set : chan string → Hammer Env → Hammer Env) (line : string → string) msg :
  (∀ w, quantum g w =
        (c ← gets (λ w, get (this w));
         match range_next c with
         | Received x c' => modify (with_this (set c'));; log_Print (line x)
         | RangeEnd => wg_Done;; log_Print msg;; exit g
         | NotReady => mret ()
         end) w) →
  (∀ c h, get (set c h) = c) →
  (∀ c c' h, set c' (set c h) = set c' h) →
  (∀ h, set (get h) h = h) →
  ∀ m l w,
    closed (get (this w)) = true → length (buf (get (this w))) ≤ m →
    g ∈ live w → (0 < wg w)%Z →
    ∃ w',
      run_until_main (repeat (Go g) (S m) ++ l) w = run_until_main l w' ∧
      this w' = set (Chan [] (cap (get (this w))) true) (this w) ∧
      wg w' = (wg w - 1)%Z ∧
      live w' = filter (λ g', g' ≠ g) (live w).
Proof.
  intros Hq Hgs Hss Hsg m l.
  induction m as [|m IH]; intros w Hc Hlen Hg Hwg;
    (destruct (get (this w)) as [b n cl] eqn:Hch; cbn in Hc, Hlen; subst cl;
     destruct b as [|x b]; cbn in Hlen; [|try lia]).
  - (* nothing left, no quantum to spare *)
    cbn [repeat app].
    eexists. split.
    + apply run_until_main_go. rewrite step_live by done. rewrite Hq, gets_bind.
      cbn [this with_sched]. rewrite Hch. cbn [range_next buf closed].
      rewrite wg_Done_bind by done. by rewrite log_Print_bind.
    + cbn. split_and!; [|lia|done]. rewrite <- Hch. by rewrite Hsg.
  - (* nothing left, quanta to spare *)
    change (repeat (Go g) (S (S m)) ++ l) with (Go g :: (repeat (Go g) (S m) ++ l)).
    eexists. split.
    + erewrite run_until_main_go; last first.
      { rewrite step_live by done. rewrite Hq, gets_bind.
        cbn [this with_sched]. rewrite Hch. cbn [range_next buf closed].
        rewrite wg_Done_bind by done. by rewrite log_Print_bind. }
      apply run_until_main_exited. cbn. intros Hin.
      apply list_elem_of_filter in Hin. by destruct Hin.
    + cbn. split_and!; [|lia|done]. rewrite <- Hch. by rewrite Hsg.
  - (* a message left *)
    change (repeat (Go g) (S (S m)) ++ l) with (Go g :: (repeat (Go g) (S m) ++ l)).
    set (w1 := with_stdlog (stdlog w ++ [line x])
                 (with_this (set (Chan b n true))
                    (with_sched (repeat (Go g) (S m) ++ l) w))).
    destruct (IH w1) as (w' & Er & Ht & Hwg' & Hl').
    { cbn. by rewrite Hgs. }
    { cbn. rewrite Hgs. cbn. lia. }
    { done. }
    { done. }
    exists w'. split_and!.
    + rewrite <- Er. apply run_until_main_go.
      rewrite step_live by done. rewrite Hq, gets_bind.
      cbn [this with_sched]. rewrite Hch. cbn [range_next buf closed cap].
      by rewrite modify_bind.
    + rewrite Ht. cbn. by rewrite Hgs, Hss.
    + by rewrite Hwg'.
    + by rewrite Hl'.
Qed.


(** *** The goroutine that called [Run] *)

Lemma go_main g l w :
  sched w = Main :: l →
  go g w = (Ok (), with_sched l (with_live (live w ++ [g]) w)).
Proof.
  intros Hs. unfold go, yield, mbind, M_bind, bind, modify, gets. cbn [sched with_live].
  by rewrite Hs.
Qed.

Lemma wg_Add_bind {R} n (k : unit → M Env R) w :
  (0 ≤ wg w + n)%Z → (wg_Add n ≫= k) w = k () (with_wg (wg w + n)%Z w).
Proof.
  intros Hwg. unfold wg_Add. rewrite bind_assoc, gets_bind. case_decide; [lia|done].
Qed.

(** [log.Print; wg.Add(1); go ...] when [Main] keeps the processor. *)
Lemma spawn_main {R} s g (k : M Env R) l w :
  sched w = Main :: l → (0 ≤ wg w)%Z →
  (log_Print s;; wg_Add 1;; go g;; k) w
  = k (with_sched l (with_live (live w ++ [g])
         (with_wg (wg w + 1)%Z (with_stdlog (stdlog w ++ [s]) w)))).
Proof.
  intros Hs Hwg. rewrite log_Print_bind.
  rewrite wg_Add_bind by (cbn; lia).
  erewrite bind_ok; last first.
  { apply go_main. exact Hs. }
  reflexivity.
Qed.

Lemma kept_sched l w w' : kept (with_sched l w) w' → kept w w'.
Proof. intros []. by split. Qed.

Lemma kept_to_sched l w w' : kept w w' → kept w (with_sched l w').
Proof. intros []. by split. Qed.

(** [startApiServer] when [WaitStop] returns at the first poll. *)
Lemma startApiServer_prompt w :
  prompt w → channels_open w →
  ∃ w', startApiServer w = (Ok (), w') ∧ kept w w' ∧
    wg w' = wg w ∧ live w' = live w ∧ sched w' = sched w.
Proof.
  intros Hp Ho. unfold prompt in Hp.
  destruct (stats (this w)) as [s|], (socketeer (this w)) as [sk|],
    (handler (this w)) as [hd|], (generator (this w)) as [g|],
    (apiServer (this w)) as [srv|] eqn:Hsrv; try done.
  destruct Hp as (_ & _ & _ & _ & _ & Hwait).
  unfold startApiServer. rewrite gets_bind, Hsrv. cbn [deref]. rewrite ret_bind.
  destruct (invoke_frame apiServer_Start (httpway.Start srv) w Ho)
    as (err & w1 & E1 & F1 & _).
  rewrite (bind_ok _ _ _ _ _ E1).
  destruct (report_frame err w1 (frame_open _ _ _ F1 Ho)) as (w2 & evs2 & E2 & F2 & _).
  rewrite (bind_ok _ _ _ _ _ E2).
  pose proof (frame_trans _ _ _ _ _ F1 F2) as F12.
  rewrite gets_bind, (frame_apiServer _ _ _ F12), Hsrv. cbn [deref]. rewrite ret_bind.
  destruct (call_frame (httpway.WaitStop srv (seconds 2)) w2 (frame_open _ _ _ F12 Ho))
    as (r & w3 & E3 & F3 & HP).
  assert (is_Some r) as [err3 ->] by apply (HP (λ r, is_Some r.1)), Hwait.
  rewrite (bind_ok _ _ _ _ _ (await_ready _ _ _ _ E3)), record_event_bind.
  pose proof (frame_trans _ _ _ _ _ F12 F3) as F123.
  set (w4 := with_trace _ w3).
  assert (K4 : kept w w4).
  { apply (kept_trans _ w3); [by eapply frame_kept|]. by apply kept_this. }
  destruct (report_frame err3 w4 (kept_open _ _ K4 Ho)) as (w5 & evs5 & E5 & F5 & _).
  exists w5. split_and!; [exact E5| | | |].
  - apply (kept_trans _ w4); [done|]. by eapply frame_kept.
  - rewrite (frame_wg _ _ _ F5). cbn. by rewrite (frame_wg _ _ _ F123).
  - rewrite (frame_live _ _ _ F5). cbn. by rewrite (frame_live _ _ _ F123).
  - rewrite (frame_sched _ _ _ F5). cbn. by rewrite (frame_sched _ _ _ F123).
Qed.


(** One of the four loops gets its quantum and ends: [K], [Hwg] and [Hl]
    say what is known of the world before, and are left saying it of the
    world after. *)
Ltac runner_ends field x run c msg Hx Hrun K Hwg Hl Ho0 w1 :=
  lazymatch goal with
  | |- context [run_until_main (Go ?g :: ?l) ?wi] =>
      let E := fresh "E" in
      let K1 := fresh "K" in
      let Hwg1 := fresh "Hwg" in
      let Hl1 := fresh "Hl" in
      destruct (runner_quantum field x run c msg g (with_sched l wi))
        as (w1 & E & K1 & Hwg1 & Hl1);
      [cbn; rewrite <- Hx; first [apply (kept_stats_handle _ _ K)
                                 |apply (kept_socketeer _ _ K)
                                 |apply (kept_handler _ _ K)]
      |apply (kept_open _ _ K Ho0)
      |exact Hrun
      |cbn; rewrite Hwg; lia
      |];
      rewrite (run_until_main_go g l wi w1)
        by (rewrite step_live; [exact E|cbn; rewrite Hl; repeat constructor]);
      apply kept_sched in K1;
      cbn [wg live with_sched] in Hwg1, Hl1;
      rewrite Hwg in Hwg1; rewrite Hl in Hl1;
      pose proof (kept_trans _ _ _ K K1) as K1';
      clear K K1 Hwg Hl E;
      rename K1' into K; rename Hwg1 into Hwg; rename Hl1 into Hl
  end.

(** While [Main] waits on the group, the others end in the order of the
    schedule. *)
Lemma others_finish w0 w :
  prompt w0 → channels_open w0 → bounded w0 → kept w0 w →
  wg w = 8%Z →
  live w = [ErrorReader; StatsRun; WriterRun; HandlerRun; ListenerRun;
            LogReader; StatsReader; GeneratorRun] →
  sched w = drop 8 (orderly_schedule w0) →
  ∃ w', yield w = (Ok (), w') ∧ wg w' = 0%Z ∧ live w' = [].
Proof.
  intros Hp0 Ho0 Hb0 K Hwg Hl Hs.
  pose proof Hp0 as Hp. unfold prompt in Hp.
  destruct (stats (this w0)) as [s|] eqn:Hst, (socketeer (this w0)) as [sk|] eqn:Hsk,
    (handler (this w0)) as [hd|] eqn:Hhd, (generator (this w0)) as [g|] eqn:Hg,
    (apiServer (this w0)) as [srv|] eqn:Hsrv; try done.
  destruct Hp as (Hr1 & Hr2 & Hr3 & Hr4 & _ & _).
  unfold yield. rewrite gets_bind, Hs.
  change (drop 8 (orderly_schedule w0)) with
    (Go StatsRun :: Go WriterRun :: Go HandlerRun :: Go ListenerRun :: Go GeneratorRun
     :: (repeat (Go ErrorReader) (S (cap (errorChannel (this w0)))) ++
         repeat (Go LogReader) (S (cap (logChannel (this w0)))) ++
         repeat (Go StatsReader) (S (cap (statsChannel (this w0)))) ++ [Main])).
  runner_ends (λ w : World Env, stats (this w)) s (stats.Run (Env := Env)) (stats_Run (Env := Env))
    "INFO: Stopped stats." Hst Hr1 K Hwg Hl Ho0 w1.
  runner_ends (λ w : World Env, socketeer (this w)) sk (socketeer.RunWriter (Env := Env))
    (socketeer_RunWriter (Env := Env)) "INFO: Stopped writer." Hsk Hr2 K Hwg Hl Ho0 w2.
  runner_ends (λ w : World Env, handler (this w)) hd (handler.Run (Env := Env))
    (handler_Run (Env := Env)) "INFO: Stopped handler." Hhd Hr3 K Hwg Hl Ho0 w3.
  runner_ends (λ w : World Env, socketeer (this w)) sk (socketeer.RunListener (Env := Env))
    (socketeer_RunListener (Env := Env)) "INFO: Stopped listener." Hsk Hr4 K Hwg Hl Ho0 w4.
  (* the generator's goroutine *)
  lazymatch goal with
  | |- context [run_until_main (Go GeneratorRun :: ?l) w4] =>
      destruct (generator_quantum (with_sched l w4))
        as (w5 & E5 & Hce & Hcl & Hcs & Hbe & Hbl & Hbs & Hwg5 & Hl5);
      [apply (kept_prompt w0); [by apply kept_to_sched|exact Hp0]
      |apply (kept_open _ _ K Ho0)
      |apply (kept_bounded _ _ K Hb0)
      |cbn; rewrite Hwg; lia
      |];
      rewrite (run_until_main_go GeneratorRun l w4 w5)
        by (rewrite step_live; [exact E5|cbn; rewrite Hl; repeat constructor])
  end.
  cbn [wg live this with_sched] in Hwg5, Hl5, Hbe, Hbl, Hbs.
  rewrite Hwg in Hwg5. rewrite Hl in Hl5.
  destruct K as [(_ & Hcapl & _) (_ & Hcaps & _) (_ & Hcape & _) _ _ _ _ _].
  rewrite Hcape in Hbe. rewrite Hcapl in Hbl. rewrite Hcaps in Hbs.
  clear E5 Hwg Hl Hcapl Hcaps Hcape.
  (* the readers *)
  destruct (reader_drains ErrorReader errorChannel set_errorChannel
              (λ e, "ERROR: " +:+ e) "INFO: Stopped error channel reader."
              ltac:(done) ltac:(done) ltac:(done) ltac:(by intros [])
              (cap (errorChannel (this w0)))
              (repeat (Go LogReader) (S (cap (logChannel (this w0)))) ++
               repeat (Go StatsReader) (S (cap (statsChannel (this w0)))) ++ [Main])
              w5 Hce Hbe)
    as (w6 & E6 & Ht6 & Hwg6 & Hl6);
    [rewrite Hl5; repeat constructor|lia|].
  rewrite E6. clear E6.
  destruct (reader_drains LogReader logChannel set_logChannel
              (λ msg, "INFO: " +:+ msg) "INFO: Stopped log channel reader."
              ltac:(done) ltac:(done) ltac:(done) ltac:(by intros [])
              (cap (logChannel (this w0)))
              (repeat (Go StatsReader) (S (cap (statsChannel (this w0)))) ++ [Main])
              w6)
    as (w7 & E7 & Ht7 & Hwg7 & Hl7);
    [by rewrite Ht6|by rewrite Ht6
    |rewrite Hl6, Hl5; repeat constructor|lia|].
  rewrite E7. clear E7.
  destruct (reader_drains StatsReader statsChannel set_statsChannel
              (λ msg, msg) "INFO: Stopped stats channel reader."
              ltac:(done) ltac:(done) ltac:(done) ltac:(by intros [])
              (cap (statsChannel (this w0))) [Main] w7)
    as (w8 & E8 & Ht8 & Hwg8 & Hl8);
    [by rewrite Ht7, Ht6|by rewrite Ht7, Ht6
    |rewrite Hl7, Hl6, Hl5; repeat constructor|lia|].
  rewrite E8. clear E8.
  eexists. split; [reflexivity|]. cbn. split.
  - lia.
  - by rewrite Hl8, Hl7, Hl6, Hl5.
Qed.


(** [Run] under the orderly schedule, when no loop lingers. *)
Lemma Run_orderly w :
  prompt w → channels_open w → bounded w → live w = [] →
  ∃ w', Run (with_sched (orderly_schedule w) w) = (Ok None, w') ∧
    live w' = [] ∧ wg w' = 0%Z.
Proof.
  intros Hp Ho Hb Hl. unfold Run. rewrite modify_bind.
  do 8 (erewrite spawn_main; [|reflexivity|cbn; lia]).
  rewrite log_Print_bind.
  match goal with |- context [(startApiServer ≫= _) ?w1] => set (wa := w1) end.
  assert (Ka : kept w wa) by (by apply kept_this).
  assert (Hwga : wg wa = 8%Z) by done.
  assert (Hla : live wa = [ErrorReader; StatsRun; WriterRun; HandlerRun; ListenerRun;
                           LogReader; StatsReader; GeneratorRun])
    by (cbn; by rewrite Hl).
  assert (Hsa : sched wa = drop 8 (orderly_schedule w)) by done.
  clearbody wa.
  destruct (startApiServer_prompt wa (kept_prompt _ _ Ka Hp) (kept_open _ _ Ka Ho))
    as (wb & Eb & Kb & Hwgb & Hlb & Hsb).
  rewrite (bind_ok _ _ _ _ _ Eb), log_Print_bind.
  match goal with |- context [(wg_Wait ≫= _) ?w1] => set (wc := w1) end.
  assert (Kc : kept w wc).
  { apply (kept_trans _ wa); [done|]. apply (kept_trans _ wb); [done|]. by apply kept_this. }
  assert (Hwgc : wg wc = 8%Z) by (cbn; congruence).
  assert (Hlc : live wc = [ErrorReader; StatsRun; WriterRun; HandlerRun; ListenerRun;
                           LogReader; StatsReader; GeneratorRun])
    by (cbn; congruence).
  assert (Hsc : sched wc = drop 8 (orderly_schedule w))
    by (change (sched wb = drop 8 (orderly_schedule w)); congruence).
  clearbody wc.
  destruct (others_finish w wc Hp Ho Hb Kc Hwgc Hlc Hsc) as (wd & Ed & Hwgd & Hld).
  exists wd. split; [|done].
  erewrite bind_ok; [reflexivity|]. unfold wg_Wait.
  apply (await_once _ _ wc wd wd).
  - by rewrite Hsc.
  - rewrite gets_bind, Hwgc. by case_decide.
  - exact Ed.
  - rewrite gets_bind, Hwgd. by case_decide.
Qed.


End RunFacts.


(** [Run] over the doubles.  The generator ends its workload after two
    polls; the loops end once they are stopped; every goroutine is scheduled
    often enough: [Run] returns nil, although a step of the cascade failed. *)
Example Run_ends :
  let sch :=
    repeat Main 8 ++ [Go GeneratorRun; Go StatsRun; Main; Go GeneratorRun; Main;
                      Go GeneratorRun; Main] ++
    [Go StatsRun; Go WriterRun; Go HandlerRun; Go ListenerRun] ++
    repeat (Go ErrorReader) 2 ++ repeat (Go LogReader) 4 ++ repeat (Go StatsReader) 2 ++
    [Main] in
  let r := fake.Run (with_sched sch (fake.ready ["handler.Stop"] 2 "")) in
  r.1 = Ok None ∧ live r.2 = [] ∧
  "ERROR: handler.Stop failed" ∈ stdlog r.2.
Proof. vm_compute. split_and!; [done..|]. repeat constructor. Qed.

(** The generator does not end within the schedule: [Run] has not
    returned. *)
Example Run_waits :
  (fake.Run (with_sched (repeat Main 8 ++ [Go GeneratorRun; Main; Go StatsRun; Main])
               (fake.ready [] 9 ""))).1 = Stuck.
Proof. by vm_compute. Qed.

(** [WaitStop] returns an error when the cascade has already closed the
    error channel: the [addError] in [startApiServer] panics, and [Run] does
    not return at all. *)
Example Run_panics_on_late_error :
  (fake.Run (with_sched (repeat Main 8 ++ [Go GeneratorRun; Main])
               (fake.ready ["apiServer.WaitStop"] 0 ""))).1
  = Panic "send on closed channel".
Proof. by vm_compute. Qed.

(** ** One cascade at most *)
Section Phases.

Context {Env : Type}.
Implicit Types (w : World Env) (evs : list (Event Env)).

Lemma same_phase_refl w : same_phase w w.
Proof. by split. Qed.

Lemma same_phase_trans w1 w2 w3 : same_phase w1 w2 → same_phase w2 w3 → same_phase w1 w3.
Proof. intros [? ?] [? ?]. split; [congruence|by etrans]. Qed.

Lemma cascades_app evs1 evs2 : cascades (evs1 ++ evs2) = cascades evs1 + cascades evs2.
Proof.
  induction evs1 as [|[[] ?| |] evs1 IH]; cbn; lia.
Qed.

Lemma stutters_ret {A} (a : A) : stutters (Env := Env) (mret a).
Proof. intros w. apply same_phase_refl. Qed.

Lemma stutters_panic {A} msg : stutters (Env := Env) (A := A) (panic msg).
Proof. intros w. apply same_phase_refl. Qed.

Lemma stutters_stuck {A} : stutters (Env := Env) (A := A) stuck.
Proof. intros w. apply same_phase_refl. Qed.

Lemma stutters_gets {A} (f : World Env → A) : stutters (gets f).
Proof. intros w. apply same_phase_refl. Qed.

Lemma stutters_modify (f : World Env → World Env) :
  (∀ w, trace (f w) = trace w ∧ live (f w) = live w) → stutters (modify f).
Proof. intros Hf w. destruct (Hf w) as [Ht Hl]. cbn. split; by rewrite ?Ht, ?Hl. Qed.

Lemma stutters_bind {A B} (m : M Env A) (f : A → M Env B) :
  stutters m → (∀ a, stutters (f a)) → stutters (m ≫= f).
Proof.
  intros Hm Hf w. specialize (Hm w). unfold mbind, M_bind, bind.
  destruct (m w) as [[a|msg|] w1]; cbn in *; [|done..].
  eapply same_phase_trans; [exact Hm|apply Hf].
Qed.


Lemma stutters_update (f : World Env → World Env) :
  (∀ w, same_phase w (f w)) → stutters (modify f).
Proof. intros Hf w. apply Hf. Qed.

Lemma stutters_record_event (ev : Event Env) :
  cascades [ev] = 0 → stutters (record_event ev).
Proof.
  intros Hev. apply stutters_update. intros w. split; [|done]. cbn.
  rewrite cascades_app. lia.
Qed.

Lemma stutters_deref {A} (p : option A) : stutters (Env := Env) (deref p).
Proof. destruct p; [apply stutters_ret|apply stutters_panic]. Qed.

Create HintDb stutter discriminated.

Hint Resolve stutters_ret stutters_panic stutters_stuck stutters_gets
  stutters_deref : stutter.
Hint Extern 1 (@stutters _ _ (mbind _ _)) => apply stutters_bind; [|intros ?] : stutter.
Hint Extern 1 (@stutters _ _ (modify _)) =>
  apply stutters_modify; intros ?; split; reflexivity : stutter.
Hint Extern 1 (@stutters _ _ (log_Print _)) =>
  apply stutters_modify; intros ?; split; reflexivity : stutter.
Hint Extern 1 (@stutters _ _ (record_event _)) =>
  apply stutters_record_event; reflexivity : stutter.
Hint Extern 2 (@stutters _ _ (match ?x with _ => _ end)) => destruct x : stutter.

Lemma stutters_sender via msg : stutters (Env := Env) (sender via msg).
Proof.
  destruct via; cbn [sender]; unfold addLog, addStats, addError;
    (apply stutters_bind; [auto with stutter|]); intros c;
    destruct (select_send c msg) as [[[] c']| |]; auto with stutter.
Qed.

Lemma stutters_perform {A} (t : Act A) : stutters (Env := Env) (perform t).
Proof.
  induction t as [a|via msg k IH]; cbn [perform]; [apply stutters_ret|].
  apply stutters_bind; [|done]. rewrite send_sender. apply stutters_sender.
Qed.

Lemma stutters_call {R} (m : Env → Act (R * Env)) : stutters (call m).
Proof.
  unfold call. apply stutters_bind; [auto with stutter|]. intros e.
  apply stutters_bind; [apply stutters_perform|]. intros [r e'].
  auto with stutter.
Qed.

Lemma stutters_invoke c (m : Env → Act (option error * Env)) :
  (∀ err, cascades [Called (Env := Env) c err] = 0) → stutters (invoke c m).
Proof.
  intros Hc. unfold invoke. apply stutters_bind; [apply stutters_call|]. intros err.
  apply stutters_bind; [by apply stutters_record_event|]. auto with stutter.
Qed.

Lemma stutters_report err : stutters (Env := Env) (report err).
Proof.
  destruct err as [e|]; cbn [report]; [|apply stutters_ret].
  apply stutters_bind; [apply (stutters_sender AddError)|]. intros sent.
  by apply stutters_record_event.
Qed.

Lemma stutters_wg_Add n : stutters (Env := Env) (wg_Add n).
Proof.
  unfold wg_Add. apply stutters_bind; [auto with stutter|]. intros c.
  case_decide; auto with stutter.
Qed.

Lemma stutters_exit g : g ≠ GeneratorRun → stutters (Env := Env) (exit g).
Proof.
  intros Hg. apply stutters_update. intros w. split; [done|]. cbn.
  rewrite list_elem_of_filter. split; [by intros [_ ?]|]. intros Hin. split; [|done].
  by intros <-.
Qed.

Lemma stutters_close ch : stutters (Env := Env) (close ch).
Proof.
  unfold close. apply stutters_bind; [auto with stutter|]. intros h.
  apply stutters_bind; [|intros ?; by apply stutters_record_event].
  destruct ch; destruct (close_chan _) as [c| |]; auto with stutter.
Qed.

Hint Resolve stutters_sender stutters_perform stutters_call stutters_report
  stutters_wg_Add stutters_close : stutter.
Hint Extern 1 (@stutters _ _ (invoke _ _)) =>
  apply stutters_invoke; intros ?; reflexivity : stutter.
Hint Extern 1 (@stutters _ _ wg_Done) => apply stutters_wg_Add : stutter.
Hint Extern 1 (@stutters _ _ (exit _)) => apply stutters_exit; discriminate : stutter.

Lemma stutters_deInit : stutters (Env := Env) deInit.
Proof. unfold deInit. auto 40 with stutter. Qed.


(** The goroutines other than the generator's leave the phase alone. *)
Lemma stutters_quantum g : g ≠ GeneratorRun → stutters (Env := Env) (quantum g).
Proof.
  intros Hg. destruct g; try done; unfold quantum;
    (apply stutters_bind; [auto with stutter|]); intros o.
  1, 6, 7: destruct (range_next o) as [x c'| |]; auto 10 with stutter.
  all: apply stutters_bind; [auto with stutter|]; intros x;
    apply stutters_bind; [auto with stutter|]; intros [];
    auto 10 with stutter.
Qed.

(** *** [stop] begins one cascade *)

Lemma begins_then {A B} (m : M Env A) (f : A → M Env B) :
  begins_cascade m → (∀ a, stutters (f a)) → begins_cascade (m ≫= f).
Proof.
  intros Hm Hf w. destruct (Hm w) as (Hl & Hle & Heq).
  unfold mbind, M_bind, bind. destruct (m w) as [[a|msg|] w1]; cbn in *.
  - destruct (Hf a w1) as [Hc Hl']. rewrite Hc. split_and!; [by etrans|done|].
    intros _. apply Heq. by eexists.
  - split_and!; [done..|]. by intros [? ?].
  - split_and!; [done..|]. by intros [? ?].
Qed.

Lemma then_begins {A B} (m : M Env A) (f : A → M Env B) :
  stutters m → (∀ a, begins_cascade (f a)) → begins_cascade (m ≫= f).
Proof.
  intros Hm Hf w. destruct (Hm w) as [Hc Hl].
  unfold mbind, M_bind, bind. destruct (m w) as [[a|msg|] w1]; cbn in *.
  - destruct (Hf a w1) as (Hl' & Hle & Heq). rewrite <- Hc.
    split_and!; [by etrans|done..].
  - split_and!; [done|lia|]. by intros [? ?].
  - split_and!; [done|lia|]. by intros [? ?].
Qed.

Lemma begins_stop : begins_cascade (Env := Env) stop.
Proof.
  unfold stop. apply begins_then; [|intros err; auto 60 using stutters_deInit with stutter].
  unfold stopApiServer.
  apply then_begins; [auto with stutter|]. intros o.
  apply then_begins; [auto with stutter|]. intros srv.
  apply begins_then; [|intros [e|]; auto with stutter].
  unfold invoke. apply then_begins; [auto with stutter|]. intros err.
  apply begins_then; [|auto with stutter].
  intros w. cbn. rewrite cascades_app. cbn. split_and!; [done|lia|]. intros _. lia.
Qed.

(** *** Triples *)

Lemma triple_bind {A B} P Q Q' R (m : M Env A) (f : A → M Env B) :
  triple P m Q R → (∀ a, triple Q (f a) Q' R) → triple P (m ≫= f) Q' R.
Proof.
  intros Hm Hf w HP. specialize (Hm w HP).
  unfold mbind, M_bind, bind. destruct (m w) as [[a|msg|] w1]; cbn in *; [|done..].
  by apply Hf.
Qed.

Lemma triple_weaken {A} (P P' Q Q' R R' : World Env → Prop) (m : M Env A) :
  triple P m Q R →
  (∀ w, P' w → P w) → (∀ w, Q w → Q' w) → (∀ w, R w → R' w) →
  triple P' m Q' R'.
Proof.
  intros Hm HP HQ HR w HP'. specialize (Hm w (HP w HP')).
  destruct (m w).1; auto.
Qed.

(** Code that stutters keeps whatever depends on the phase only. *)
Lemma triple_stutters {A} (P : World Env → Prop) (m : M Env A) :
  (∀ w w', same_phase w w' → P w → P w') → stutters m → triple P m P P.
Proof.
  intros HP Hm w Hw. specialize (Hm w). destruct (m w).1; by eapply HP.
Qed.

Lemma once_phase w w' : same_phase w w' → once w → once w'.
Proof. intros [Hc Hl]. unfold once. rewrite Hc, Hl. tauto. Qed.

Lemma unstarted_phase w w' : same_phase w w' → unstarted w → unstarted w'.
Proof. intros [Hc Hl]. unfold unstarted. rewrite Hc, Hl. tauto. Qed.

Lemma once_at_most w : once w → at_most_once w.
Proof. unfold once, at_most_once. lia. Qed.

Lemma unstarted_once w : unstarted w → once w.
Proof. intros [? _]. by left. Qed.

Lemma triple_once {A} (m : M Env A) : stutters m → triple once m once at_most_once.
Proof.
  intros Hm.
  eapply triple_weaken; [exact (triple_stutters once m once_phase Hm)|done..|].
  apply once_at_most.
Qed.

Lemma triple_unstarted {A} (m : M Env A) :
  stutters m → triple unstarted m unstarted at_most_once.
Proof.
  intros Hm.
  eapply triple_weaken; [exact (triple_stutters unstarted m unstarted_phase Hm)|done..|].
  intros w Hw. by apply once_at_most, unstarted_once.
Qed.

(** The generator's goroutine, no cascade having been made: it makes
    none, or one and exits. *)
Lemma triple_generator_quantum :
  triple (Env := Env) (λ w, cascades (trace w) = 0) (quantum GeneratorRun)
    once at_most_once.
Proof.
  pose (none := λ w : World Env, cascades (trace w) = 0).
  pose (one := λ w : World Env, cascades (trace w) = 1).
  assert (Hnone : ∀ A (m : M Env A), stutters m → triple none m none at_most_once).
  { intros A m Hm. eapply triple_weaken; [apply (triple_stutters none m)|done..|].
    - intros w w' [Hc _]. unfold none. congruence.
    - exact Hm.
    - unfold none, at_most_once. intros w. lia. }
  assert (Hone : ∀ A (m : M Env A), stutters m → triple one m one at_most_once).
  { intros A m Hm. eapply triple_weaken; [apply (triple_stutters one m)|done..|].
    - intros w w' [Hc _]. unfold one. congruence.
    - exact Hm.
    - unfold one, at_most_once. intros w. lia. }
  unfold quantum. fold none.
  eapply triple_bind; [apply Hnone; auto with stutter|]. intros o.
  eapply triple_bind; [apply Hnone; auto with stutter|]. intros g.
  eapply triple_bind; [apply Hnone; auto with stutter|]. intros [].
  - eapply triple_bind; [apply Hnone; auto with stutter|]. intros _.
    eapply triple_bind; [apply Hnone; auto with stutter|]. intros _.
    eapply triple_bind; [apply Hnone; auto with stutter|]. intros _.
    eapply (triple_bind _ one).
    { intros w Hw. destruct (begins_stop w) as (_ & Hle & Heq).
      unfold none, one, at_most_once in *.
      destruct (stop w).1 eqn:E; [|lia..]. rewrite Heq; [lia|]. by eexists. }
    intros _.
    eapply triple_bind; [apply Hone; auto with stutter|]. intros _.
    intros w Hw.
    change (once (with_live (filter (λ g', g' ≠ GeneratorRun) (live w)) w)).
    right. split; [exact Hw|]. cbn [live with_live].
    rewrite list_elem_of_filter. by intros [? _].
  - eapply triple_weaken; [apply Hnone, stutters_ret|done| |done].
    intros w Hw. by left.
Qed.

Lemma triple_step_once g : triple (Env := Env) once (step g) once at_most_once.
Proof.
  destruct (decide (g = GeneratorRun)) as [->|Hg].
  - intros w Hw. unfold step. rewrite gets_bind. case_decide as Hin.
    + apply triple_generator_quantum. by destruct Hw as [?|[_ ?]].
    + done.
  - apply triple_once. unfold step. apply stutters_bind; [auto with stutter|].
    intros l. case_decide; [by apply stutters_quantum|apply stutters_ret].
Qed.

Lemma triple_step_unstarted g :
  triple (Env := Env) unstarted (step g) unstarted at_most_once.
Proof.
  destruct (decide (g = GeneratorRun)) as [->|Hg].
  - intros w Hw. unfold step. rewrite gets_bind. case_decide as Hin; [|done].
    by destruct Hw.
  - apply triple_unstarted. unfold step. apply stutters_bind; [auto with stutter|].
    intros l. case_decide; [by apply stutters_quantum|apply stutters_ret].
Qed.


Lemma triple_run_until_main_once l :
  triple (Env := Env) once (run_until_main l) once at_most_once.
Proof.
  induction l as [|[|g] l IH]; cbn [run_until_main];
    [apply triple_once; auto with stutter..|].
  eapply triple_bind; [apply triple_once; auto with stutter|]. intros _.
  eapply triple_bind; [apply triple_step_once|]. intros _. exact IH.
Qed.

Lemma triple_run_until_main_unstarted l :
  triple (Env := Env) unstarted (run_until_main l) unstarted at_most_once.
Proof.
  induction l as [|[|g] l IH]; cbn [run_until_main];
    [apply triple_unstarted; auto with stutter..|].
  eapply triple_bind; [apply triple_unstarted; auto with stutter|]. intros _.
  eapply triple_bind; [apply triple_step_unstarted|]. intros _. exact IH.
Qed.

Lemma triple_yield_once : triple (Env := Env) once yield once at_most_once.
Proof.
  unfold yield. eapply triple_bind; [apply triple_once; auto with stutter|].
  intros l. apply triple_run_until_main_once.
Qed.

Lemma triple_yield_unstarted : triple (Env := Env) unstarted yield unstarted at_most_once.
Proof.
  unfold yield. eapply triple_bind; [apply triple_unstarted; auto with stutter|].
  intros l. apply triple_run_until_main_unstarted.
Qed.

Lemma triple_await {A} (poll : M Env (option A)) :
  stutters poll → triple once (await poll) once at_most_once.
Proof.
  intros Hp. unfold await.
  eapply triple_bind; [apply triple_once; auto with stutter|]. intros l.
  induction (length l) as [|n IH]; cbn [await_for].
  - eapply triple_bind; [by apply triple_once|]. intros [a|];
      apply triple_once; auto with stutter.
  - eapply triple_bind; [by apply triple_once|]. intros [a|];
      [apply triple_once; auto with stutter|].
    eapply triple_bind; [apply triple_yield_once|]. intros _. exact IH.
Qed.

(** Starting one of the other seven goroutines. *)
Lemma triple_go g :
  g ≠ GeneratorRun → triple (Env := Env) unstarted (go g) unstarted at_most_once.
Proof.
  intros Hg. unfold go. eapply triple_bind; [|intros _; apply triple_yield_unstarted].
  apply triple_unstarted, stutters_update. intros w. split; [done|]. cbn.
  rewrite elem_of_app, list_elem_of_singleton. split; [|by left].
  intros [?|?]; [done|]. by subst.
Qed.

(** Starting the generator's goroutine. *)
Lemma triple_go_generator :
  triple (Env := Env) unstarted (go GeneratorRun) once at_most_once.
Proof.
  unfold go. eapply (triple_bind _ once); [|intros _; apply triple_yield_once].
  intros w [Hc _]. cbn. by left.
Qed.

Lemma triple_startApiServer : triple (Env := Env) once startApiServer once at_most_once.
Proof.
  unfold startApiServer.
  eapply triple_bind; [apply triple_once; auto with stutter|]. intros o.
  eapply triple_bind; [apply triple_once; auto with stutter|]. intros srv.
  eapply triple_bind; [apply triple_once; auto with stutter|]. intros err.
  eapply triple_bind; [apply triple_once; auto with stutter|]. intros _.
  eapply triple_bind; [apply triple_once; auto with stutter|]. intros o'.
  eapply triple_bind; [apply triple_once; auto with stutter|]. intros srv'.
  eapply triple_bind; [apply triple_await; auto with stutter|]. intros err'.
  eapply triple_bind; [apply triple_once; auto with stutter|]. intros _.
  apply triple_once; auto with stutter.
Qed.

(** [log.Print; wg.Add(1); go ...] for one of the other seven, and what
    follows. *)
Lemma triple_spawn {A} s g (k : M Env A) Q :
  g ≠ GeneratorRun →
  triple unstarted k Q at_most_once →
  triple unstarted (log_Print s;; wg_Add 1;; go g;; k) Q at_most_once.
Proof.
  intros Hg Hk.
  eapply triple_bind; [apply triple_unstarted; auto with stutter|]. intros _.
  eapply triple_bind; [apply triple_unstarted; auto with stutter|]. intros _.
  eapply triple_bind; [by apply triple_go|]. intros _. exact Hk.
Qed.

(** Whatever the schedule and the collaborators, and however it ends, a
    [Run] begins one cascade at most. *)
Lemma Run_once w : unstarted w → at_most_once (Run w).2.
Proof.
  intros Hw.
  assert (H : triple (Env := Env) unstarted Run once at_most_once).
  { unfold Run.
    eapply triple_bind; [apply triple_unstarted; auto with stutter|]. intros _.
    do 7 (apply triple_spawn; [done|]).
    eapply triple_bind; [apply triple_unstarted; auto with stutter|]. intros _.
    eapply triple_bind; [apply triple_unstarted; auto with stutter|]. intros _.
    eapply triple_bind; [apply triple_go_generator|]. intros _.
    eapply triple_bind; [apply triple_once; auto with stutter|]. intros _.
    eapply triple_bind; [apply triple_startApiServer|]. intros _.
    eapply triple_bind; [apply triple_once; auto with stutter|]. intros _.
    eapply triple_bind; [apply triple_await; auto with stutter|]. intros _.
    apply triple_once; auto with stutter. }
  specialize (H w Hw). destruct (Run w).1; [by apply once_at_most|done..].
Qed.


(** C1. When the generator's [Run] returns, its goroutine makes the cascade
    once and exits: the control-plane server is stopped, then
    [StopListener], [Handler.Stop], [StopWriter], [Statistics.Stop], then
    [DeInit] on the four subsystems, each called exactly once and in this
    order, and then the three channels are closed.  A step that returns an
    error is followed at once by [addError] of that error (the error channel
    takes it unless it is at capacity), and the next step is made all the
    same.  While [Run] has not returned, nothing is torn down.  And in a
    whole [Run], under every schedule and whatever the collaborators do, the
    cascade is begun once at most. *)
Theorem generator_return_tears_down :
  (∀ w g,
     channels_open w → wired w → generator (this w) = Some g → (0 < wg w)%Z →
     ∃ returned w0,
       call (generator.Run g) w = (Ok returned, w0) ∧
       if returned : bool then
         ∃ w' evs,
           quantum GeneratorRun w = (Ok (), w') ∧
           trace w' = trace w ++ Called generator_Run None :: evs
                        ++ [Closed errorChannel_; Closed logChannel_;
                            Closed statsChannel_] ∧
           best_effort (buf (errorChannel (this w'))) (cap (errorChannel (this w)))
             teardown_steps evs ∧
           calls evs = teardown_steps ∧ closes evs = [] ∧
           closed (errorChannel (this w')) = true ∧
           closed (logChannel (this w')) = true ∧
           closed (statsChannel (this w')) = true ∧
           GeneratorRun ∉ live w'
       else
         quantum GeneratorRun w = (Ok (), w0) ∧ trace w0 = trace w ∧
         channels_open w0) ∧
  (∀ w : World Env, unstarted w → at_most_once (Run w).2).
Proof. split; [apply generator_quantum_cascade|apply Run_once]. Qed.

End Phases.

Lemma generator_return_tears_down_witness :
  (let w := with_live [GeneratorRun] (with_wg 1 (fake.ready ["handler.Stop"] 0 "")) in
   ∃ returned w0,
     call (generator.Run fake.Source) w = (Ok returned, w0) ∧
     if returned : bool then
       ∃ w' evs,
         quantum GeneratorRun w = (Ok (), w') ∧
         trace w' = trace w ++ Called generator_Run None :: evs
                      ++ [Closed errorChannel_; Closed logChannel_; Closed statsChannel_] ∧
         best_effort (buf (errorChannel (this w'))) (cap (errorChannel (this w)))
           teardown_steps evs ∧
         calls evs = teardown_steps ∧ closes evs = [] ∧
         closed (errorChannel (this w')) = true ∧
         closed (logChannel (this w')) = true ∧
         closed (statsChannel (this w')) = true ∧
         GeneratorRun ∉ live w'
     else
       quantum GeneratorRun w = (Ok (), w0) ∧ trace w0 = trace w ∧ channels_open w0) ∧
  (let w := with_trace []
              (with_sched (repeat Main 8 ++ [Go GeneratorRun; Go GeneratorRun; Main;
                                             Go GeneratorRun; Main])
                 (fake.ready [] 1 "")) in
   at_most_once (Run w).2).
Proof.
  split; intros w.
  - apply (proj1 generator_return_tears_down w fake.Source).
    + by vm_compute.
    + repeat split; eexists; vm_compute; reflexivity.
    + vm_compute. reflexivity.
    + by vm_compute.
  - apply (proj2 generator_return_tears_down w). split; [reflexivity|].
    apply not_elem_of_nil.
Defined.

(** The generator's goroutine is given three quanta: the first poll finds
    the loop running, the second makes the cascade, the third finds the
    goroutine gone. *)
Example Run_tears_down_once :
  let w := with_trace []
             (with_sched (repeat Main 8 ++ [Go GeneratorRun; Go GeneratorRun; Main;
                                            Go GeneratorRun; Main])
                (fake.ready [] 1 "")) in
  calls (trace (fake.Run w).2)
  = [apiServer_Start; generator_Run] ++ teardown_steps ++ [apiServer_WaitStop].
Proof. by vm_compute. Qed.

(** * Further properties *)

(** ** More on the registry and on startup *)
Section RegistryMore.

Context {Env : Type}.
Implicit Types (reg : gmap string (stats.Statter Env)) (f : stats.Statter Env).

(** X1. [AddStatter] never overwrites and never removes: a name other than
    the one registered, and the registered name when it was taken, has the
    factory it had, so [stats.New] for such a type gives what it gave; and
    only the registered name can be new in the registry. *)
Theorem AddStatter_keeps_others s f reg s' :
  (s' ≠ s ∨ is_Some (reg !! s') →
     (stats.AddStatter s f reg).2 !! s' = reg !! s' ∧
     ∀ o logFunc errFunc,
       config.HammerType o = s' →
       stats.New o logFunc errFunc (stats.AddStatter s f reg).2
       = stats.New o logFunc errFunc reg) ∧
  (is_Some ((stats.AddStatter s f reg).2 !! s') → s' = s ∨ is_Some (reg !! s')).
Proof.
  unfold stats.AddStatter. destruct (reg !! s) as [g|] eqn:Hs; cbn [snd].
  - split; [|by right]. intros _. split; [done|]. by intros.
  - split.
    + intros Hs'. assert (Hne : s ≠ s').
      { intros <-. destruct Hs' as [?|[? ?]]; [done|congruence]. }
      assert (Hl : (<[s := f]> reg) !! s' = reg !! s') by by apply lookup_insert_ne.
      split; [done|]. intros o logFunc errFunc <-.
      unfold stats.New, stats.Statter in *. by rewrite Hl.
    + destruct (decide (s' = s)) as [->|Hne]; [by left|].
      rewrite lookup_insert_ne by done. by right.
Qed.

End RegistryMore.

Lemma AddStatter_keeps_others_witness :
  (stats.AddStatter "dhcpv6" (λ _, None) fake.registry).2 !! "dhcpv4"
  = fake.registry !! "dhcpv4".
Proof.
  refine (proj1 (proj1 (AddStatter_keeps_others "dhcpv6" (λ _, None) fake.registry
                          "dhcpv4") _)).
  left. discriminate.
Defined.

Section StartupMore.

Context {Env : Type}.
Variable NewRawSocketeer :
  config.SocketeerOptions → Sender → Sender →
  Env → Act (socketeer.RawSocketeer Env * Env).
Variable NewHandler :
  option (socketeer.RawSocketeer Env) → config.HammerConfig → Sender → Sender →
  (stats.StatValue → Env → Act (bool * Env)) →
  Env → Act ((option (handler.Handler Env) * option error) * Env).
Variable NewGenerator :
  option (socketeer.RawSocketeer Env) → config.HammerConfig → Sender → Sender →
  (stats.StatValue → Env → Act (bool * Env)) →
  Env → Act ((option (generator.Generator Env) * option error) * Env).
Variable NewServer : Env → Act (httpway.Server Env * Env).
Implicit Types (w : World Env) (evs : list (Event Env)).

Local Abbreviation Init :=
  (hammer.Init NewRawSocketeer NewHandler NewGenerator NewServer).

(** X2. A hammer type no factory is registered for: [stats.New] returns no
    object and the not-found error, and [Init] returns that error at once.
    Nothing was constructed and no collaborator was called; [h.stats] is
    nil, the log flags are [LstdFlags|LUTC], and the rest of the world is as
    it was. *)
Theorem Init_unknown_type apiAddr apiPort w :
  statters w !! config.HammerType (options (this w)) = None →
  let e := "Statters - Hammer type not found: "
           +:+ config.HammerType (options (this w)) in
  stats.New (options (this w)) AddStats AddError (statters w) = (None, Some e) ∧
  Init apiAddr apiPort w
  = (Ok (Some e),
     with_trace (trace w ++ [Called stats_New (Some e)])
       (with_this (set_stats None) (with_logFlags (Z.lor log_LstdFlags log_LUTC) w))).
Proof.
  intros Hs e.
  assert (HN : stats.New (options (this w)) AddStats AddError (statters w)
               = (None, Some e)).
  { unfold stats.New, stats.Statter in *. by rewrite Hs. }
  split; [exact HN|].
  unfold hammer.Init. rewrite modify_bind, !gets_bind.
  change (options (this (with_logFlags _ w))) with (options (this w)).
  change (statters (with_logFlags _ w)) with (statters w).
  by rewrite HN.
Qed.

(** What [initApiServer] leaves when it returns: the server
    [httpway.NewServer] made, with the two routes and the address. *)
Lemma initApiServer_inv apiAddr apiPort w w' :
  initApiServer NewServer apiAddr apiPort w = (Ok (), w') →
  ∃ srv,
    apiServer (this w') = Some srv ∧
    httpway.Addr srv = apiAddr +:+ ":" +:+ pretty apiPort ∧
    httpway.Handler srv
    = [("GET", "/stats", statsHandle); ("PUT", "/update", updateHandle)] ∧
    last (trace w') = Some (Called httpway_NewServer None).
Proof.
  unfold initApiServer. intros H. apply bind_inv in H as (srv & w1 & _ & H).
  rewrite record_event_bind in H. injection H as <-.
  eexists. split; [reflexivity|]. cbn. split_and!; [done..|]. apply last_snoc.
Qed.

(** Drops what [Init] did before the step [H] is at. *)
Ltac init_skip H :=
  repeat first
    [ rewrite modify_bind in H
    | rewrite gets_bind in H
    | rewrite record_event_bind in H
    | rewrite ret_bind in H
    | lazymatch type of H with
      | (initApiServer _ _ _ ≫= _) _ = _ => fail
      | (_ ≫= _) _ = _ => apply bind_inv in H as (? & ? & _ & H); cbn beta in H
      end
    | lazymatch type of H with
      | context [match ?x with _ => _ end] =>
          destruct x; try (by apply ret_inv in H as [? _]); try done
      end ].

(** X3. When [Init] returns nil, the API server is prepared: [h.apiServer]
    is set, its address is the given address, a colon and the port in
    decimal, and its router has the two routes [GET /stats] and
    [PUT /update]; making that server was the last thing [Init] did. *)
Theorem Init_prepares_api apiAddr apiPort w w' :
  Init apiAddr apiPort w = (Ok None, w') →
  ∃ srv,
    apiServer (this w') = Some srv ∧
    httpway.Addr srv = apiAddr +:+ ":" +:+ pretty apiPort ∧
    httpway.Handler srv
    = [("GET", "/stats", statsHandle); ("PUT", "/update", updateHandle)] ∧
    last (trace w') = Some (Called httpway_NewServer None).
Proof.
  unfold hammer.Init. intros H. init_skip H.
  apply bind_inv in H as ([] & wz & Hi & H). apply ret_inv in H as [_ <-].
  by apply initApiServer_inv in Hi.
Qed.

End StartupMore.

Lemma Init_unknown_type_witness :
  let w := boot fake.opts {| config.HammerType := "dhcpv6" |} (fake.script [] 0 "")
             fake.registry in
  fake.Init "127.0.0.1" 8080 w
  = (Ok (Some "Statters - Hammer type not found: dhcpv6"),
     with_trace [Called stats_New (Some "Statters - Hammer type not found: dhcpv6")]
       (with_this (set_stats None) (with_logFlags 35 w))).
Proof.
  intros w.
  refine (proj2 (Init_unknown_type fake.NewRawSocketeer fake.NewHandler fake.NewGenerator
                   fake.NewServer "127.0.0.1" 8080 w _)).
  vm_compute. reflexivity.
Defined.

Lemma Init_prepares_api_witness :
  let w' := fake.ready [] 5 "" in
  ∃ srv,
    apiServer (this w') = Some srv ∧
    httpway.Addr srv = "127.0.0.1" +:+ ":" +:+ pretty 8080%Z ∧
    httpway.Handler srv
    = [("GET", "/stats", statsHandle); ("PUT", "/update", updateHandle)] ∧
    last (trace w') = Some (Called httpway_NewServer None).
Proof.
  intros w'.
  apply (Init_prepares_api fake.NewRawSocketeer fake.NewHandler fake.NewGenerator
           fake.NewServer "127.0.0.1" 8080 (fake.fresh [] 5 "") w').
  vm_compute. reflexivity.
Defined.

(** ** More on the senders *)
Section SenderMore.

Context {Env : Type}.
Implicit Types (w : World Env).

Lemma fanin_set_fanin via c (h : Hammer Env) : fanin via (set_fanin via c h) = c.
Proof. by destruct via. Qed.

Lemma set_fanin_twice via c c' w :
  with_this (set_fanin via c') (with_this (set_fanin via c) w)
  = with_this (set_fanin via c') w.
Proof. by destruct via. Qed.

Lemma set_fanin_same via w : with_this (set_fanin via (fanin via (this w))) w = w.
Proof. destruct w as [[] ? ? ? ? ? ? ? ?]. by destruct via. Qed.

Lemma chan_eta {A} (c : chan A) : Chan (buf c) (cap c) (closed c) = c.
Proof. by destruct c. Qed.

(** Consecutive sends on a channel that has not been closed. *)
Lemma send_all_open via msgs w :
  closed (fanin via (this w)) = false →
  let c := fanin via (this w) in
  let room := cap c - length (buf c) in
  send_all via msgs w
  = (Ok (replicate (room `min` length msgs) true
         ++ replicate (length msgs - room) false),
     with_this (set_fanin via (Chan (buf c ++ take room msgs) (cap c) false)) w).
Proof.
  revert w. induction msgs as [|msg msgs IH]; intros w Hc; cbv zeta.
  - cbn [send_all length]. rewrite Nat.min_0_r, take_nil. cbn [replicate app].
    replace (Chan (buf (fanin via (this w)) ++ []) (cap (fanin via (this w))) false)
      with (fanin via (this w))
      by (rewrite app_nil_r; destruct (fanin via (this w)); by cbn in Hc; subst).
    by rewrite set_fanin_same.
  - cbn [send_all]. pose proof (sender_not_closed via msg w Hc) as Hs. cbv zeta in Hs.
    case_decide as Hfull; rewrite (bind_ok _ _ _ _ _ Hs); clear Hs.
    + replace (cap (fanin via (this w)) - length (buf (fanin via (this w)))) with 0 by lia.
      rewrite (bind_ok _ _ _ _ _ (IH w Hc)).
      replace (cap (fanin via (this w)) - length (buf (fanin via (this w)))) with 0 by lia.
      cbn. by rewrite Nat.sub_0_r.
    + destruct (cap (fanin via (this w)) - length (buf (fanin via (this w))))
        as [|room] eqn:Hroom; [lia|].
      set (w1 := with_this _ w).
      assert (Hf1 : fanin via (this w1)
                    = Chan (buf (fanin via (this w)) ++ [msg]) (cap (fanin via (this w)))
                        false) by apply fanin_set_fanin.
      assert (Hc1 : closed (fanin via (this w1)) = false) by by rewrite Hf1.
      rewrite (bind_ok _ _ _ _ _ (IH w1 Hc1)). rewrite Hf1. cbn [buf cap].
      rewrite length_app. cbn [length].
      replace (cap (fanin via (this w)) - (length (buf (fanin via (this w))) + 1))
        with room by lia.
      subst w1. rewrite set_fanin_twice. cbn [take length replicate app].
      by rewrite <- app_assoc.
Qed.

(** X4. Sends on a channel that has not been closed, one after the other:
    the messages are taken in order while there is room and appended in that
    order behind what the channel held; from the first send that finds the
    channel at capacity on, every send returns false and its message is
    dropped.  No send panics or blocks, and nothing else changes. *)
Theorem send_all_fifo via msgs w :
  closed (fanin via (this w)) = false →
  let c := fanin via (this w) in
  let room := cap c - length (buf c) in
  send_all via msgs w
  = (Ok (replicate (room `min` length msgs) true
         ++ replicate (length msgs - room) false),
     with_this (set_fanin via (Chan (buf c ++ take room msgs) (cap c) false)) w).
Proof. apply send_all_open. Qed.

(** X5. The channels of a new orchestrator: each of the three senders takes
    the first thousand messages, in order, and drops every later one. *)
Theorem New_channels_hold_1000 via msgs s o w :
  this w = New s o →
  send_all via msgs w
  = (Ok (replicate (1000 `min` length msgs) true
         ++ replicate (length msgs - 1000) false),
     with_this (set_fanin via (Chan (take 1000 msgs) 1000 false)) w).
Proof.
  intros Hw.
  assert (Hf : fanin via (this w) = make_chan 1000) by (rewrite Hw; by destruct via).
  rewrite send_all_open by by rewrite Hf. by rewrite Hf.
Qed.

End SenderMore.

Lemma send_all_fifo_witness :
  let w := with_this (set_logChannel (Chan ["a"] 3 false)) (fake.fresh [] 0 "") in
  send_all AddLog ["b"; "c"; "d"; "e"] w
  = (Ok [true; true; false; false],
     with_this (set_logChannel (Chan ["a"; "b"; "c"] 3 false)) w).
Proof.
  intros w. exact (send_all_fifo AddLog ["b"; "c"; "d"; "e"] w eq_refl).
Defined.

Lemma New_channels_hold_1000_witness :
  send_all AddError ["x"; "y"] (fake.fresh [] 0 "")
  = (Ok [true; true],
     with_this (set_errorChannel (Chan ["x"; "y"] 1000 false)) (fake.fresh [] 0 "")).
Proof.
  exact (New_channels_hold_1000 AddError ["x"; "y"] fake.opts fake.cfg (fake.fresh [] 0 "")
           eq_refl).
Defined.

(** ** The channel readers of [Run] *)
Section ReaderMore.

Context {Env : Type}.
Implicit Types (w : World Env) (l : list Thread).

Lemma reader_quantum via w :
  quantum (reader via) w =
    match range_next (fanin via (this w)) with
    | Received x c' =>
        (Ok (), with_stdlog (stdlog w ++ [logged via x])
                  (with_this (set_fanin via c') w))
    | RangeEnd => (wg_Done;; log_Print (reader_stopped via);; exit (reader via)) w
    | NotReady => (Ok (), w)
    end.
Proof.
  destruct via; cbn [reader quantum fanin set_fanin logged reader_stopped];
    rewrite gets_bind; destruct (range_next _); reflexivity.
Qed.

Lemma read_empty via n w : buf (fanin via (this w)) = [] → read_from via n w = w.
Proof.
  intros Hb. unfold read_from. rewrite Hb, take_nil, drop_nil. cbn [fmap list_fmap].
  rewrite app_nil_r, <- Hb, chan_eta, set_fanin_same. by destruct w.
Qed.

Lemma read_0 via w : read_from via 0 w = w.
Proof.
  unfold read_from. rewrite take_0, drop_0, chan_eta. cbn [fmap list_fmap].
  rewrite app_nil_r, set_fanin_same. by destruct w.
Qed.

Lemma read_sched via n l w :
  read_from via n (with_sched l w) = with_sched l (read_from via n w).
Proof. by destruct via. Qed.

Lemma read_S via n w :
  read_from via n (read_from via 1 w) = read_from via (S n) w.
Proof.
  unfold read_from.
  assert (Hf : ∀ c ls,
            fanin via (this (with_stdlog ls (with_this (set_fanin via c) w))) = c)
    by (intros; by destruct via).
  rewrite Hf. cbn [buf cap closed stdlog with_stdlog].
  destruct (buf (fanin via (this w))) as [|x b].
  - rewrite ?take_nil, ?drop_nil. cbn [fmap list_fmap]. rewrite ?take_nil, ?drop_nil.
    cbn [fmap list_fmap]. rewrite !app_nil_r. by destruct via.
  - cbn [take drop fmap list_fmap]. rewrite drop_0, take_0. cbn [fmap list_fmap].
    rewrite <- app_assoc. by destruct via.
Qed.

Lemma reader_step via l w :
  reader via ∈ live w →
  closed (fanin via (this w)) = false ∨ buf (fanin via (this w)) ≠ [] →
  run_until_main (Go (reader via) :: l) w = run_until_main l (read_from via 1 w).
Proof.
  intros Hin Hc.
  rewrite <- (run_until_main_sched l l (read_from via 1 w)), <- read_sched.
  apply run_until_main_go. rewrite step_live by done. rewrite reader_quantum.
  assert (Hf : fanin via (this (with_sched l w)) = fanin via (this w)) by done.
  destruct (buf (fanin via (this w))) as [|x b] eqn:Hb.
  - rewrite read_empty by by rewrite Hf.
    unfold range_next. rewrite Hf, Hb. by destruct Hc as [->|?].
  - unfold read_from, range_next. rewrite Hf, Hb. by destruct via.
Qed.

(** [n] quanta of a reader whose channel is open or holds [n] messages. *)
Lemma reader_reads via n l w :
  reader via ∈ live w →
  closed (fanin via (this w)) = false ∨ n ≤ length (buf (fanin via (this w))) →
  run_until_main (repeat (Go (reader via)) n ++ l) w
  = run_until_main l (read_from via n w).
Proof.
  revert w. induction n as [|n IH]; intros w Hin Hc.
  - by rewrite read_0.
  - cbn [repeat app]. rewrite reader_step; [|done|].
    + rewrite IH; [by rewrite read_S|done|].
      unfold read_from. destruct via; cbn [fanin this with_stdlog with_this set_fanin
        set_logChannel set_statsChannel set_errorChannel logChannel statsChannel
        errorChannel closed buf] in *;
        (destruct Hc as [?|Hlen]; [by left|right; rewrite length_drop; lia]).
    + destruct Hc as [?|Hlen]; [by left|right]. intros Hb. rewrite Hb in Hlen.
      cbn in Hlen. lia.
Qed.

(** X6. A reader that is given [n] quanta while its channel is open, or
    while the channel still holds [n] messages: it logs the first [n]
    messages the channel holds (all of them, when there are fewer), oldest
    first, each on a line of its own with the reader's prefix ([ERROR: ],
    [INFO: ], none for stats), and takes them off the channel.  It does not
    end, does not call [wg.Done], and changes nothing else. *)
Theorem reader_logs_in_order via n l w :
  reader via ∈ live w →
  let c := fanin via (this w) in
  closed c = false ∨ n ≤ length (buf c) →
  run_until_main (repeat (Go (reader via)) n ++ l) w
  = run_until_main l
      (with_stdlog (stdlog w ++ (logged via <$> take n (buf c)))
         (with_this (set_fanin via (Chan (drop n (buf c)) (cap c) (closed c))) w)).
Proof. intros Hin c Hc. by apply reader_reads. Qed.

(** X7. A reader whose channel has been closed, given more quanta than the
    channel holds messages: it logs every message left, oldest first, then
    sees the end of the range, calls [wg.Done], logs that it stopped, and
    exits; the channel is left closed and empty. *)
Theorem reader_ends_after_drain via n l w :
  reader via ∈ live w →
  let c := fanin via (this w) in
  closed c = true → length (buf c) < n → (0 < wg w)%Z →
  run_until_main (repeat (Go (reader via)) n ++ l) w
  = run_until_main l
      (with_live (filter (λ g, g ≠ reader via) (live w))
         (with_stdlog (stdlog w ++ (logged via <$> buf c) ++ [reader_stopped via])
            (with_wg (wg w - 1)
               (with_this (set_fanin via (Chan [] (cap c) true)) w)))).
Proof.
  intros Hin c Hc Hlen Hwg. subst c.
  replace n with (length (buf (fanin via (this w)))
                  + S (n - S (length (buf (fanin via (this w)))))) by lia.
  rewrite repeat_app, <- app_assoc.
  rewrite reader_reads by (done || by right). unfold read_from.
  rewrite firstn_all, drop_all, Hc. cbn [repeat app].
  match goal with |- run_until_main (_ :: ?l1) ?w1 = _ =>
    rewrite (run_until_main_go (reader via) l1 w1
               (with_sched l1
                  (with_live (filter (λ g, g ≠ reader via) (live w))
                     (with_stdlog (stdlog w ++ (logged via <$> buf (fanin via (this w)))
                                     ++ [reader_stopped via])
                        (with_wg (wg w - 1)
                           (with_this (set_fanin via
                              (Chan [] (cap (fanin via (this w))) true)) w))))))
  end.
  - rewrite run_until_main_exited.
    + by rewrite run_until_main_sched.
    + cbn. intros Hf. apply list_elem_of_filter in Hf. by destruct Hf.
  - rewrite step_live by done. rewrite reader_quantum.
    assert (Hf : ∀ c (ls : list string) l1, fanin via (this (with_sched l1
                   (with_stdlog ls (with_this (set_fanin via c) w)))) = c)
      by (intros; by destruct via).
    rewrite Hf. cbn [range_next buf closed].
    rewrite wg_Done_bind by done. rewrite log_Print_bind.
    unfold exit, modify. cbn. rewrite <- app_assoc.
    destruct via; reflexivity.
Qed.

End ReaderMore.

Lemma reader_logs_in_order_witness :
  let w := with_live [ErrorReader]
             (with_this (set_errorChannel (Chan ["e1"; "e2"; "e3"] 1000 false))
                (fake.ready [] 0 "")) in
  run_until_main (repeat (Go ErrorReader) 2 ++ [Main]) w
  = run_until_main [Main]
      (with_stdlog ["ERROR: e1"; "ERROR: e2"]
         (with_this (set_errorChannel (Chan ["e3"] 1000 false)) w)).
Proof.
  intros w. refine (reader_logs_in_order AddError 2 [Main] w _ _).
  - repeat constructor.
  - by left.
Defined.

Lemma reader_ends_after_drain_witness :
  let w := with_live [LogReader] (with_wg 1
             (with_this (set_logChannel (Chan ["m1"; "m2"] 1000 true))
                (fake.ready [] 0 ""))) in
  run_until_main (repeat (Go LogReader) 4 ++ [Main]) w
  = run_until_main [Main]
      (with_live []
         (with_stdlog ["INFO: m1"; "INFO: m2"; "INFO: Stopped log channel reader."]
            (with_wg 0 (with_this (set_logChannel (Chan [] 1000 true)) w)))).
Proof.
  intros w. refine (reader_ends_after_drain AddLog 4 [Main] w _ eq_refl _ _).
  - repeat constructor.
  - vm_compute. lia.
  - vm_compute. reflexivity.
Defined.

(** ** More on teardown and the API *)
Section TeardownMore.

Context {Env : Type}.
Variable directive : string → string * string.
Implicit Types (w : World Env) (evs : list (Event Env)).

(** X8. [deInit] on an initialized orchestrator whose channels are open:
    [DeInit] is called on the transport, the handler, the generator and the
    statistics, in this order and each once, whatever errors they return; an
    error is passed to [addError] at once (the error channel takes it unless
    it is at capacity) and the next [DeInit] is made all the same.  No
    channel is closed, no handle is cleared, and [deInit] returns. *)
Theorem deInit_releases_all w :
  channels_open w → wired w →
  ∃ w' evs,
    deInit w = (Ok (), w') ∧ frame w w' evs ∧
    best_effort (buf (errorChannel (this w'))) (cap (errorChannel (this w)))
      [socketeer_DeInit; handler_DeInit; generator_DeInit; stats_DeInit] evs ∧
    calls evs = [socketeer_DeInit; handler_DeInit; generator_DeInit; stats_DeInit] ∧
    closes evs = [] ∧ channels_open w' ∧ wired w'.
Proof.
  intros Ho Hw. destruct (deInit_spec w Ho Hw) as (w' & evs & E & F & B).
  exists w', evs. split_and!; [done..| | | |].
  - by eapply best_effort_calls.
  - by eapply best_effort_closes.
  - by eapply frame_open.
  - by eapply frame_wired.
Qed.

(** X9. [startApiServer], the channels open and [WaitStop] returning when
    first polled: [Start] is called, then [WaitStop] with two seconds, also
    when [Start] failed; the error of each is passed to [addError] at once
    (the error channel takes it unless it is at capacity); nothing is
    returned to the caller, no channel is closed and no handle changes. *)
Theorem startApiServer_reports w srv :
  channels_open w → apiServer (this w) = Some srv →
  returns_at_once is_Some (httpway.WaitStop srv (seconds 2)) →
  ∃ w' evs,
    startApiServer w = (Ok (), w') ∧ frame w w' evs ∧
    best_effort (buf (errorChannel (this w'))) (cap (errorChannel (this w)))
      [apiServer_Start; apiServer_WaitStop] evs.
Proof.
  intros Ho Hsrv Hwait. unfold startApiServer.
  rewrite gets_bind, Hsrv. cbn [deref]. rewrite ret_bind.
  destruct (best_effort_step apiServer_Start (httpway.Start srv) w Ho)
    as (w1 & evs1 & F1 & B1 & _ & E1).
  rewrite E1. clear E1.
  pose proof (frame_open _ _ _ F1 Ho) as Ho1.
  rewrite gets_bind, (frame_apiServer _ _ _ F1), Hsrv. cbn [deref]. rewrite ret_bind.
  destruct (call_frame (httpway.WaitStop srv (seconds 2)) w1 Ho1)
    as (r & w2 & E2 & F2 & HP).
  assert (is_Some r) as [err ->] by apply (HP (λ r, is_Some r.1)), Hwait.
  rewrite (bind_ok _ _ _ _ _ (await_ready _ _ _ _ E2)), record_event_bind.
  set (w3 := with_trace _ w2).
  assert (F3 : frame w1 w3 [Called apiServer_WaitStop err]).
  { destruct F2. split; try done. cbn. by rewrite frame_trace0, app_nil_r. }
  destruct (report_frame err w3 (frame_open _ _ _ F3 Ho1))
    as (w4 & evs4 & E4 & F4 & _ & Hevs).
  pose proof (frame_trans _ _ _ _ _ F3 F4) as F34.
  assert (B2 : best_effort (buf (errorChannel (this w4))) (cap (errorChannel (this w1)))
                 [apiServer_WaitStop] ([Called apiServer_WaitStop err] ++ evs4)).
  { destruct err as [e|].
    - destruct Hevs as (sent & -> & Hs). cbn. constructor; [|constructor].
      destruct sent; [done|].
      destruct (frame_error _ _ _ F3) as (_ & Hcap & Hp1 & _).
      destruct (frame_error _ _ _ F4) as (_ & _ & Hp2 & _).
      apply prefix_length in Hp2. lia.
    - subst evs4. cbn. repeat constructor. }
  destruct (best_effort_snoc _ _ _ _ _ _ _ F1 B1 F34 B2) as [F B].
  exists w4. eexists. split_and!; [exact E4|exact F|exact B].
Qed.


End TeardownMore.

Lemma deInit_releases_all_witness :
  let w := fake.ready ["handler.DeInit"; "stats.DeInit"] 0 "" in
  ∃ w' evs,
    deInit w = (Ok (), w') ∧ frame w w' evs ∧
    best_effort (buf (errorChannel (this w'))) (cap (errorChannel (this w)))
      [socketeer_DeInit; handler_DeInit; generator_DeInit; stats_DeInit] evs ∧
    calls evs = [socketeer_DeInit; handler_DeInit; generator_DeInit; stats_DeInit] ∧
    closes evs = [] ∧ channels_open w' ∧ wired w'.
Proof.
  intros w. apply (deInit_releases_all w).
  - by vm_compute.
  - repeat split; eexists; vm_compute; reflexivity.
Defined.

Lemma startApiServer_reports_witness :
  let w := with_this fake.idle (fake.ready ["apiServer.Start"] 0 "") in
  ∃ w' evs,
    startApiServer w = (Ok (), w') ∧ frame w w' evs ∧
    best_effort (buf (errorChannel (this w'))) (cap (errorChannel (this w)))
      [apiServer_Start; apiServer_WaitStop] evs.
Proof.
  intros w.
  refine (startApiServer_reports w _ _ eq_refl _).
  - by vm_compute.
  - intros e. cbn. by eexists.
Defined.


(** [GET /stats] over the doubles, the text without percent sign. *)
Example stats_ok :
  (statsHandler fake.directive http.fresh {| http.Body := ""; http.ReadErr := None |}
     (fake.ready [] 5 "sent: 10, received: 9")).1
  = Ok {| http.status := Some 200%Z; http.body := "sent: 10, received: 9" |}.
Proof. by vm_compute. Qed.

(** ** What only the cascade does *)
Section Calm.

Context {Env : Type}.
Implicit Types (w : World Env) (evs : list (Event Env)) (r : option Goroutine).

Lemma closes_app evs1 evs2 : closes (evs1 ++ evs2) = closes evs1 ++ closes evs2.
Proof. induction evs1 as [|[] evs1 IH]; cbn; by rewrite ?IH. Qed.

Lemma loop_returns_app g evs1 evs2 :
  loop_returns g (evs1 ++ evs2) = loop_returns g evs1 + loop_returns g evs2.
Proof. induction evs1 as [|[] evs1 IH]; cbn; lia. Qed.

Lemma settled_refl {A} (c : chan A) : settled c c.
Proof. by split. Qed.

Lemma settled_trans {A} (c1 c2 c3 : chan A) : settled c1 c2 → settled c2 c3 → settled c1 c3.
Proof. intros [? ?] [? ?]. split; auto. Qed.

(** Closes a field of [calm_by] that holds because nothing changed. *)
Ltac calm_field :=
  first [ done | lia | by rewrite app_nil_r | apply settled_refl
        | intros ?; rewrite ?decide_False by done; lia ].

Lemma calm_refl w : calm w w.
Proof. split; calm_field. Qed.

Lemma calm_then n cl r w1 w2 w3 : calm w1 w2 → calm_by n cl r w2 w3 → calm_by n cl r w1 w3.
Proof.
  intros [H1 H2 H3 ? ? ? ? ?] [H1' H2' H3' ? ? ? ? ?].
  split; try congruence; try (by eapply settled_trans).
  - lia.
  - rewrite H2', H2. by rewrite app_nil_r.
  - intros g. rewrite H3', H3. rewrite (decide_False (P := None = Some g)) by done. lia.
Qed.

Lemma then_calm n cl r w1 w2 w3 : calm_by n cl r w1 w2 → calm w2 w3 → calm_by n cl r w1 w3.
Proof.
  intros [H1 H2 H3 ? ? ? ? ?] [H1' H2' H3' ? ? ? ? ?].
  split; try congruence; try (by eapply settled_trans).
  - lia.
  - rewrite H2', H2. by rewrite app_nil_r.
  - intros g. rewrite H3', H3. rewrite (decide_False (P := None = Some g)) by done. lia.
Qed.

Lemma calm_trans w1 w2 w3 : calm w1 w2 → calm w2 w3 → calm w1 w3.
Proof. apply calm_then. Qed.

Lemma calms_ret {A} (a : A) : calms (Env := Env) (mret a).
Proof. intros w. apply calm_refl. Qed.

Lemma calms_panic {A} msg : calms (Env := Env) (A := A) (panic msg).
Proof. intros w. apply calm_refl. Qed.

Lemma calms_stuck {A} : calms (Env := Env) (A := A) stuck.
Proof. intros w. apply calm_refl. Qed.

Lemma calms_gets {A} (f : World Env → A) : calms (gets f).
Proof. intros w. apply calm_refl. Qed.

Lemma calms_deref {A} (p : option A) : calms (Env := Env) (deref p).
Proof. destruct p; [apply calms_ret|apply calms_panic]. Qed.

Lemma calms_bind {A B} (m : M Env A) (f : A → M Env B) :
  calms m → (∀ a, calms (f a)) → calms (m ≫= f).
Proof.
  intros Hm Hf w. specialize (Hm w). unfold mbind, M_bind, bind.
  destruct (m w) as [[a|msg|] w1]; cbn in *; [|done..].
  eapply calm_trans; [exact Hm|apply Hf].
Qed.

(** An assignment that leaves the history, the channels, the goroutines and
    the wait group alone. *)
Lemma calms_modify (f : World Env → World Env) :
  (∀ w, trace (f w) = trace w ∧ wg (f w) = wg w ∧ live (f w) = live w ∧
        logChannel (this (f w)) = logChannel (this w) ∧
        statsChannel (this (f w)) = statsChannel (this w) ∧
        errorChannel (this (f w)) = errorChannel (this w)) →
  calms (modify f).
Proof.
  intros Hf w. destruct (Hf w) as (Ht & Hwg & Hl & Hlc & Hsc & Hec). cbn.
  split; rewrite ?Ht, ?Hlc, ?Hsc, ?Hec; calm_field.
Qed.

(** An entry in the history that is neither the beginning of a cascade,
    nor a close, nor the return of a loop. *)
Lemma calms_record_event (ev : Event Env) :
  cascades [ev] = 0 → closes [ev] = [] → (∀ g, loop_returns g [ev] = 0) →
  calms (record_event ev).
Proof.
  intros Hc Hcl Hr w. cbn. split; cbn; try done; try apply settled_refl.
  - rewrite cascades_app. lia.
  - rewrite closes_app. by rewrite Hcl, app_nil_r.
  - intros g. rewrite loop_returns_app, Hr. by rewrite decide_False.
Qed.

Lemma calms_sender via msg : calms (Env := Env) (sender via msg).
Proof.
  intros w. rewrite sender_unfold. unfold select_send.
  destruct (closed (fanin via (this w))) eqn:Hc; [apply calm_refl|].
  case_decide; [|apply calm_refl]. cbn [snd].
  destruct via; cbn in Hc;
    (split; cbn [this with_this trace wg live set_fanin set_logChannel set_statsChannel
                 set_errorChannel logChannel statsChannel errorChannel];
     first [calm_field
           | split; [intros Hx|intros [Hx _]]; unfold error in *; congruence]).
Qed.

Lemma calms_perform {A} (t : Act A) : calms (Env := Env) (perform t).
Proof.
  induction t as [a|via msg k IH]; cbn [perform]; [apply calms_ret|].
  apply calms_bind; [|done]. rewrite send_sender. apply calms_sender.
Qed.

Create HintDb calm discriminated.

Hint Resolve calms_ret calms_panic calms_stuck calms_gets calms_deref
  calms_sender calms_perform : calm.
Hint Extern 1 (@calms _ _ (mbind _ _)) => apply calms_bind; [|intros ?] : calm.
Hint Extern 1 (@calms _ _ (modify _)) =>
  apply calms_modify; intros ?; repeat split; reflexivity : calm.
Hint Extern 1 (@calms _ _ (log_Print _)) =>
  apply calms_modify; intros ?; repeat split; reflexivity : calm.
Hint Extern 1 (@calms _ _ (record_event _)) =>
  apply calms_record_event; [reflexivity|reflexivity|intros ?; reflexivity] : calm.
Hint Extern 2 (@calms _ _ (match ?x with _ => _ end)) => destruct x : calm.

Lemma calms_call {R} (m : Env → Act (R * Env)) : calms (call m).
Proof. unfold call. auto 10 with calm. Qed.

Lemma calms_invoke c (m : Env → Act (option error * Env)) :
  (∀ err, cascades [Called (Env := Env) c err] = 0) →
  (∀ g, loops (Env := Env) g c = false) →
  calms (invoke c m).
Proof.
  intros Hc Hl. unfold invoke. apply calms_bind; [apply calms_call|]. intros err.
  apply calms_bind; [|auto with calm].
  apply calms_record_event; [done..|]. intros g. cbn. by rewrite Hl.
Qed.

Lemma calms_report err : calms (Env := Env) (report err).
Proof.
  destruct err as [e|]; cbn [report]; [|apply calms_ret].
  apply calms_bind; [apply (calms_sender AddError)|]. intros sent.
  by apply calms_record_event.
Qed.

Hint Resolve calms_call calms_report : calm.
Hint Extern 1 (@calms _ _ (invoke _ _)) =>
  apply calms_invoke; intros ?; reflexivity : calm.

Lemma calms_deInit : calms (Env := Env) deInit.
Proof. unfold deInit. auto 40 with calm. Qed.

Lemma calm_of {A} (m : M Env A) w res w' : calms m → m w = (res, w') → calm w w'.
Proof. intros Hm E. specialize (Hm w). by rewrite E in Hm. Qed.

(** *** [stop], read backwards *)

Lemma calm_by_open n cl r w w' : calm_by n cl r w w' → channels_open w' → channels_open w.
Proof.
  intros [_ _ _ _ _ [Hl _] [Hs _] [He _]] (Hl' & Hs' & He').
  unfold channels_open.
  destruct (closed (logChannel (this w))); [by rewrite Hl in Hl'|].
  destruct (closed (statsChannel (this w))); [by rewrite Hs in Hs'|].
  destruct (closed (errorChannel (this w))); [by rewrite He in He'|].
  done.
Qed.

(** The three closes return only on three open channels. *)
Lemma closes_inv w w' :
  (close errorChannel_;; close logChannel_;; close statsChannel_) w = (Ok (), w') →
  channels_open w ∧
  calm_by 0 [errorChannel_; logChannel_; statsChannel_] None w w' ∧
  closed (errorChannel (this w')) = true ∧
  closed (logChannel (this w')) = true ∧
  closed (statsChannel (this w')) = true.
Proof.
  unfold close, close_chan, mbind, M_bind, bind, gets, modify, record_event, panic.
  cbn.
  destruct (closed (errorChannel (this w))) eqn:He; [done|]. cbn.
  destruct (closed (logChannel (this w))) eqn:Hl; [done|]. cbn.
  destruct (closed (statsChannel (this w))) eqn:Hs; [done|]. cbn.
  intros [= <-]. split; [done|]. split; [|done]. split; cbn; try done.
  - rewrite !cascades_app. cbn. lia.
  - rewrite !closes_app. cbn. by rewrite <- !app_assoc.
  - intros g. rewrite !loop_returns_app. cbn. rewrite decide_False by done. lia.
  - split; [done|]. by intros [_ ?].
  - split; [done|]. by intros [_ ?].
  - split; [done|]. by intros [_ ?].
Qed.

Lemma stopApiServer_inv w err w' :
  stopApiServer w = (Ok err, w') → calm_by 1 [] None w w'.
Proof.
  unfold stopApiServer. rewrite gets_bind. intros H.
  destruct (apiServer (this w)) as [srv|]; [|done]. cbn [deref] in H.
  rewrite ret_bind in H. apply bind_inv in H as (e & w1 & Hi & H).
  assert (w1 = w') as -> by (destruct e; by apply ret_inv in H as [_ ?]).
  unfold invoke in Hi. apply bind_inv in Hi as (e' & w0 & Hc & Hi).
  rewrite record_event_bind in Hi. apply ret_inv in Hi as [_ <-].
  apply (calm_then _ _ _ _ w0); [by eapply calm_of, Hc; apply calms_call|].
  split; cbn; try done; try apply settled_refl.
  - rewrite cascades_app. cbn. lia.
  - rewrite closes_app. cbn. by rewrite !app_nil_r.
  - intros g. rewrite loop_returns_app. cbn. rewrite decide_False by done. lia.
Qed.

(** A step of [stop] that changes nothing the cascade is counted by. *)
Ltac stop_step H C :=
  lazymatch type of H with
  | (?m ≫= _) _ = _ =>
      let a := fresh "a" in
      let w2 := fresh "w" in
      let E := fresh "E" in
      let Hm := fresh "Hm" in
      let C' := fresh "C" in
      assert (Hm : calms m) by auto using calms_deInit with calm;
      apply bind_inv in H as (a & w2 & E & H);
      pose proof (then_calm _ _ _ _ _ _ C (calm_of _ _ _ _ Hm E)) as C';
      clear C E Hm; rename C' into C; cbn beta in H
  end.

(** [stop] returns only when it began with the three channels open; it
    has then begun one cascade and closed error, log and stats, and done
    nothing else to the goroutines. *)
Lemma stop_inv w w' :
  stop w = (Ok (), w') →
  channels_open w ∧
  calm_by 1 [errorChannel_; logChannel_; statsChannel_] None w w' ∧
  closed (errorChannel (this w')) = true ∧
  closed (logChannel (this w')) = true ∧
  closed (statsChannel (this w')) = true.
Proof.
  unfold stop. intros H. apply bind_inv in H as (err & w1 & E & H).
  pose proof (stopApiServer_inv _ _ _ E) as C. clear E.
  do 18 stop_step H C.
  apply closes_inv in H as (Ho & Hc & He & Hl & Hs).
  split; [by eapply calm_by_open|]. split; [|done].
  destruct C as [H1 H2 H3 ? ? ? ? ?], Hc as [H1' H2' H3' ? ? ? ? ?].
  split; try congruence; try (by eapply settled_trans).
  - lia.
  - rewrite H2', H2. by rewrite app_nil_r.
  - intros g. rewrite H3', H3. rewrite (decide_False (P := None = Some g)) by done. lia.
Qed.

(** *** The state of a [Run] *)

Lemma ended_reader_calm n cl r g w w' :
  calm_by n cl r w w' → ended_reader g w → ended_reader g w'.
Proof.
  intros [_ _ _ _ _ [_ Hl] [_ Hs] [_ He]]. destruct g; cbn; auto.
Qed.

Lemma running_calm G n cl rs w w' :
  calm w w' → running G n cl rs w → running G n cl rs w'.
Proof.
  intros C [Hwg Hnd Hst Hen Hca Hre]. pose proof C as [Hc Hcl Hr Hw Hl _ _ _].
  rewrite Nat.add_0_r in Hc. rewrite app_nil_r in Hcl.
  split; rewrite ?Hw, ?Hl, ?Hc, ?Hcl; try done.
  - intros g Hg Hn. eapply ended_reader_calm; [exact C|]. by apply Hen.
  - intros g. rewrite Hr, Hre. rewrite (decide_False (P := None = Some g)) by done. lia.
Qed.

Lemma filter_ne_notin (g : Goroutine) (l : list Goroutine) :
  g ∉ l → filter (λ g', g' ≠ g) l = l.
Proof.
  induction l as [|x l IH]; intros Hg; [done|].
  rewrite filter_cons. case_decide as Hx.
  - f_equal. apply IH. intros Hin. apply Hg. by right.
  - destruct (decide (x = g)) as [->|?]; [|done]. destruct Hg. by left.
Qed.

Lemma length_filter_ne (g : Goroutine) (l : list Goroutine) :
  NoDup l → g ∈ l → S (length (filter (λ g', g' ≠ g) l)) = length l.
Proof.
  induction 1 as [|x l Hx Hnd IH]; intros Hin; [by inversion Hin|].
  rewrite filter_cons. case_decide as Hd.
  - cbn. f_equal. apply IH. apply elem_of_cons in Hin as [Heq|Hin']; [by subst|done].
  - destruct (decide (x = g)) as [Heq|Hne]; [subst x|by destruct Hd].
    by rewrite filter_ne_notin.
Qed.

Lemma if_decide_iff (P P' : Prop) `{!Decision P, !Decision P'} {A} (x y : A) :
  (P ↔ P') → (if decide P then x else y) = (if decide P' then x else y).
Proof. intros HP. repeat case_decide; tauto. Qed.

(** A goroutine has called [wg.Done] and returned. *)
Lemma running_left G n cl rs g w0 w w' :
  running G n cl rs w0 → g ∈ live w0 → by_body g w0 w → ended_reader g w →
  this w' = this w → trace w' = trace w → wg w' = (wg w + -1)%Z →
  live w' = filter (λ g', g' ≠ g) (live w) →
  running G n cl rs w'.
Proof.
  intros [Hwg Hnd Hst Hen Hca Hre] Hin C He Hth Htr Hwg' Hl'.
  pose proof C as [Hc Hcl Hr Hw Hl _ _ _].
  pose proof (length_filter_ne g _ Hnd Hin) as Hlen.
  assert (Hmem : ∀ g', g' ≠ g → (g' ∉ filter (λ g', g' ≠ g) (live w0) ↔ g' ∉ live w0)).
  { intros g' Hne. rewrite list_elem_of_filter. tauto. }
  assert (Hout : g ∉ filter (λ g', g' ≠ g) (live w0)).
  { rewrite list_elem_of_filter. by intros [? _]. }
  split; rewrite ?Htr, ?Hl', ?Hwg', ?Hw, ?Hl.
  - lia.
  - by apply NoDup_filter.
  - intros g' Hg'. apply list_elem_of_filter in Hg' as [_ Hg']. by apply Hst.
  - intros g' HG Hn.
    assert (He' : ∀ g0, ended_reader g0 w → ended_reader g0 w')
      by (intros []; cbn; by rewrite ?Hth).
    apply He'. destruct (decide (g' = g)) as [->|Hne]; [done|].
    eapply ended_reader_calm; [exact C|]. apply Hen; [done|]. by apply Hmem.
  - rewrite Hc, Hcl. destruct (decide (g = GeneratorRun)) as [->|Hne].
    + rewrite decide_False in Hca by tauto. destruct Hca as [-> ->].
      rewrite decide_True by (split; [by apply Hst|done]). split; [lia|done].
    + rewrite Nat.add_0_r, app_nil_r.
      rewrite (if_decide_iff _ (GeneratorRun ∈ G ∧ GeneratorRun ∉ live w0)); [done|].
      by rewrite Hmem.
  - intros g'. rewrite Hr, Hre. destruct (decide (g' = g)) as [->|Hne].
    + rewrite (decide_False (P := _ ∧ _ ∧ g ∉ live w0)) by tauto.
      destruct (is_loop g) eqn:Hlp.
      * rewrite decide_True by done.
        rewrite decide_True by (split_and!; [done|by apply Hst|done]). lia.
      * rewrite decide_False by done.
        rewrite decide_False by (by intros [? _]). lia.
    + rewrite (decide_False (P := _ = Some g')) by (destruct (is_loop g); congruence).
      rewrite (if_decide_iff
                 (is_loop g' = true ∧ g' ∈ G ∧ g' ∉ filter (λ g', g' ≠ g) (live w0))
                 (is_loop g' = true ∧ g' ∈ G ∧ g' ∉ live w0)); [lia|].
      by rewrite Hmem.
Qed.

(** A goroutine has been started. *)
Lemma running_spawn G n cl rs g w w' :
  running G n cl rs w → g ∉ G →
  this w' = this w → trace w' = trace w → wg w' = (wg w + 1)%Z →
  live w' = live w ++ [g] →
  running (G ++ [g]) n cl rs w'.
Proof.
  intros [Hwg Hnd Hst Hen Hca Hre] Hg Hth Htr Hwg' Hl'.
  assert (Hmem : ∀ g', (g' ∈ G ++ [g] ∧ g' ∉ live w ++ [g]) ↔ (g' ∈ G ∧ g' ∉ live w)).
  { intros g'. rewrite !elem_of_app, list_elem_of_singleton. split.
    - intros [[HG|Heq] Hn]; [tauto|]. destruct Hn. by right.
    - intros [HG Hn]. split; [by left|]. intros [?|Heq]; [done|]. by subst. }
  split; rewrite ?Htr, ?Hl', ?Hwg'.
  - rewrite length_app. cbn. lia.
  - apply NoDup_app. split_and!; [done| |apply NoDup_singleton].
    intros x Hx Hx'. apply list_elem_of_singleton in Hx' as ->. by apply Hg, Hst.
  - intros g' Hg'. apply elem_of_app in Hg' as [?|?]; apply elem_of_app; auto.
  - intros g' HG Hn.
    assert (He' : ∀ g0, ended_reader g0 w → ended_reader g0 w')
      by (intros []; cbn; by rewrite ?Hth).
    destruct (proj1 (Hmem g') (conj HG Hn)). by apply He', Hen.
  - by rewrite (if_decide_iff _ (GeneratorRun ∈ G ∧ GeneratorRun ∉ live w)).
  - intros g'. rewrite Hre.
    rewrite (if_decide_iff (is_loop g' = true ∧ g' ∈ G ++ [g] ∧ g' ∉ live w ++ [g])
               (is_loop g' = true ∧ g' ∈ G ∧ g' ∉ live w)); [done|].
    specialize (Hmem g'). tauto.
Qed.

Lemma exit_inv g s w w' :
  (wg_Done;; log_Print s;; exit g) w = (Ok (), w') →
  w' = with_live (filter (λ g', g' ≠ g) (live w))
         (with_stdlog (stdlog w ++ [s]) (with_wg (wg w + -1)%Z w)).
Proof.
  unfold wg_Done, wg_Add. rewrite bind_assoc, gets_bind. case_decide; [done|].
  rewrite modify_bind, log_Print_bind. unfold exit, modify. by intros [= <-].
Qed.

Lemma exit_inv_generator w w' :
  (wg_Done;; exit GeneratorRun) w = (Ok (), w') →
  w' = with_live (filter (λ g', g' ≠ GeneratorRun) (live w)) (with_wg (wg w + -1)%Z w).
Proof.
  unfold wg_Done, wg_Add. rewrite bind_assoc, gets_bind. case_decide; [done|].
  rewrite modify_bind. unfold exit, modify. by intros [= <-].
Qed.

(** A reader's quantum. *)
Lemma running_reader G n cl rs via w w' :
  running G n cl rs w → reader via ∈ live w →
  quantum (reader via) w = (Ok (), w') → running G n cl rs w'.
Proof.
  intros Hr Hin. rewrite reader_quantum. unfold range_next.
  destruct (buf (fanin via (this w))) as [|x b] eqn:Hb.
  - destruct (closed (fanin via (this w))) eqn:Hc.
    + intros H. apply exit_inv in H as ->.
      apply (running_left G n cl rs (reader via) w w); try done.
      * unfold by_body. destruct via; apply calm_refl.
      * destruct via; cbn in *; unfold drained, error in *; by rewrite Hb, Hc.
    + by intros [= <-].
  - intros [= <-]. eapply running_calm; [|exact Hr].
    destruct via; cbn in Hb;
      (split; cbn [this with_this trace wg live with_stdlog set_fanin set_logChannel
                   set_statsChannel set_errorChannel logChannel statsChannel
                   errorChannel];
       first [calm_field
             | split; [done|intros [_ Hx]; unfold error in *; congruence]]).
Qed.

(** A loop's return entered in the history. *)
Lemma loop_returned_by g c w :
  loops (Env := Env) g c = true → (∀ g', g' ≠ g → loops (Env := Env) g' c = false) →
  cascades [Called (Env := Env) c None] = 0 →
  calm_by 0 [] (Some g) w (with_trace (trace w ++ [Called c None]) w).
Proof.
  intros Hg Hother Hc. split; cbn; try done; try apply settled_refl.
  - rewrite cascades_app. lia.
  - rewrite closes_app. cbn. by rewrite !app_nil_r.
  - intros g'. rewrite loop_returns_app. cbn. destruct (decide (g' = g)) as [->|Hne].
    + rewrite Hg. by rewrite decide_True.
    + rewrite Hother by done. rewrite decide_False by congruence. lia.
Qed.

(** A runner's quantum. *)
Lemma running_runner G n cl rs g {X} (field : World Env → option X)
    (run : X → Env → Act (bool * Env)) c msg w w' :
  running G n cl rs w → g ∈ live w →
  g ≠ GeneratorRun → is_loop g = true → (∀ w0, ended_reader g w0) →
  loops (Env := Env) g c = true → (∀ g', g' ≠ g → loops (Env := Env) g' c = false) →
  cascades [Called (Env := Env) c None] = 0 →
  (o ← gets field; x ← deref o; returned ← call (run x);
   if returned : bool then
     record_event (Called c None);; wg_Done;; log_Print msg;; exit g
   else mret ()) w = (Ok (), w') →
  running G n cl rs w'.
Proof.
  intros Hr Hin Hg Hlp He Hl Hother Hc H. rewrite gets_bind in H.
  apply bind_inv in H as (x & w1 & E1 & H).
  pose proof (calm_of _ _ _ _ (calms_deref _) E1) as C1.
  apply bind_inv in H as (returned & w2 & E2 & H).
  pose proof (calm_trans _ _ _ C1 (calm_of _ _ _ _ (calms_call _) E2)) as C2.
  destruct returned.
  - rewrite record_event_bind in H. apply exit_inv in H as ->.
    set (w3 := with_trace _ w2).
    apply (running_left G n cl rs g w w3); try done.
    unfold by_body. rewrite !(decide_False (P := g = GeneratorRun)) by done.
    rewrite Hlp.
    eapply calm_then; [exact C2|]. by apply loop_returned_by.
  - apply ret_inv in H as [_ <-]. by eapply running_calm.
Qed.

Lemma running_generator G n cl rs w w' :
  running G n cl rs w → GeneratorRun ∈ live w →
  quantum GeneratorRun w = (Ok (), w') → running G n cl rs w'.
Proof.
  intros Hr Hin H. unfold quantum in H. rewrite gets_bind in H.
  apply bind_inv in H as (x & w1 & E1 & H).
  pose proof (calm_of _ _ _ _ (calms_deref _) E1) as C1.
  apply bind_inv in H as (returned & w2 & E2 & H).
  pose proof (calm_trans _ _ _ C1 (calm_of _ _ _ _ (calms_call _) E2)) as C2.
  destruct returned.
  - rewrite record_event_bind, !log_Print_bind in H.
    match type of H with (stop ≫= _) ?w0 = _ => set (w3 := w0) in * end.
    assert (C3 : calm_by 0 [] (Some GeneratorRun) w w3).
    { eapply calm_then; [exact C2|].
      pose proof (loop_returned_by GeneratorRun generator_Run w2 eq_refl
                    ltac:(by intros []) eq_refl) as [? ? ? ? ? ? ? ?].
      by split. }
    clearbody w3.
    apply bind_inv in H as ([] & w4 & Es & H).
    apply stop_inv in Es as (_ & C4 & _).
    apply exit_inv_generator in H as ->.
    apply (running_left G n cl rs GeneratorRun w w4); try done.
    unfold by_body. rewrite !(decide_True (P := GeneratorRun = GeneratorRun)) by done.
    cbn [is_loop].
    destruct C3 as [H1 H2 H3 ? ? ? ? ?], C4 as [H1' H2' H3' ? ? ? ? ?].
    split; try congruence; try (by eapply settled_trans).
    + lia.
    + rewrite H2', H2. by rewrite app_nil_r.
    + intros g. rewrite H3', H3. rewrite (decide_False (P := None = Some g)) by done.
      lia.
  - apply ret_inv in H as [_ <-]. by eapply running_calm.
Qed.

Lemma running_quantum G n cl rs g w w' :
  running G n cl rs w → g ∈ live w → quantum g w = (Ok (), w') →
  running G n cl rs w'.
Proof.
  intros Hr Hin H. destruct g.
  - by apply (running_reader G n cl rs AddError w).
  - eapply (running_runner G n cl rs StatsRun (λ w, stats (this w))
              _ stats_Run); try done; by intros [].
  - eapply (running_runner G n cl rs WriterRun (λ w, socketeer (this w))
              _ socketeer_RunWriter); try done; by intros [].
  - eapply (running_runner G n cl rs HandlerRun (λ w, handler (this w))
              _ handler_Run); try done; by intros [].
  - eapply (running_runner G n cl rs ListenerRun (λ w, socketeer (this w))
              _ socketeer_RunListener); try done; by intros [].
  - by apply (running_reader G n cl rs AddLog w).
  - by apply (running_reader G n cl rs AddStats w).
  - by apply (running_generator G n cl rs w).
Qed.

(** *** The goroutine that called [Run] *)

Local Abbreviation anyhow := (λ _ : World Env, True).

Lemma triple_running_calm G n cl rs {A} (m : M Env A) :
  calms m → triple (running G n cl rs) m (running G n cl rs) anyhow.
Proof.
  intros Hm w Hr. specialize (Hm w). destruct (m w).1; [|done..].
  by eapply running_calm.
Qed.

Lemma triple_running_step G n cl rs g :
  triple (Env := Env) (running G n cl rs) (step g) (running G n cl rs) anyhow.
Proof.
  intros w Hr. unfold step. rewrite gets_bind. case_decide as Hin; [|done].
  destruct (quantum g w) as [[[]| |] w'] eqn:E; cbn; [|done..].
  by eapply running_quantum.
Qed.

Lemma triple_running_run_until_main G n cl rs l :
  triple (Env := Env) (running G n cl rs) (run_until_main l) (running G n cl rs) anyhow.
Proof.
  induction l as [|[|g] l IH]; cbn [run_until_main];
    [apply triple_running_calm; auto with calm..|].
  eapply triple_bind; [apply triple_running_calm; auto with calm|]. intros _.
  eapply triple_bind; [apply triple_running_step|]. intros _. exact IH.
Qed.

Lemma triple_running_yield G n cl rs :
  triple (Env := Env) (running G n cl rs) yield (running G n cl rs) anyhow.
Proof.
  unfold yield. eapply triple_bind; [apply triple_running_calm; auto with calm|].
  intros l. apply triple_running_run_until_main.
Qed.

(** A wait returns in a state the poll has found. *)
Lemma triple_running_await_for G n cl rs {A} fuel (poll : M Env (option A))
    (Q : World Env → Prop) :
  (∀ w, running G n cl rs w →
        match poll w with
        | (Ok (Some _), w') => running G n cl rs w' ∧ Q w'
        | (Ok None, w') => running G n cl rs w'
        | _ => True
        end) →
  triple (running G n cl rs) (await_for fuel poll)
    (λ w, running G n cl rs w ∧ Q w) anyhow.
Proof.
  intros Hp. induction fuel as [|fuel IH]; intros w Hr; cbn [await_for];
    specialize (Hp w Hr); destruct (poll w) as [[[a|]| |] w1] eqn:E;
    first [rewrite (bind_ok _ _ _ _ _ E) | rewrite (bind_panic _ _ _ _ _ E)
          | rewrite (bind_stuck _ _ _ _ E)]; try done.
  apply (triple_bind _ _ _ _ _ _ (triple_running_yield G n cl rs) (λ _, IH)). exact Hp.
Qed.

Lemma triple_running_await G n cl rs {A} (poll : M Env (option A)) :
  calms poll → triple (running G n cl rs) (await poll) (running G n cl rs) anyhow.
Proof.
  intros Hp. unfold await.
  eapply triple_bind; [apply triple_running_calm; auto with calm|]. intros l.
  eapply triple_weaken;
    [apply (triple_running_await_for G n cl rs (length l) poll (λ _, True))
    |done|by intros w [? _]|done].
  intros w Hr. pose proof (Hp w) as C. destruct (poll w) as [[[a|]| |] w1]; try done.
  - split; [|done]. by eapply running_calm.
  - by eapply running_calm.
Qed.

(** [wg.Wait()] returns only when the counter is zero. *)
Lemma triple_running_wg_Wait G n cl rs :
  triple (Env := Env) (running G n cl rs) wg_Wait
    (λ w, running G n cl rs w ∧ wg w = 0%Z) anyhow.
Proof.
  unfold wg_Wait, await.
  eapply triple_bind; [apply triple_running_calm; auto with calm|]. intros l.
  apply triple_running_await_for. intros w Hr. rewrite gets_bind.
  unfold mret, M_ret, ret. by case_decide.
Qed.

Lemma triple_startApiServer_running G n cl rs :
  triple (Env := Env) (running G n cl rs) startApiServer (running G n cl rs) anyhow.
Proof.
  unfold startApiServer.
  do 6 (eapply triple_bind; [apply triple_running_calm; auto with calm|intros ?]).
  eapply triple_bind; [apply triple_running_await; auto with calm|]. intros err'.
  apply triple_running_calm. auto with calm.
Qed.

(** [log.Print; wg.Add(1); go ...], and what follows. *)
Lemma triple_spawn_running G n cl rs {A} s g (k : M Env A) Q :
  g ∉ G →
  triple (running (G ++ [g]) n cl rs) k Q anyhow →
  triple (running G n cl rs) (log_Print s;; wg_Add 1;; go g;; k) Q anyhow.
Proof.
  intros Hg Hk w Hr. rewrite log_Print_bind.
  rewrite wg_Add_bind by (cbn; rewrite (running_wg _ _ _ _ _ Hr); lia).
  unfold go. rewrite bind_assoc, modify_bind.
  apply (triple_bind _ _ _ _ _ _ (triple_running_yield (G ++ [g]) n cl rs) (λ _, Hk)).
  by apply (running_spawn G n cl rs g w).
Qed.

(** The goroutines of [Run], in the order it starts them. *)
Lemma Run_shutdown n cl rs :
  triple (Env := Env)
    (λ w, live w = [] ∧ cascades (trace w) = n ∧ closes (trace w) = cl ∧
          ∀ g, loop_returns g (trace w) = rs g) Run
    (λ w, running [ErrorReader; StatsRun; WriterRun; HandlerRun; ListenerRun;
                   LogReader; StatsReader; GeneratorRun] n cl rs w ∧ wg w = 0%Z)
    anyhow.
Proof.
  unfold Run. eapply (triple_bind _ (running [] n cl rs)).
  { intros w (Hl & Hc & Hcl & Hrs). split; cbn; rewrite ?Hl.
    - done.
    - apply NoDup_nil_2.
    - intros g Hg. by apply elem_of_nil in Hg.
    - intros g Hg. by apply elem_of_nil in Hg.
    - rewrite decide_False; [done|]. intros [Hx _]. by apply elem_of_nil in Hx.
    - intros g. rewrite Hrs, decide_False; [lia|]. intros (_ & Hx & _).
      by apply elem_of_nil in Hx. }
  intros _.
  do 8 (apply triple_spawn_running;
        [intros Hx; repeat (apply elem_of_cons in Hx as [Hx|Hx]; [discriminate Hx|]);
         by apply elem_of_nil in Hx|]).
  cbn [app].
  eapply triple_bind; [apply triple_running_calm; auto with calm|]. intros _.
  eapply triple_bind; [apply triple_startApiServer_running|]. intros _.
  eapply triple_bind; [apply triple_running_calm; auto with calm|]. intros _.
  eapply triple_bind; [apply triple_running_wg_Wait|]. intros _.
  by intros w Hw.
Qed.


(** *** [stop] never waits *)

Lemma never_blocks_ret {A} (a : A) : never_blocks (Env := Env) (mret a).
Proof. by intros w. Qed.

Lemma never_blocks_panic {A} msg : never_blocks (Env := Env) (A := A) (panic msg).
Proof. by intros w. Qed.

Lemma never_blocks_gets {A} (f : World Env → A) : never_blocks (gets f).
Proof. by intros w. Qed.

Lemma never_blocks_modify (f : World Env → World Env) : never_blocks (modify f).
Proof. by intros w. Qed.

Lemma never_blocks_deref {A} (p : option A) : never_blocks (Env := Env) (deref p).
Proof. by destruct p. Qed.

Lemma never_blocks_bind {A B} (m : M Env A) (f : A → M Env B) :
  never_blocks m → (∀ a, never_blocks (f a)) → never_blocks (m ≫= f).
Proof.
  intros Hm Hf w. specialize (Hm w). unfold mbind, M_bind, bind.
  destruct (m w) as [[a|msg|] w1]; cbn in *; [apply Hf|done..].
Qed.

Lemma never_blocks_sender via msg : never_blocks (Env := Env) (sender via msg).
Proof.
  intros w. rewrite sender_unfold. unfold select_send.
  destruct (closed _); [done|]. by case_decide.
Qed.

Lemma never_blocks_perform {A} (t : Act A) : never_blocks (Env := Env) (perform t).
Proof.
  induction t as [a|via msg k IH]; cbn [perform]; [apply never_blocks_ret|].
  apply never_blocks_bind; [|done]. rewrite send_sender. apply never_blocks_sender.
Qed.

Lemma never_blocks_close ch : never_blocks (Env := Env) (close ch).
Proof.
  intros w. unfold close, close_chan, mbind, M_bind, bind, gets. cbn.
  destruct ch; by destruct (closed _).
Qed.

Create HintDb unblock discriminated.

Hint Resolve never_blocks_ret never_blocks_panic never_blocks_gets never_blocks_modify
  never_blocks_deref never_blocks_sender never_blocks_perform never_blocks_close
  : unblock.
Hint Extern 1 (@never_blocks _ _ (mbind _ _)) =>
  apply never_blocks_bind; [|intros ?] : unblock.
Hint Extern 1 (@never_blocks _ _ (record_event _)) => apply never_blocks_modify : unblock.
Hint Extern 1 (@never_blocks _ _ (log_Print _)) => apply never_blocks_modify : unblock.
Hint Extern 2 (@never_blocks _ _ (match ?x with _ => _ end)) => destruct x : unblock.

Lemma never_blocks_call {R} (m : Env → Act (R * Env)) : never_blocks (call m).
Proof. unfold call. auto 10 with unblock. Qed.

Lemma never_blocks_report err : never_blocks (Env := Env) (report err).
Proof.
  destruct err as [e|]; cbn [report]; [|apply never_blocks_ret].
  apply never_blocks_bind; [apply (never_blocks_sender AddError)|]. intros sent.
  apply never_blocks_modify.
Qed.

Hint Resolve never_blocks_call never_blocks_report : unblock.

Lemma never_blocks_stop : never_blocks (Env := Env) stop.
Proof.
  unfold stop, stopApiServer, deInit, invoke. auto 100 with unblock.
Qed.

(** X12. [stop] is not idempotent: it returns only when it began with the
    three channels open, and it leaves the three closed; so a second [stop]
    after one that returned never returns.  It panics: on a send on a closed
    channel, by a collaborator or by its own [addError], or at the latest
    at [close(h.errorChannel)]. *)
Theorem stop_only_once w w' :
  stop w = (Ok (), w') →
  channels_open w ∧
  closed (errorChannel (this w')) = true ∧
  closed (logChannel (this w')) = true ∧
  closed (statsChannel (this w')) = true ∧
  ∃ msg, (stop w').1 = Panic msg.
Proof.
  intros H. apply stop_inv in H as (Ho & _ & He & Hl & Hs).
  split_and!; try done.
  pose proof (never_blocks_stop w') as Hn.
  destruct (stop w') as [[[]|msg|] w''] eqn:E; cbn in *; [|by eauto|done].
  apply stop_inv in E as ((Hl' & _) & _). congruence.
Qed.

Section Exported.

Variable NewRawSocketeer :
  config.SocketeerOptions → Sender → Sender →
  Env → Act (socketeer.RawSocketeer Env * Env).
Variable NewHandler :
  option (socketeer.RawSocketeer Env) → config.HammerConfig → Sender → Sender →
  (stats.StatValue → Env → Act (bool * Env)) →
  Env → Act ((option (handler.Handler Env) * option error) * Env).
Variable NewGenerator :
  option (socketeer.RawSocketeer Env) → config.HammerConfig → Sender → Sender →
  (stats.StatValue → Env → Act (bool * Env)) →
  Env → Act ((option (generator.Generator Env) * option error) * Env).
Variable NewServer : Env → Act (httpway.Server Env * Env).
Variable Unmarshal : string → Details + error.
Variable directive : string → string * string.

(** X13. Only the cascade closes channels.  [Init], the exported [Stop],
    [deInit] and the two API handlers, however they end and whatever the
    collaborators do: they begin no cascade, close no channel and reopen
    none, start and end no goroutine, and leave the wait group alone. *)
Theorem only_the_cascade_closes apiAddr apiPort response request w :
  calm w (hammer.Init NewRawSocketeer NewHandler NewGenerator NewServer
            apiAddr apiPort w).2 ∧
  calm w (Stop w).2 ∧
  calm w (deInit w).2 ∧
  calm w (statsHandler directive response request w).2 ∧
  calm w (updateHandler Unmarshal directive response request w).2.
Proof.
  split_and!.
  - revert w.
    change (calms (Env := Env)
              (hammer.Init NewRawSocketeer NewHandler NewGenerator NewServer
                 apiAddr apiPort)).
    unfold hammer.Init, initApiServer. auto 100 with calm.
  - revert w. change (calms (Env := Env) Stop). unfold Stop. auto 20 with calm.
  - apply calms_deInit.
  - revert w. change (calms (Env := Env) (statsHandler directive response request)).
    unfold statsHandler. auto 20 with calm.
  - revert w.
    change (calms (Env := Env) (updateHandler Unmarshal directive response request)).
    unfold updateHandler.
    pose proof (calms_sender AddError) as Hs. cbn [sender] in Hs.
    auto 20 with calm.
Qed.

End Exported.

End Calm.


Lemma stop_only_once_witness :
  let w := fake.ready [] 0 "" in
  let w' := (stop w).2 in
  channels_open w ∧
  closed (errorChannel (this w')) = true ∧
  closed (logChannel (this w')) = true ∧
  closed (statsChannel (this w')) = true ∧
  ∃ msg, (stop w').1 = Panic msg.
Proof.
  intros w w'. apply (stop_only_once w w'). vm_compute. reflexivity.
Defined.

(** The second [stop] over the doubles: the transport's [StopListener]
    logs through [addLog], and the send on the closed log channel panics. *)
Example stop_twice_panics :
  (stop (stop (fake.ready [] 0 "")).2).1 = Panic "send on closed channel".
Proof. vm_compute. reflexivity. Qed.
